(** * container-diff: directory and metadata diffing

    A shallow embedding of the directory diff engine of container-diff
    ([util/diff_utils.go], [util/output_text_utils.go],
    [pkg/util/fs_utils.go], [differs/filemeta_diff.go]) together with the
    properties its specification states about it.

    Go slices are lists, indices and lengths are [nat], [int64] sizes are
    [Z] with the wrap-around of the addition written out, [uint32] modes and
    owner ids are [N].  A Go function that returns [(value, error)] returns a
    pair whose second component is an [option error]; a function that may
    dereference a nil interface returns an [outcome]. *)

From Stdlib Require Import String Ascii ZArith NArith Lia Bool Arith List.
From Stdlib Require Import Permutation Sorted RelationClasses OrderedTypeEx.
From Stdlib Require Import OctalString DecimalString DecimalN.
Import ListNotations.

Local Open Scope string_scope.
Local Open Scope nat_scope.
Local Open Scope list_scope.

(* ================================================================== *)
(** ** Go runtime: errors, results and panics *)

(** [error] values.  [filepath.SkipDir] and [filepath.SkipAll] are compared
    by identity in [filepath.Walk]; every other error carries its message. *)
Inductive error : Type :=
| SkipDir
| SkipAll
| Errno (msg : string).

(** An [outcome] is the normal return of a call or a run-time panic. *)
Inductive outcome (T : Type) : Type :=
| Ret (v : T)
| Panic.
Arguments Ret {T} v.
Arguments Panic {T}.

Definition bind {T U : Type} (c : outcome T) (k : T -> outcome U) : outcome U :=
  match c with
  | Ret v => k v
  | Panic => Panic
  end.

Notation "x <- c ;; k" := (bind c (fun x => k))
  (at level 61, c at next level, right associativity).
Notation "' p <- c ;; k" := (bind c (fun x => let p := x in k))
  (at level 61, p pattern, c at next level, right associativity).

(** [s[lo:hi]] for a slice [s]. *)
Definition slice {T : Type} (s : list T) (lo hi : nat) : list T :=
  firstn (hi - lo) (skipn lo s).

(* ================================================================== *)
(** ** difflib: the sequence matcher *)

Module difflib.

(** Modelled from the spec: difflib's [Match], a matching block
    [{A, B, Size}] with [a[A:A+Size] == b[B:B+Size]] (spec, 3). *)
Record Match : Type := mkMatch { A : nat; B : nat; Size : nat }.

(** Modelled from the spec: difflib's [OpCode] (spec, 3); [Tag] is one of
    the bytes ['e'], ['r'], ['i'], ['d']. *)
Record OpCode : Type :=
  mkOpCode { Tag : ascii; I1 : nat; I2 : nat; J1 : nat; J2 : nat }.

(** Modelled from the spec: the length of the common run that starts both
    lists ([findLongestMatch]). *)
Fixpoint commonRun (xs ys : list string) : nat :=
  match xs, ys with
  | x :: xs', y :: ys' => if String.eqb x y then S (commonRun xs' ys') else 0
  | _, _ => 0
  end.

(** Modelled from the spec: the length of the common run of [a[i:ahi]] and
    [b[j:bhi]], for [findLongestMatch] (difflib is not among the sources). *)
Definition runAt (a b : list string) (ahi bhi i j : nat) : nat :=
  commonRun (slice a i ahi) (slice b j bhi).

(** Modelled from the spec: one candidate start [(i, j)] of
    [findLongestMatch]; only a strictly longer run replaces the best one, so
    the earliest start wins a tie. *)
Definition pick (a b : list string) (ahi bhi i : nat) (best : Match) (j : nat)
  : Match :=
  let k := runAt a b ahi bhi i j in
  if Size best <? k then mkMatch i j k else best.

(** Modelled from the spec: the candidates of one start [i] in [a], over
    the starts [js] in [b] ([findLongestMatch]). *)
Definition row (a b : list string) (ahi bhi : nat) (js : list nat)
  (best : Match) (i : nat) : Match :=
  fold_left (pick a b ahi bhi i) js best.

(** Modelled from the spec: [SequenceMatcher.findLongestMatch] of the
    difflib package, which is not among the sources.  The spec (4.1): find
    the single longest common contiguous run anywhere in the two windows
    [a[alo:ahi]] and [b[blo:bhi]]; ties are broken by the earliest starting
    position in [a], then the earliest in [b].  Without a common run the
    block is [(alo, blo, 0)]. *)
Definition findLongestMatch (a b : list string) (alo ahi blo bhi : nat) : Match :=
  fold_left (row a b ahi bhi (seq blo (bhi - blo))) (seq alo (ahi - alo))
    (mkMatch alo blo 0).

(** Modelled from the spec: the recursive helper [matchBlocks] of
    [SequenceMatcher.GetMatchingBlocks] (difflib, not among the sources).
    The spec (4.1): take the longest common run, recurse independently on
    the portions before and after that run in both sequences, until no
    common run remains.  [fuel] bounds the recursion depth; every recursive
    call is on a strictly shorter window of [a], so [S (ahi - alo)] is
    enough ([matchBlocks_fuel]). *)
Fixpoint matchBlocks (fuel : nat) (a b : list string) (alo ahi blo bhi : nat)
  (matched : list Match) : list Match :=
  match fuel with
  | O => matched
  | S fuel' =>
      let m := findLongestMatch a b alo ahi blo bhi in
      let i := A m in
      let j := B m in
      let k := Size m in
      if 0 <? k then
        let matched :=
          if (alo <? i) && (blo <? j)
          then matchBlocks fuel' a b alo i blo j matched
          else matched in
        let matched := matched ++ [m] in
        if (i + k <? ahi) && (j + k <? bhi)
        then matchBlocks fuel' a b (i + k) ahi (j + k) bhi matched
        else matched
      else matched
  end.

(** Modelled from the spec: [SequenceMatcher.GetMatchingBlocks] (difflib,
    not among the sources).  The spec (3, 4.1): the blocks sorted by
    position, terminated with the zero-length sentinel
    [(len(a), len(b), 0)]. *)
Definition GetMatchingBlocks (a b : list string) : list Match :=
  matchBlocks (S (length a)) a b 0 (length a) 0 (length b) []
    ++ [mkMatch (length a) (length b) 0].

(** Modelled from the spec: no opcode is emitted for an empty region
    ([GetOpCodes]); the zero byte stands for no tag. *)
Definition isZeroTag (t : ascii) : bool := Ascii.eqb t Ascii.zero.

(** Modelled from the spec: one round of the loop of [GetOpCodes] over the
    matching blocks; the state is [(i, j, opCodes)]. *)
Definition opStep (st : nat * nat * list OpCode) (m : Match)
  : nat * nat * list OpCode :=
  let '(i, j, opCodes) := st in
  let ai := A m in
  let bj := B m in
  let size := Size m in
  let tag : ascii :=
    if (i <? ai) && (j <? bj) then "r"%char
    else if i <? ai then "d"%char
    else if j <? bj then "i"%char
    else Ascii.zero in
  let opCodes :=
    if isZeroTag tag then opCodes else opCodes ++ [mkOpCode tag i ai j bj] in
  let i' := ai + size in
  let j' := bj + size in
  let opCodes :=
    if 0 <? size then opCodes ++ [mkOpCode "e"%char ai i' bj j'] else opCodes in
  (i', j', opCodes).

(** Modelled from the spec: [SequenceMatcher.GetOpCodes] (difflib, not among
    the sources).  The spec (3, 4.1): every matching block is an [equal]
    opcode, and every non-equal region between consecutive blocks is one
    opcode tagged [replace] (both sides non-empty), [insert] (only the
    [b]-side non-empty) or [delete] (only the [a]-side non-empty). *)
Definition GetOpCodes (a b : list string) : list OpCode :=
  snd (fold_left opStep (GetMatchingBlocks a b) (0, 0, [])).

(** Modelled from the spec: the tag of an [equal] opcode is the byte
    ['e']. *)
Definition isEqualTag (t : ascii) : bool := Ascii.eqb t "e"%char.

(** Modelled from the spec: [GetGroupedOpCodes] trims a leading and a
    trailing equal opcode to the context window. *)
Definition fixLeading (n : nat) (codes : list OpCode) : list OpCode :=
  match codes with
  | c :: rest =>
      if isEqualTag (Tag c)
      then mkOpCode (Tag c) (Nat.max (I1 c) (I2 c - n)) (I2 c)
             (Nat.max (J1 c) (J2 c - n)) (J2 c) :: rest
      else codes
  | [] => []
  end.

(** Modelled from the spec: the same for the last opcode
    ([GetGroupedOpCodes]). *)
Definition fixTrailing (n : nat) (codes : list OpCode) : list OpCode :=
  match rev codes with
  | c :: tser =>
      if isEqualTag (Tag c)
      then rev tser ++ [mkOpCode (Tag c) (I1 c) (Nat.min (I2 c) (I1 c + n))
                          (J1 c) (Nat.min (J2 c) (J1 c + n))]
      else codes
  | [] => []
  end.

(** Modelled from the spec: one round of the grouping loop of
    [GetGroupedOpCodes]; the state is [(groups, group)]. *)
Definition groupStep (n : nat) (st : list (list OpCode) * list OpCode)
  (c : OpCode) : list (list OpCode) * list OpCode :=
  let '(groups, group) := st in
  if isEqualTag (Tag c) && (n + n <? I2 c - I1 c) then
    let group :=
      group ++ [mkOpCode (Tag c) (I1 c) (Nat.min (I2 c) (I1 c + n))
                  (J1 c) (Nat.min (J2 c) (J1 c + n))] in
    let groups := groups ++ [group] in
    let i1 := Nat.max (I1 c) (I2 c - n) in
    let j1 := Nat.max (J1 c) (J2 c - n) in
    (groups, [mkOpCode (Tag c) i1 (I2 c) j1 (J2 c)])
  else (groups, group ++ [c]).

(** Modelled from the spec: a group that shows no change
    ([GetGroupedOpCodes]). *)
Definition loneEqual (group : list OpCode) : bool :=
  match group with
  | [c] => isEqualTag (Tag c)
  | _ => false
  end.

(** Modelled from the spec: [SequenceMatcher.GetGroupedOpCodes] (difflib,
    not among the sources).  The spec (3): grouped opcodes group adjacent
    changes with a context window of [n] tokens and partition the alignment
    into contiguous change regions; this program always asks for [n = 0].
    Equal opcodes are trimmed to the window, a long equal run closes the
    current group, and a group holding nothing but one equal opcode is
    dropped.  The window [n] is a [nat]: the program passes the constant
    [0]. *)
Definition GetGroupedOpCodes (a b : list string) (n : nat)
  : list (list OpCode) :=
  let codes := GetOpCodes a b in
  let codes :=
    match codes with
    | [] => [mkOpCode "e"%char 0 1 0 1]
    | _ => codes
    end in
  let codes := fixTrailing n (fixLeading n codes) in
  let '(groups, group) := fold_left (groupStep n) codes ([], []) in
  if (0 <? length group) && negb (loneEqual group)
  then groups ++ [group]
  else groups.

End difflib.

(* ================================================================== *)
(** ** util/diff_utils.go: additions, deletions and matches *)

Definition isTag (t c : ascii) : bool := Ascii.eqb t c.

Definition GetAdditions (a b : list string) : list string :=
  let differences := difflib.GetGroupedOpCodes a b 0 in
  flat_map
    (fun group =>
       flat_map
         (fun opCode =>
            let j1 := difflib.J1 opCode in
            let j2 := difflib.J2 opCode in
            if isTag (difflib.Tag opCode) "r" || isTag (difflib.Tag opCode) "i"
            then slice b j1 j2
            else [])
         group)
    differences.

Definition GetDeletions (a b : list string) : list string :=
  let differences := difflib.GetGroupedOpCodes a b 0 in
  flat_map
    (fun group =>
       flat_map
         (fun opCode =>
            let i1 := difflib.I1 opCode in
            let i2 := difflib.I2 opCode in
            if isTag (difflib.Tag opCode) "r" || isTag (difflib.Tag opCode) "d"
            then slice a i1 i2
            else [])
         group)
    differences.

(** The loop skips the last index of [matchindexes], the sentinel. *)
Definition GetMatches (a b : list string) : list string :=
  let matchindexes := difflib.GetMatchingBlocks a b in
  flat_map
    (fun m =>
       let start := difflib.A m in
       let end_ := difflib.A m + difflib.Size m in
       slice a start end_)
    (removelast matchindexes).

(* ================================================================== *)
(** ** The operating system, as the program reads it *)

(** [fs.FileMode] is a [uint32]. *)
Definition FileMode : Type := N.
Bind Scope N_scope with FileMode.

Definition ModeDir : FileMode := N.shiftl 1 31.
Definition ModeSymlink : FileMode := N.shiftl 1 27.

(** What the program reads of an [os.FileInfo]: [Mode()], [Size()] and the
    owner ids of [Sys().( *syscall.Stat_t)]. *)
Record FileInfo : Type :=
  mkFileInfo { fiMode : FileMode; fiSize : Z; fiUid : N; fiGid : N }.

Definition IsDir (info : FileInfo) : bool :=
  negb (N.land (fiMode info) ModeDir =? 0)%N.

Definition isSymlink (info : FileInfo) : bool :=
  negb (N.land (fiMode info) ModeSymlink =? 0)%N.

(** A Go [(value, error)] return whose value is meaningful only without an
    error. *)
Inductive result (T : Type) : Type :=
| Ok (v : T)
| Err (e : error).
Arguments Ok {T} v.
Arguments Err {T} e.

(** The finite tree [filepath.Walk] meets below a path: of every entry the
    outcome of its [lstat], and of a directory the outcome of reading its
    names ([rdErr]) and the entries below it, by name. *)
#[warnings="-register-all"]
Inductive wnode : Type :=
| WNode (st : result FileInfo) (rdErr : option error)
    (children : list (string * wnode)).

(** The system calls and library helpers the program uses.  [IsTar] is
    [pkgutil.IsTar], whose source is not among the files; [Join] is
    [filepath.Join]. *)
Record OS : Type := mkOS {
  Lstat : string -> result FileInfo;
  Readlink : string -> result string;
  ReadFile : string -> result string;
  ReadDir : string -> result (list string);
  Tree : string -> wnode;
  IsTar : string -> bool;
  Join : string -> string -> string
}.

Definition isSkipDir (e : error) : bool :=
  match e with SkipDir => true | _ => false end.

Definition isSkipAll (e : error) : bool :=
  match e with SkipAll => true | _ => false end.

(** A [filepath.WalkFunc] that updates a state of type [S]. *)
Definition WalkFunc (S : Type) : Type :=
  string -> option FileInfo -> option error -> S -> outcome (S * option error).

(** The loop of [filepath.walk] over the names of a directory: [visit]
    is one round, which yields the error the loop returns with, or none to go
    on. *)
Fixpoint walkNames {S : Type}
  (visit : string -> wnode -> S -> outcome (S * option error))
  (cs : list (string * wnode)) (s : S) : outcome (S * option error) :=
  match cs with
  | [] => Ret (s, None)
  | (name, c) :: cs' =>
      r <- visit name c s ;;
      match snd r with
      | Some _ => Ret r
      | None => walkNames visit cs' (fst r)
      end
  end.

(** [filepath.walk]: the recursive descent of the Go library. *)
Fixpoint walk {S : Type} (join : string -> string -> string) (path : string)
  (info : FileInfo) (n : wnode) (walkFn : WalkFunc S) (s : S) {struct n}
  : outcome (S * option error) :=
  match n with
  | WNode _ rdErr children =>
      if negb (IsDir info) then walkFn path (Some info) None s
      else
        r <- walkFn path (Some info) rdErr s ;;
        match rdErr, snd r with
        | None, None =>
            walkNames
              (fun name c s =>
                 let filename := join path name in
                 match c with
                 | WNode (Err e) _ _ =>
                     r <- walkFn filename None (Some e) s ;;
                     match snd r with
                     | Some e' =>
                         if isSkipDir e' then Ret (fst r, None)
                         else Ret (fst r, Some e')
                     | None => Ret r
                     end
                 | WNode (Ok fileInfo) _ _ =>
                     r <- walk join filename fileInfo c walkFn s ;;
                     match snd r with
                     | Some e' =>
                         if negb (IsDir fileInfo) || negb (isSkipDir e')
                         then Ret (fst r, Some e')
                         else Ret (fst r, None)
                     | None => Ret r
                     end
                 end)
              children (fst r)
        | _, _ => Ret r
        end
  end.

(** [filepath.Walk]. *)
Definition Walk {S : Type} (os : OS) (root : string) (fn : WalkFunc S) (s : S)
  : outcome (S * option error) :=
  r <- match Lstat os root with
       | Err e => fn root None (Some e) s
       | Ok info => walk (Join os) root info (Tree os root) fn s
       end ;;
  match snd r with
  | Some e => if isSkipDir e || isSkipAll e then Ret (fst r, None) else Ret r
  | None => Ret r
  end.

(** [strings.TrimPrefix]. *)
Definition TrimPrefix (s pre : string) : string :=
  if String.prefix pre s
  then String.substring (String.length pre)
         (String.length s - String.length pre) s
  else s.

(* ================================================================== *)
(** ** pkg/util/fs_utils.go *)

Record Directory : Type := mkDirectory { Root : string; Content : list string }.

Record DirectoryEntry : Type := mkDirectoryEntry { deName : string; deSize : Z }.

Record DirectoryMetaEntry : Type :=
  mkDirectoryMetaEntry { dmName : string; dmMode : FileMode; dmUID : N; dmGID : N }.

(** [int64] addition. *)
Definition wrap64 (z : Z) : Z := ((z + 2 ^ 63) mod 2 ^ 64 - 2 ^ 63)%Z.
Definition add64 (x y : Z) : Z := wrap64 (x + y).

(** The callback of [getDirectorySize]: [info.IsDir()] on a nil [info]
    panics. *)
Definition sizeWalkFn : WalkFunc Z :=
  fun _ info err size =>
    match info with
    | None => Panic
    | Some info =>
        Ret (if negb (IsDir info) then add64 size (fiSize info) else size, err)
    end.

Definition getDirectorySize (os : OS) (path : string) : outcome (Z * option error) :=
  Walk os path sizeWalkFn 0%Z.

Definition GetSize (os : OS) (path : string) : outcome Z :=
  match Lstat os path with
  | Err _ => Ret (-1)%Z
  | Ok stat =>
      if IsDir stat then
        r <- getDirectorySize os path ;;
        Ret (fst r)
      else Ret (fiSize stat)
  end.

(** The callback of the deep branch of [GetDirectory]. *)
Definition contentWalkFn (root : string) : WalkFunc (list string) :=
  fun currPath _ _ content =>
    let newContent := TrimPrefix currPath root in
    Ret (if String.eqb newContent "" then content else content ++ [newContent],
         None).

Definition GetDirectory (os : OS) (path : string) (deep : bool)
  : outcome (Directory * option error) :=
  if deep then
    r <- Walk os path (contentWalkFn path) [] ;;
    Ret (mkDirectory path (fst r), snd r)
  else
    match ReadDir os path with
    | Err e => Ret (mkDirectory path [], Some e)
    | Ok contents =>
        Ret (mkDirectory path (map (fun name => String.append "/" name) contents),
             None)
    end.

Fixpoint CreateDirectoryEntries (os : OS) (root : string)
  (entryNames : list string) : outcome (list DirectoryEntry) :=
  match entryNames with
  | [] => Ret []
  | name :: rest =>
      let entryPath := Join os root name in
      size <- GetSize os entryPath ;;
      entries <- CreateDirectoryEntries os root rest ;;
      Ret (mkDirectoryEntry name size :: entries)
  end.

Fixpoint CreateDirectoryMetaEntries (os : OS) (root : string)
  (entryNames : list string) : list DirectoryMetaEntry * option error :=
  match entryNames with
  | [] => ([], None)
  | name :: rest =>
      let entryPath := Join os root name in
      match Lstat os entryPath with
      | Err err => ([], Some err)
      | Ok fstat =>
          match CreateDirectoryMetaEntries os root rest with
          | (_, Some err) => ([], Some err)
          | (entries, None) =>
              (mkDirectoryMetaEntry name (fiMode fstat) (fiUid fstat)
                 (fiGid fstat) :: entries, None)
          end
      end
  end.

Definition CheckSameSymlink (os : OS) (f1name f2name : string)
  : bool * option error :=
  match Readlink os f1name with
  | Err err => (false, Some err)
  | Ok link1 =>
      match Readlink os f2name with
      | Err err => (false, Some err)
      | Ok link2 => (String.eqb link1 link2, None)
      end
  end.

Definition CheckSameFile (os : OS) (f1name f2name : string)
  : bool * option error :=
  match Lstat os f1name with
  | Err err => (false, Some err)
  | Ok f1stat =>
      match Lstat os f2name with
      | Err err => (false, Some err)
      | Ok f2stat =>
          if negb (fiSize f1stat =? fiSize f2stat)%Z then (false, None)
          else
            match ReadFile os f1name with
            | Err err => (false, Some err)
            | Ok f1 =>
                match ReadFile os f2name with
                | Err err => (false, Some err)
                | Ok f2 => if negb (String.eqb f1 f2) then (false, None)
                           else (true, None)
                end
            end
      end
  end.

(* ================================================================== *)
(** ** util/diff_utils.go: the directory diff engines *)

Record EntryDiff : Type := mkEntryDiff { edName : string; edSize1 : Z; edSize2 : Z }.

Record MetaEntryDiff : Type := mkMetaEntryDiff {
  mdName : string;
  mdMode1 : FileMode; mdUID1 : N; mdGID1 : N;
  mdMode2 : FileMode; mdUID2 : N; mdGID2 : N
}.

Record DirDiff : Type := mkDirDiff {
  Adds : list DirectoryEntry;
  Dels : list DirectoryEntry;
  Mods : list EntryDiff
}.

Record MetaDirDiff : Type := mkMetaDirDiff {
  MetaAdds : list DirectoryMetaEntry;
  MetaDels : list DirectoryMetaEntry;
  MetaMods : list MetaEntryDiff
}.

(** The zero value [MetaDirDiff{}]. *)
Definition emptyMetaDirDiff : MetaDirDiff := mkMetaDirDiff [] [] [].

Record MultipleMetaDirDiff : Type :=
  mkMultipleMetaDirDiff { DirDiffs : list MetaDirDiff }.

(** [sort.Strings]: ascending in the byte order of strings. *)
Fixpoint insertSorted (x : string) (l : list string) : list string :=
  match l with
  | [] => [x]
  | y :: l' => if String.leb x y then x :: l else y :: insertSorted x l'
  end.

Definition sortStrings (l : list string) : list string :=
  fold_right insertSorted [] l.

Definition GetAddedEntries (d1 d2 : Directory) : list string :=
  GetAdditions (Content d1) (Content d2).

Definition GetDeletedEntries (d1 d2 : Directory) : list string :=
  GetDeletions (Content d1) (Content d2).

(** One round of the loop of [GetModifiedMetaEntries]: is [f] appended to
    [modified]?  [fmt.Sprintf("%s%s", root, f)] is the concatenation. *)
Definition metaModified (os : OS) (d1 d2 : Directory) (f : string) : bool :=
  let f1path := String.append (Root d1) f in
  let f2path := String.append (Root d2) f in
  match Lstat os f1path with
  | Err _ => false
  | Ok f1stat =>
      match Lstat os f2path with
      | Err _ => false
      | Ok f2stat =>
          if negb (fiMode f1stat =? fiMode f2stat)%N then true
          else if negb (fiUid f1stat =? fiUid f2stat)%N
                  || negb (fiGid f1stat =? fiGid f2stat)%N then true
          else false
      end
  end.

Definition GetModifiedMetaEntries (os : OS) (d1 d2 : Directory) : list string :=
  let d1files := Content d1 in
  let d2files := Content d2 in
  let filematches := GetMatches d1files d2files in
  filter (metaModified os d1 d2) filematches.

(** One round of the loop of [GetModifiedEntries]: is [f] appended to
    [modified]? *)
Definition contentModified (os : OS) (d1 d2 : Directory) (f : string) : bool :=
  let f1path := String.append (Root d1) f in
  let f2path := String.append (Root d2) f in
  match Lstat os f1path with
  | Err _ => false
  | Ok f1stat =>
      match Lstat os f2path with
      | Err _ => false
      | Ok f2stat =>
          if isSymlink f1stat && isSymlink f2stat then
            match CheckSameSymlink os f1path f2path with
            | (_, Some _) => false
            | (same, None) => negb same
            end
          else if IsTar os f1path then
            negb (fiSize f1stat =? fiSize f2stat)%Z
          else if negb (IsDir f1stat) then
            match CheckSameFile os f1path f2path with
            | (_, Some _) => false
            | (same, None) => negb same
            end
          else false
      end
  end.

Definition GetModifiedEntries (os : OS) (d1 d2 : Directory) : list string :=
  let d1files := Content d1 in
  let d2files := Content d2 in
  let filematches := GetMatches d1files d2files in
  filter (contentModified os d1 d2) filematches.

Fixpoint createEntryDiffs (os : OS) (root1 root2 : string)
  (entryNames : list string) : outcome (list EntryDiff) :=
  match entryNames with
  | [] => Ret []
  | name :: rest =>
      let entryPath1 := Join os root1 name in
      size1 <- GetSize os entryPath1 ;;
      let entryPath2 := Join os root2 name in
      size2 <- GetSize os entryPath2 ;;
      entries <- createEntryDiffs os root1 root2 rest ;;
      Ret (mkEntryDiff name size1 size2 :: entries)
  end.

Fixpoint createMetaEntryDiffs (os : OS) (root1 root2 : string)
  (entryNames : list string) : list MetaEntryDiff * option error :=
  match entryNames with
  | [] => ([], None)
  | name :: rest =>
      let entryPath1 := Join os root1 name in
      match Lstat os entryPath1 with
      | Err err => ([], Some err)
      | Ok f1stat =>
          let entryPath2 := Join os root2 name in
          match Lstat os entryPath2 with
          | Err err => ([], Some err)
          | Ok f2stat =>
              match createMetaEntryDiffs os root1 root2 rest with
              | (_, Some err) => ([], Some err)
              | (entries, None) =>
                  (mkMetaEntryDiff name
                     (fiMode f1stat) (fiUid f1stat) (fiGid f1stat)
                     (fiMode f2stat) (fiUid f2stat) (fiGid f2stat) :: entries,
                   None)
              end
          end
      end
  end.

Definition isEmpty {T : Type} (l : list T) : bool := length l =? 0.

Definition DiffDirectory (os : OS) (d1 d2 : Directory) : outcome (DirDiff * bool) :=
  let adds := sortStrings (GetAddedEntries d1 d2) in
  addedEntries <- CreateDirectoryEntries os (Root d2) adds ;;
  let dels := sortStrings (GetDeletedEntries d1 d2) in
  deletedEntries <- CreateDirectoryEntries os (Root d1) dels ;;
  let mods := sortStrings (GetModifiedEntries os d1 d2) in
  modifiedEntries <- createEntryDiffs os (Root d1) (Root d2) mods ;;
  let same := isEmpty adds && isEmpty dels && isEmpty mods in
  Ret (mkDirDiff addedEntries deletedEntries modifiedEntries, same).

Definition DiffDirectoryMetadata (os : OS) (d1 d2 : Directory)
  : MetaDirDiff * bool * option error :=
  let adds := sortStrings (GetAddedEntries d1 d2) in
  match CreateDirectoryMetaEntries os (Root d2) adds with
  | (_, Some err) => (emptyMetaDirDiff, false, Some err)
  | (addedEntries, None) =>
      let dels := sortStrings (GetDeletedEntries d1 d2) in
      match CreateDirectoryMetaEntries os (Root d1) dels with
      | (_, Some err) => (emptyMetaDirDiff, false, Some err)
      | (deletedEntries, None) =>
          let mods := sortStrings (GetModifiedMetaEntries os d1 d2) in
          match createMetaEntryDiffs os (Root d1) (Root d2) mods with
          | (_, Some err) => (emptyMetaDirDiff, false, Some err)
          | (modifiedEntries, None) =>
              let same := isEmpty adds && isEmpty dels && isEmpty mods in
              (mkMetaDirDiff addedEntries deletedEntries modifiedEntries,
               same, None)
          end
      end
  end.

(* ================================================================== *)
(** ** util/output_text_utils.go *)

(** [%#o] of an unsigned integer: octal with a leading zero. *)
Definition fmtSharpOctal (n : N) : string :=
  match n with
  | N0 => "0"
  | Npos p => String.append "0" (OctalString.Raw.of_pos p "")
  end.

(** [%d] of an unsigned integer. *)
Definition fmtDecimal (n : N) : string :=
  NilZero.string_of_uint (N.to_uint n).

(** [fmt.Sprintf("mode=%#o uid=%d gid=%d", mode, uid, gid)]. *)
Definition stringifyMeta (mode : FileMode) (uid gid : N) : string :=
  String.append "mode="
    (String.append (fmtSharpOctal mode)
       (String.append " uid="
          (String.append (fmtDecimal uid)
             (String.append " gid=" (fmtDecimal gid))))).

Record StrMetaEntryDiff : Type :=
  mkStrMetaEntryDiff { smName : string; smMeta1 : string; smMeta2 : string }.

Definition stringifyMetaEntryDiffs (entries : list MetaEntryDiff)
  : list StrMetaEntryDiff :=
  map (fun entry =>
         mkStrMetaEntryDiff (mdName entry)
           (stringifyMeta (mdMode1 entry) (mdUID1 entry) (mdGID1 entry))
           (stringifyMeta (mdMode1 entry) (mdUID1 entry) (mdGID1 entry)))
      entries.

(* ================================================================== *)
(** ** differs/filemeta_diff.go *)

(** What the analyzers read of [pkgutil.Layer] and [pkgutil.Image], whose
    declarations are not among the sources. *)
Record Layer : Type := mkLayer { LayerFSPath : string }.

Record Image : Type :=
  mkImage { Source : string; FSPath : string; Layers : list Layer }.

(** The [util.Result] values the layer analyzer returns: the zero
    [MultipleDirDiffResult] beside an error, a [MultipleMetaDirDiffResult]
    otherwise (their declarations are not among the sources). *)
Inductive Result : Type :=
| MultipleDirDiffResultZero
| MultipleMetaDirDiffResult (image1 image2 diffType : string)
    (diff : MultipleMetaDirDiff).

Definition diffImageFileMetadata (os : OS) (img1 img2 : string)
  : outcome (MetaDirDiff * option error) :=
  r1 <- GetDirectory os img1 true ;;
  match snd r1 with
  | Some err => Ret (emptyMetaDirDiff, Some err)
  | None =>
      r2 <- GetDirectory os img2 true ;;
      match snd r2 with
      | Some err => Ret (emptyMetaDirDiff, Some err)
      | None =>
          match DiffDirectoryMetadata os (fst r1) (fst r2) with
          | (_, _, Some err) => Ret (emptyMetaDirDiff, Some err)
          | (diff, _, None) => Ret (diff, None)
          end
      end
  end.

(** The loop of [FileMetaLayerAnalyzer.Diff] over [image1.Layers], from
    [index] on: the diffs appended to [dirDiffs], or the first error. *)
Fixpoint layerLoop (os : OS) (layers1 : list Layer) (index : nat)
  (layers2 : list Layer) (dirDiffs : list MetaDirDiff)
  : outcome (list MetaDirDiff * option error) :=
  match layers1 with
  | [] => Ret (dirDiffs, None)
  | layer :: rest =>
      if length layers2 <=? index
      then layerLoop os rest (S index) layers2 dirDiffs
      else
        let layer2 := nth index layers2 (mkLayer "") in
        r <- diffImageFileMetadata os (LayerFSPath layer) (LayerFSPath layer2) ;;
        match snd r with
        | Some err => Ret (dirDiffs, Some err)
        | None => layerLoop os rest (S index) layers2 (dirDiffs ++ [fst r])
        end
  end.

Definition FileMetaLayerAnalyzer_Diff (os : OS) (image1 image2 : Image)
  : outcome (Result * option error) :=
  r <- layerLoop os (Layers image1) 0 (Layers image2) [] ;;
  match snd r with
  | Some err => Ret (MultipleDirDiffResultZero, Some err)
  | None =>
      Ret (MultipleMetaDirDiffResult (Source image1) (Source image2)
             "FileMetaLayer" (mkMultipleMetaDirDiff (fst r)), None)
  end.

(* ================================================================== *)
(** ** A small file system to run the program on *)

Fixpoint lookup {T : Type} (tbl : list (string * T)) (key : string) : option T :=
  match tbl with
  | [] => None
  | (k, v) :: rest => if String.eqb k key then Some v else lookup rest key
  end.

Definition ENOENT : error := Errno "no such file or directory".

Definition fromTable {T : Type} (tbl : list (string * T)) (key : string)
  : result T :=
  match lookup tbl key with
  | Some v => Ok v
  | None => Err ENOENT
  end.

(** [filepath.Join] on a clean root and a name with or without its leading
    separator. *)
Definition joinClean (root name : string) : string :=
  if String.prefix "/" name then String.append root name
  else String.append root (String.append "/" name).

Definition regular (size : Z) : FileInfo := mkFileInfo 420%N size 0%N 0%N.
Definition directory : FileInfo :=
  mkFileInfo (N.lor ModeDir 493%N) 4096%Z 0%N 0%N.
Definition symlink (size : Z) : FileInfo :=
  mkFileInfo (N.lor ModeSymlink 511%N) size 0%N 0%N.

(** Two trees [/t1] and [/t2], an image [/img2] and three layers.  [/missing]
    and [/t2/gone] do not exist. *)
Definition exampleOS : OS :=
  mkOS
    (fromTable
       [("/t1/link", symlink 2%Z); ("/t2/link", symlink 2%Z);
        ("/t1/a.tar", regular 2048%Z); ("/t2/a.tar", regular 2048%Z);
        ("/t1/x", symlink 2%Z); ("/t2/x", regular 2%Z);
        ("/t1/y", regular 3%Z); ("/t2/y", regular 3%Z);
        ("/t1/a", regular 1%Z); ("/t2/a", regular 1%Z);
        ("/t1/b", regular 20%Z); ("/t2/c", regular 5%Z);
        ("/img2", directory); ("/img2/f", regular 5%Z);
        ("/layer1", directory); ("/layer1/f", regular 5%Z);
        ("/layer2", directory); ("/layer2/g", regular 7%Z);
        ("/layer3", directory)])
    (fromTable
       [("/t1/link", "/a"); ("/t2/link", "/b"); ("/t1/x", "/y")])
    (fromTable
       [("/t1/a.tar", "0000"); ("/t2/a.tar", "1111");
        ("/t1/x", "hi"); ("/t2/x", "ho");
        ("/t1/y", "hi!"); ("/t2/y", "hi!");
        ("/t1/a", "X"); ("/t2/a", "X")])
    (fromTable [("/img2", ["f"])])
    (fun root =>
       match lookup
               [("/img2", WNode (Ok directory) None
                            [("f", WNode (Ok (regular 5%Z)) None [])]);
                ("/layer1", WNode (Ok directory) None
                              [("f", WNode (Ok (regular 5%Z)) None [])]);
                ("/layer2", WNode (Ok directory) None
                              [("g", WNode (Ok (regular 7%Z)) None [])]);
                ("/layer3", WNode (Ok directory) None [])]
               root with
       | Some t => t
       | None => WNode (Err ENOENT) None []
       end)
    (fun path => String.eqb path "/t1/a.tar")
    joinClean.

Definition dT1 (names : list string) : Directory := mkDirectory "/t1" names.
Definition dT2 (names : list string) : Directory := mkDirectory "/t2" names.

Definition imageOne : Image :=
  mkImage "one" "/" [mkLayer "/layer1"; mkLayer "/layer2"; mkLayer "/layer3"].
Definition imageTwo : Image :=
  mkImage "two" "/" [mkLayer "/layer2"; mkLayer "/layer2"].

(* ================================================================== *)
(** ** Vocabulary of the properties *)

Import difflib.

(** A piece of a sequence: the index it starts at and its tokens. *)
Definition piece : Type := nat * list string.

(** The spans [GetMatches] collects, with their start in [a]. *)
Definition matchPieces (a b : list string) : list piece :=
  map (fun m =>
         (A m, slice a (A m) (A m + Size m)))
      (removelast (GetMatchingBlocks a b)).

(** The same spans, placed at their start in [b]. *)
Definition matchPiecesB (a b : list string) : list piece :=
  map (fun m =>
         (B m, slice a (A m) (A m + Size m)))
      (removelast (GetMatchingBlocks a b)).

(** The spans [GetDeletions] collects, with their start in [a]. *)
Definition deletionPieces (a b : list string) : list piece :=
  flat_map
    (fun group =>
       flat_map
         (fun opCode =>
            if isTag (Tag opCode) "r" || isTag (Tag opCode) "d"
            then [(I1 opCode,
                   slice a (I1 opCode) (I2 opCode))]
            else [])
         group)
    (GetGroupedOpCodes a b 0).

(** The spans [GetAdditions] collects, with their start in [b]. *)
Definition additionPieces (a b : list string) : list piece :=
  flat_map
    (fun group =>
       flat_map
         (fun opCode =>
            if isTag (Tag opCode) "r" || isTag (Tag opCode) "i"
            then [(J1 opCode,
                   slice b (J1 opCode) (J2 opCode))]
            else [])
         group)
    (GetGroupedOpCodes a b 0).

(** Interleaving two lists of pieces in the order of their start index. *)
Fixpoint interleave (p : list piece) : list piece -> list piece :=
  fix inner (q : list piece) : list piece :=
    match p, q with
    | [], _ => q
    | _, [] => p
    | x :: p', y :: q' =>
        if fst x <=? fst y then x :: interleave p' q else y :: inner q'
    end.

Definition tokens (ps : list piece) : list string := flat_map snd ps.

(** A block inside the window [a[alo:ahi]], [b[blo:bhi]] whose two sides
    hold the same tokens. *)
Definition goodBlock (a b : list string) (alo ahi blo bhi : nat) (m : Match)
  : Prop :=
  alo <= A m /\ A m + Size m <= ahi /\
  blo <= B m /\ B m + Size m <= bhi /\
  slice a (A m) (A m + Size m) = slice b (B m) (B m + Size m).

(** Blocks in increasing position from [(i, j)] on, inside [a[:ahi]] and
    [b[:bhi]], none empty, each with the same tokens on both sides. *)
Fixpoint chain (a b : list string) (i j : nat) (ms : list Match)
  (ahi bhi : nat) : Prop :=
  match ms with
  | [] => i <= ahi /\ j <= bhi
  | m :: ms' =>
      i <= A m /\ j <= B m /\ 0 < Size m /\
      slice a (A m) (A m + Size m) = slice b (B m) (B m + Size m) /\
      chain a b (A m + Size m) (B m + Size m) ms' ahi bhi
  end.

(** The blocks of [a] and [b] without the sentinel. *)
Definition blocksOf (a b : list string) : list Match :=
  matchBlocks (S (length a)) a b 0 (length a) 0 (length b) [].

(** The opcode of the region [a[i:ai]], [b[j:bj]] before a block. *)
Definition gapCodes (i ai j bj : nat) : list OpCode :=
  if (i <? ai) && (j <? bj) then [mkOpCode "r" i ai j bj]
  else if i <? ai then [mkOpCode "d" i ai j bj]
  else if j <? bj then [mkOpCode "i" i ai j bj]
  else [].

Definition blockCodes (i j : nat) (m : Match) : list OpCode :=
  gapCodes i (A m) j (B m)
    ++ (if 0 <? Size m
        then [mkOpCode "e" (A m) (A m + Size m) (B m) (B m + Size m)]
        else []).

Fixpoint codesFrom (i j : nat) (ms : list Match) : list OpCode :=
  match ms with
  | [] => []
  | m :: ms' => blockCodes i j m ++ codesFrom (A m + Size m) (B m + Size m) ms'
  end.

(** The gaps that [blocks] leave in [s[i:hi]]. *)
Fixpoint gaps (s : list string) (i : nat) (blocks : list piece) (hi : nat)
  : list piece :=
  match blocks with
  | [] => if i <? hi then [(i, slice s i hi)] else []
  | blk :: rest =>
      (if i <? fst blk then [(i, slice s i (fst blk))] else [])
        ++ gaps s (fst blk + length (snd blk)) rest hi
  end.

(** [blocks] are spans of [s[i:hi]], in increasing position, none empty. *)
Fixpoint blocksIn (s : list string) (i : nat) (blocks : list piece) (hi : nat)
  : Prop :=
  match blocks with
  | [] => i <= hi
  | blk :: rest =>
      i <= fst blk /\ 0 < length (snd blk) /\
      slice s (fst blk) (fst blk + length (snd blk)) = snd blk /\
      blocksIn s (fst blk + length (snd blk)) rest hi
  end.

Definition aBlock (a : list string) (m : Match) : piece :=
  (A m, slice a (A m) (A m + Size m)).
Definition bBlock (a : list string) (m : Match) : piece :=
  (B m, slice a (A m) (A m + Size m)).

Definition delPiece (a : list string) (c : OpCode) : list piece :=
  if isTag (Tag c) "r" || isTag (Tag c) "d"
  then [(I1 c, slice a (I1 c) (I2 c))] else [].
Definition addPiece (b : list string) (c : OpCode) : list piece :=
  if isTag (Tag c) "r" || isTag (Tag c) "i"
  then [(J1 c, slice b (J1 c) (J2 c))] else [].

(** A walk callback that never fails and never panics. *)
Definition quiet {S : Type} (fn : WalkFunc S) : Prop :=
  forall path info err s, exists s', fn path info err s = Ret (s', None).

(** Sizing a directory that can be stat'ed never panics. *)
Definition sizesReturn (os : OS) : Prop :=
  forall path stat, Lstat os path = Ok stat -> IsDir stat = true ->
    exists r, getDirectorySize os path = Ret r.

(** The rules that follow the symlink rule in [contentModified]. *)
Definition laterRules (os : OS) (f1path f2path : string)
  (f1stat f2stat : FileInfo) : bool :=
  if IsTar os f1path then negb (fiSize f1stat =? fiSize f2stat)%Z
  else if negb (IsDir f1stat) then
    match CheckSameFile os f1path f2path with
    | (_, Some _) => false
    | (same, None) => negb same
    end
  else false.

(** The same system with other link targets, or other file bodies. *)
Definition withReadlink (os : OS) (rl : string -> result string) : OS :=
  mkOS (Lstat os) rl (ReadFile os) (ReadDir os) (Tree os) (IsTar os) (Join os).


(** The first [n] layers of an image. *)
Definition firstLayers (n : nat) (image : Image) : Image :=
  mkImage (Source image) (FSPath image) (firstn n (Layers image)).

(* ================================================================== *)
(** ** The remaining functions of the three files *)

(** *** pkg/util/fs_utils.go *)

Definition GetDirectoryMetaEntries (os : OS) (d : Directory)
  : list DirectoryMetaEntry * option error :=
  CreateDirectoryMetaEntries os (Root d) (Content d).

(** [GetFileContents].  The [*string] it returns is an [option];
    [IsNotExist] is [os.IsNotExist] on a non-nil error (it is false on
    nil). *)
Definition GetFileContents (IsNotExist : error -> bool) (os : OS)
  (path : string) : option string * option error :=
  let missing :=
    match Lstat os path with
    | Err err => if IsNotExist err then Some err else None
    | Ok _ => None
    end in
  match missing with
  | Some err => (None, Some err)
  | None =>
      match ReadFile os path with
      | Err err => (None, Some err)
      | Ok strContents =>
          if String.eqb strContents "" then (None, None)
          else (Some strContents, None)
      end
  end.

(** [strings.Split(s, sep)] for a separator of one byte. *)
Fixpoint Split (s : string) (sep : ascii) : list string :=
  match s with
  | EmptyString => [""]
  | String c s' =>
      if Ascii.eqb c sep then "" :: Split s' sep
      else
        match Split s' sep with
        | h :: t => String c h :: t
        | [] => [String c ""]
        end
  end.

(** [HasFilepathPrefix]; [Clean] is [filepath.Clean].  The loop over the
    indices of [prefixArray] stops at the first index whose two components
    differ. *)
Definition HasFilepathPrefix (Clean : string -> string) (path prefix : string)
  : bool :=
  let path := Clean path in
  let prefix := Clean prefix in
  let pathArray := Split path "/" in
  let prefixArray := Split prefix "/" in
  if length pathArray <? length prefixArray then false
  else
    forallb
      (fun index => String.eqb (nth index prefixArray "") (nth index pathArray ""))
      (seq 0 (length prefixArray)).

(** The pairs [old, new] handed to [strings.NewReplacer] in
    [CleanFilePath]. *)
Definition windowsReplacements : list (ascii * ascii) :=
  [("<", "_"); (">", "_"); (":", "_"); ("?", "_"); ("*", "_"); ("?", "_");
   ("|", "_")]%char.

(** What a replacer of one-byte strings does to one byte: the first pair
    whose old byte it is decides. *)
Fixpoint replaceByte (oldnew : list (ascii * ascii)) (c : ascii) : ascii :=
  match oldnew with
  | [] => c
  | (o, n) :: rest => if Ascii.eqb o c then n else replaceByte rest c
  end.

(** [strings.NewReplacer(oldnew...).Replace(s)] for one-byte strings. *)
Fixpoint Replace (oldnew : list (ascii * ascii)) (s : string) : string :=
  match s with
  | EmptyString => EmptyString
  | String c s' => String (replaceByte oldnew c) (Replace oldnew s')
  end.

Definition CleanFilePath (Clean : string -> string) (dirtyPath : string)
  : string :=
  Clean (Replace windowsReplacements dirtyPath).

(** *** util/output_text_utils.go *)

(** The conversion [uint64(size)] of an [int64]. *)
Definition uint64 (z : Z) : N := Z.to_N (z mod 2 ^ 64).

(** [stringifySize]; [ByteSize] is [bytefmt.ByteSize], a library that is
    not among the sources. *)
Definition stringifySize (ByteSize : N -> string) (size : Z) : string :=
  if negb (size =? -1)%Z then ByteSize (uint64 size) else "unknown".

Record StrDirectoryEntry : Type :=
  mkStrDirectoryEntry { sdName : string; sdSize : string }.

Definition stringifyDirectoryEntries (ByteSize : N -> string)
  (entries : list DirectoryEntry) : list StrDirectoryEntry :=
  map (fun entry =>
         mkStrDirectoryEntry (deName entry) (stringifySize ByteSize (deSize entry)))
      entries.

Record StrDirectoryMetaEntry : Type :=
  mkStrDirectoryMetaEntry { sdmName : string; sdmMeta : string }.

Definition stringifyDirectoryMetaEntries (entries : list DirectoryMetaEntry)
  : list StrDirectoryMetaEntry :=
  map (fun entry =>
         mkStrDirectoryMetaEntry (dmName entry)
           (stringifyMeta (dmMode entry) (dmUID entry) (dmGID entry)))
      entries.

(** *** util/diff_utils.go: DiffFile *)

Record FileNameDiff : Type :=
  mkFileNameDiff { fdFilename : string; fdDescription : string; fdDiff : string }.

(** [DiffFile].  [SplitLines] and [GetUnifiedDiffString] are difflib's
    (not among the sources); the latter takes [A], [B], [FromFile] and
    [ToFile] of the [UnifiedDiff] the code builds.  The [description] of
    the last return is the outer variable, which is still empty. *)
Definition DiffFile (IsNotExist : error -> bool)
  (SplitLines : string -> list string)
  (GetUnifiedDiffString :
     list string -> list string -> string -> string -> result string)
  (os : OS) (image1 image2 : Image) (filename : string)
  : option FileNameDiff * option error :=
  let image1FilePath := Join os (FSPath image1) filename in
  let image2FilePath := Join os (FSPath image2) filename in
  match GetFileContents IsNotExist os image1FilePath with
  | (_, Some err) => (None, Some err)
  | (image1FileContents, None) =>
      match GetFileContents IsNotExist os image2FilePath with
      | (_, Some err) => (None, Some err)
      | (image2FileContents, None) =>
          let description := "" in
          match image1FileContents, image2FileContents with
          | None, None =>
              (Some (mkFileNameDiff filename "Both files are empty" ""), None)
          | None, Some contents2 =>
              (Some (mkFileNameDiff filename
                       (String.append (Source image1)
                          (String.append " contains an empty file, the contents of "
                             (String.append (Source image2) " are:")))
                       contents2), None)
          | Some contents1, None =>
              (Some (mkFileNameDiff filename
                       (String.append (Source image2)
                          (String.append " contains an empty file, the contents of "
                             (String.append (Source image1) " are:")))
                       contents1), None)
          | Some contents1, Some contents2 =>
              if String.eqb contents1 contents2 then
                (Some (mkFileNameDiff filename
                         "Both files are the same, the contents are:" contents1),
                 None)
              else
                let image1Contents := SplitLines contents1 in
                let image2Contents := SplitLines contents2 in
                match GetUnifiedDiffString image1Contents image2Contents
                        (Source image1) (Source image2) with
                | Err err => (None, Some err)
                | Ok text => (Some (mkFileNameDiff filename description text), None)
                end
          end
      end
  end.

(** *** differs/filemeta_diff.go: the other analyzer methods *)

(** [util.MetaDirDiffResult], [util.FileMetaAnalyzeResult] and
    [util.FileMetaLayerAnalyzeResult], by the fields the analyzers set (their
    declarations are not among the sources). *)
Record MetaDirDiffResult : Type := mkMetaDirDiffResult {
  mrImage1 : string; mrImage2 : string; mrDiffType : string;
  mrDiff : MetaDirDiff
}.

Record FileMetaAnalyzeResult : Type := mkFileMetaAnalyzeResult {
  arImage : string; arAnalyzeType : string;
  arAnalysis : list DirectoryMetaEntry
}.

Record FileMetaLayerAnalyzeResult : Type := mkFileMetaLayerAnalyzeResult {
  lrImage : string; lrAnalyzeType : string;
  lrAnalysis : list (list DirectoryMetaEntry)
}.

Definition FileMetaAnalyzer_Diff (os : OS) (image1 image2 : Image)
  : outcome (MetaDirDiffResult * option error) :=
  r <- diffImageFileMetadata os (FSPath image1) (FSPath image2) ;;
  Ret (mkMetaDirDiffResult (Source image1) (Source image2) "FileMeta" (fst r),
       snd r).

Definition FileMetaAnalyzer_Analyze (os : OS) (image : Image)
  : outcome (FileMetaAnalyzeResult * option error) :=
  let result := mkFileMetaAnalyzeResult "" "" [] in
  r <- GetDirectory os (FSPath image) true ;;
  match snd r with
  | Some err => Ret (result, Some err)
  | None =>
      match GetDirectoryMetaEntries os (fst r) with
      | (_, Some err) => Ret (result, Some err)
      | (entries, None) =>
          Ret (mkFileMetaAnalyzeResult (Source image) "FileMeta" entries, None)
      end
  end.

(** The loop of [FileMetaLayerAnalyzer.Analyze] over [image.Layers]: the
    listings appended to [directoryEntries], or the first error. *)
Fixpoint analyzeLoop (os : OS) (layers : list Layer)
  (directoryEntries : list (list DirectoryMetaEntry))
  : outcome (list (list DirectoryMetaEntry) * option error) :=
  match layers with
  | [] => Ret (directoryEntries, None)
  | layer :: rest =>
      r <- GetDirectory os (LayerFSPath layer) true ;;
      match snd r with
      | Some err => Ret (directoryEntries, Some err)
      | None =>
          match GetDirectoryMetaEntries os (fst r) with
          | (_, Some err) => Ret (directoryEntries, Some err)
          | (entry, None) => analyzeLoop os rest (directoryEntries ++ [entry])
          end
      end
  end.

Definition FileMetaLayerAnalyzer_Analyze (os : OS) (image : Image)
  : outcome (FileMetaLayerAnalyzeResult * option error) :=
  r <- analyzeLoop os (Layers image) [] ;;
  match snd r with
  | Some err => Ret (mkFileMetaLayerAnalyzeResult "" "" [], Some err)
  | None =>
      Ret (mkFileMetaLayerAnalyzeResult (Source image) "FileMetaLayer" (fst r),
           None)
  end.

(** *** A second file system: trees to size, files to diff *)

Definition EACCES : error := Errno "permission denied".

(** [os.IsNotExist] on the errors of the examples. *)
Definition isENOENT (e : error) : bool :=
  match e with
  | Errno msg => String.eqb msg "no such file or directory"
  | _ => false
  end.

(** [/data]: two files, and a directory with a file and a symlink. *)
Definition dataTree : wnode :=
  WNode (Ok directory) None
    [("a", WNode (Ok (regular 10%Z)) None []);
     ("c", WNode (Ok (regular 5%Z)) None []);
     ("sub", WNode (Ok directory) None
               [("b", WNode (Ok (regular 20%Z)) None []);
                ("l", WNode (Ok (symlink 7%Z)) None [])])].

(** [/broken]: the entry [gone] cannot be stat'ed. *)
Definition brokenTree : wnode :=
  WNode (Ok directory) None
    [("a", WNode (Ok (regular 10%Z)) None []);
     ("gone", WNode (Err ENOENT) None []);
     ("c", WNode (Ok (regular 5%Z)) None [])].

(** [/locked]: the directory [priv] cannot be read. *)
Definition lockedTree : wnode :=
  WNode (Ok directory) None
    [("a", WNode (Ok (regular 10%Z)) None []);
     ("priv", WNode (Ok directory) (Some EACCES) []);
     ("c", WNode (Ok (regular 5%Z)) None [])].

(** [/old/etc] is a directory and [/new/etc] a file; [/one/notes] is an
    empty file. *)
Definition storageOS : OS :=
  mkOS
    (fromTable
       [("/old/etc", directory); ("/new/etc", regular 12%Z);
        ("/data", directory); ("/empty", directory);
        ("/broken", directory); ("/broken/a", regular 10%Z);
        ("/broken/c", regular 5%Z); ("/locked", directory);
        ("/one/motd", regular 2%Z); ("/two/motd", regular 2%Z);
        ("/one/notes", regular 0%Z); ("/two/notes", regular 2%Z)])
    (fun _ => Err ENOENT)
    (fromTable
       [("/one/motd", "hi"); ("/two/motd", "ho");
        ("/one/notes", EmptyString); ("/two/notes", "hi")])
    (fun _ => Err ENOENT)
    (fun root =>
       match lookup
               [("/data", dataTree); ("/broken", brokenTree);
                ("/locked", lockedTree);
                ("/empty", WNode (Ok directory) None [])]
               root with
       | Some t => t
       | None => WNode (Err ENOENT) None []
       end)
    (fun _ => false)
    joinClean.

Definition imageBroken : Image :=
  mkImage "broken" "/" [mkLayer "/empty"; mkLayer "/broken"; mkLayer "/data"].
Definition imageFine : Image :=
  mkImage "fine" "/" [mkLayer "/empty"; mkLayer "/empty"; mkLayer "/data"].
Definition imageFirst : Image := mkImage "one" "/one" [].
Definition imageSecond : Image := mkImage "two" "/two" [].

(** Stand-ins for [difflib.SplitLines], [difflib.GetUnifiedDiffString] and
    [bytefmt.ByteSize] to run the examples with. *)
Definition oneLine (s : string) : list string := [s].
Definition plainDiff (a b : list string) (fromFile toFile : string)
  : result string :=
  Ok (String.concat " " (["---"; fromFile; "+++"; toFile] ++ a ++ b)).
Definition plainByteSize (n : N) : string := String.append (fmtDecimal n) "B".

(** *** Vocabulary of the further properties *)

(** Everything the walk meets below an entry with the stat [info] can be
    stat'ed, and every directory can be read. *)
Fixpoint readable (info : FileInfo) (n : wnode) : bool :=
  match n with
  | WNode _ rdErr children =>
      if negb (IsDir info) then true
      else
        match rdErr with
        | Some _ => false
        | None =>
            forallb
              (fun nc =>
                 match nc with
                 | (_, c) =>
                     match c with
                     | WNode (Ok fileInfo) _ _ => readable fileInfo c
                     | WNode (Err _) _ _ => false
                     end
                 end)
              children
        end
  end.

(** The sizes of the entries below an entry with the stat [info] that are
    not directories, added up as integers. *)
Fixpoint treeSize (info : FileInfo) (n : wnode) : Z :=
  match n with
  | WNode _ _ children =>
      if negb (IsDir info) then fiSize info
      else
        fold_right
          (fun nc acc =>
             (match nc with
              | (_, c) =>
                  match c with
                  | WNode (Ok fileInfo) _ _ => treeSize fileInfo c
                  | WNode (Err _) _ _ => 0
                  end
              end + acc)%Z)
          0%Z children
  end.

(** The paths on which the walk below [path] calls a callback that never
    fails, in the order of the calls. *)
Fixpoint visited (join : string -> string -> string) (path : string)
  (info : FileInfo) (n : wnode) : list string :=
  match n with
  | WNode _ rdErr children =>
      if negb (IsDir info) then [path]
      else
        path ::
        match rdErr with
        | Some _ => []
        | None =>
            flat_map
              (fun nc =>
                 match nc with
                 | (name, c) =>
                     match c with
                     | WNode (Ok fileInfo) _ _ =>
                         visited join (join path name) fileInfo c
                     | WNode (Err _) _ _ => [join path name]
                     end
                 end)
              children
        end
  end.

Definition visitedPaths (os : OS) (root : string) : list string :=
  match Lstat os root with
  | Err _ => [root]
  | Ok info => visited (Join os) root info (Tree os root)
  end.

(** The names the listing callback records for these paths. *)
Definition listedNames (root : string) (paths : list string) : list string :=
  filter (fun f => negb (String.eqb f ""))
    (map (fun p => TrimPrefix p root) paths).

(** The bytes of a string. *)
Fixpoint bytes (s : string) : list ascii :=
  match s with
  | EmptyString => []
  | String c s' => c :: bytes s'
  end.

(** The names the deep listing holds for an entry with the stat [info],
    relative to the path of the entry; the first one, the empty name, stands
    for the entry itself. *)
Fixpoint relNames (info : FileInfo) (n : wnode) : list string :=
  match n with
  | WNode _ rdErr children =>
      if negb (IsDir info) then [""]
      else
        "" ::
        match rdErr with
        | Some _ => []
        | None =>
            flat_map
              (fun nc =>
                 match nc with
                 | (name, c) =>
                     map (fun r => String.append "/" (String.append name r))
                       match c with
                       | WNode (Ok fileInfo) _ _ => relNames fileInfo c
                       | WNode (Err _) _ _ => [""]
                       end
                 end)
              children
        end
  end.

(** Names in ascending byte order without repetition, as [readDirNames]
    returns them after [sort.Strings]. *)
Fixpoint increasing (names : list string) : bool :=
  match names with
  | x :: rest =>
      match rest with
      | y :: _ => String.ltb x y && increasing rest
      | [] => true
      end
  | [] => true
  end.

(** A file name: it holds neither a separator nor a zero byte. *)
Definition plainName (name : string) : bool :=
  forallb (fun c => negb (Ascii.eqb c "/") && negb (Ascii.eqb c Ascii.zero))
    (bytes name).

(** Every directory of the tree lists file names in ascending order. *)
Fixpoint wellListed (n : wnode) : bool :=
  match n with
  | WNode _ _ children =>
      increasing (map fst children) && forallb plainName (map fst children)
      && forallb (fun nc => match nc with (_, c) => wellListed c end) children
  end.

(** A path with the zero byte for every separator: the byte order of these
    is the order in which a lexical walk lists paths. *)
Definition sepToZero (s : string) : string :=
  Replace [("/"%char, Ascii.zero)] s.

Definition walkOrder (f g : string) : Prop :=
  String_as_OT.lt (sepToZero f) (sepToZero g).

(** One round of the loop of [filepath.walk] over the names of the
    directory [path]. *)
Definition visitChild {S : Type} (join : string -> string -> string)
  (path : string) (walkFn : WalkFunc S) (name : string) (c : wnode) (s : S)
  : outcome (S * option error) :=
  let filename := join path name in
  match c with
  | WNode (Err e) _ _ =>
      r <- walkFn filename None (Some e) s ;;
      match snd r with
      | Some e' =>
          if isSkipDir e' then Ret (fst r, None)
          else Ret (fst r, Some e')
      | None => Ret r
      end
  | WNode (Ok fileInfo) _ _ =>
      r <- walk join filename fileInfo c walkFn s ;;
      match snd r with
      | Some e' =>
          if negb (IsDir fileInfo) || negb (isSkipDir e')
          then Ret (fst r, Some e')
          else Ret (fst r, None)
      | None => Ret r
      end
  end.

(** What a walk that adds up [total] leaves in a counter that held [s]: the
    sum modulo [2^64], and an [int64] if [s] was one. *)
Definition counted (s total r : Z) : Prop :=
  wrap64 r = wrap64 (s + total) /\ (wrap64 s = s -> wrap64 r = r).

(** In ascending byte order, as [sort.Strings] leaves a slice. *)
Definition ascending (l : list string) : Prop :=
  Sorted (fun x y => String.leb x y = true) l.

(** A string without a space. *)
Definition spaceFree (s : string) : Prop := ~ In " "%char (bytes s).

(* ================================================================== *)
(** * Properties *)

(** ** Slices *)

Lemma firstn_plus {T} (n m : nat) (l : list T) :
  firstn (n + m) l = firstn n l ++ firstn m (skipn n l).
Proof.
  revert l. induction n as [|n IH]; intros [|x l]; simpl; try reflexivity.
  - now rewrite firstn_nil.
  - now rewrite IH.
Qed.

Lemma skipn_cons_nth (s : list string) i :
  i < length s -> skipn i s = nth i s "" :: skipn (S i) s.
Proof.
  revert i. induction s as [|x s IH]; intros i H; simpl in H; [lia|].
  destruct i as [|i]; [reflexivity|].
  simpl. rewrite IH by lia. reflexivity.
Qed.

Lemma slice_nil {T} (s : list T) i : slice s i i = [].
Proof. unfold slice. rewrite Nat.sub_diag. reflexivity. Qed.

Lemma slice_full {T} (s : list T) : slice s 0 (length s) = s.
Proof. unfold slice. rewrite Nat.sub_0_r. simpl. apply firstn_all. Qed.

Lemma slice_app {T} (s : list T) lo mid hi :
  lo <= mid -> mid <= hi -> slice s lo hi = slice s lo mid ++ slice s mid hi.
Proof.
  intros H1 H2. unfold slice.
  replace (hi - lo) with ((mid - lo) + (hi - mid)) by lia.
  rewrite firstn_plus, skipn_skipn.
  replace (mid - lo + lo) with mid by lia. reflexivity.
Qed.

Lemma slice_length {T} (s : list T) lo hi :
  hi <= length s -> length (slice s lo hi) = hi - lo.
Proof.
  intros H. unfold slice. rewrite length_firstn, length_skipn. lia.
Qed.

Lemma slice_length_le {T} (s : list T) lo hi : length (slice s lo hi) <= hi - lo.
Proof. unfold slice. rewrite length_firstn. lia. Qed.

Lemma firstn_slice {T} (s : list T) i k hi :
  i + k <= hi -> firstn k (slice s i hi) = slice s i (i + k).
Proof.
  intros H. unfold slice. rewrite firstn_firstn.
  replace (Nat.min k (hi - i)) with k by lia.
  replace (i + k - i) with k by lia. reflexivity.
Qed.

Lemma slice_cons (s : list string) i hi :
  i < hi -> hi <= length s ->
  slice s i hi = nth i s "" :: slice s (S i) hi.
Proof.
  intros H1 H2. unfold slice.
  replace (hi - i) with (S (hi - S i)) by lia.
  rewrite (skipn_cons_nth s i) by lia. reflexivity.
Qed.

Lemma In_slice (s : list string) lo hi x :
  In x (slice s lo hi) -> In x s.
Proof.
  unfold slice. intros H.
  rewrite <- (firstn_skipn lo s). apply in_or_app. right.
  rewrite <- (firstn_skipn (hi - lo) (skipn lo s)). apply in_or_app. now left.
Qed.

Lemma nth_In_slice (s : list string) lo hi i :
  lo <= i -> i < hi -> hi <= length s -> In (nth i s "") (slice s lo hi).
Proof.
  intros H1 H2 H3.
  rewrite (slice_app s lo i hi) by lia.
  apply in_or_app. right. rewrite slice_cons by lia. now left.
Qed.

(** ** The longest common run *)

Lemma commonRun_le_l xs ys : commonRun xs ys <= length xs.
Proof.
  revert ys. induction xs as [|x xs IH]; intros [|y ys]; simpl; try lia.
  destruct (String.eqb x y); [specialize (IH ys)|]; lia.
Qed.

Lemma commonRun_le_r xs ys : commonRun xs ys <= length ys.
Proof.
  revert ys. induction xs as [|x xs IH]; intros [|y ys]; simpl; try lia.
  destruct (String.eqb x y); [specialize (IH ys)|]; lia.
Qed.

Lemma commonRun_firstn xs ys :
  firstn (commonRun xs ys) xs = firstn (commonRun xs ys) ys.
Proof.
  revert ys. induction xs as [|x xs IH]; intros [|y ys]; simpl; try reflexivity.
  destruct (String.eqb x y) eqn:E; [|reflexivity].
  apply String.eqb_eq in E. subst y. simpl. now rewrite IH.
Qed.

Lemma commonRun_pos x xs ys : 1 <= commonRun (x :: xs) (x :: ys).
Proof. simpl. rewrite String.eqb_refl. lia. Qed.

Section LongestMatch.

Variables a b : list string.
Variables alo ahi blo bhi : nat.

Local Abbreviation good := (goodBlock a b alo ahi blo bhi).
Local Abbreviation run := (runAt a b ahi bhi).
Local Abbreviation pickAt := (pick a b ahi bhi).
Local Abbreviation rowOf := (row a b ahi bhi).

Lemma runAt_good i j :
  alo <= i -> i <= ahi -> blo <= j -> j <= bhi ->
  good (mkMatch i j (run i j)).
Proof.
  intros Hi Hi' Hj Hj'. unfold goodBlock, runAt. simpl.
  set (k := commonRun (slice a i ahi) (slice b j bhi)).
  assert (Hk : k <= length (slice a i ahi)) by apply commonRun_le_l.
  assert (Hk' : k <= length (slice b j bhi)) by apply commonRun_le_r.
  pose proof (slice_length_le a i ahi). pose proof (slice_length_le b j bhi).
  repeat split; try lia.
  rewrite <- (firstn_slice a i k ahi), <- (firstn_slice b j k bhi) by lia.
  apply commonRun_firstn.
Qed.

Lemma pick_good i best j :
  good best -> alo <= i -> i <= ahi -> blo <= j -> j <= bhi ->
  good (pickAt i best j).
Proof.
  intros Hb Hi Hi' Hj Hj'. unfold pick. cbv zeta.
  destruct (Size best <? run i j); [now apply runAt_good|assumption].
Qed.

Lemma pick_size i best j :
  Size best <= Size (pickAt i best j) /\ run i j <= Size (pickAt i best j).
Proof.
  unfold pick. cbv zeta. destruct (Size best <? run i j) eqn:E.
  - apply Nat.ltb_lt in E. simpl. lia.
  - apply Nat.ltb_ge in E. lia.
Qed.

Lemma row_good i js best :
  good best -> alo <= i -> i <= ahi ->
  Forall (fun j => blo <= j /\ j <= bhi) js ->
  good (fold_left (pickAt i) js best).
Proof.
  intros Hb Hi Hi' Hjs. revert best Hb.
  induction Hjs as [|j js [Hj Hj'] _ IH]; intros best Hb; simpl; [assumption|].
  apply IH. now apply pick_good.
Qed.

Lemma row_size i js best :
  Size best <= Size (fold_left (pickAt i) js best) /\
  forall j, In j js -> run i j <= Size (fold_left (pickAt i) js best).
Proof.
  revert best. induction js as [|j js IH]; intros best; simpl.
  - split; [lia|tauto].
  - destruct (IH (pickAt i best j)) as [H1 H2].
    destruct (pick_size i best j) as [H3 H4].
    split; [lia|]. intros j' [<-|Hin]; [lia|auto].
Qed.

Lemma rows_good is_ js best :
  good best ->
  Forall (fun i => alo <= i /\ i <= ahi) is_ ->
  Forall (fun j => blo <= j /\ j <= bhi) js ->
  good (fold_left (rowOf js) is_ best).
Proof.
  intros Hb His Hjs. revert best Hb.
  induction His as [|i is_ [Hi Hi'] _ IH]; intros best Hb; simpl; [assumption|].
  apply IH. unfold row. now apply row_good.
Qed.

Lemma rows_size is_ js best :
  Size best <= Size (fold_left (rowOf js) is_ best) /\
  forall i j, In i is_ -> In j js ->
    run i j <= Size (fold_left (rowOf js) is_ best).
Proof.
  revert best. induction is_ as [|i is_ IH]; intros best; simpl.
  - split; [lia|tauto].
  - destruct (IH (rowOf js best i)) as [H1 H2].
    destruct (row_size i js best) as [H3 H4]. fold (rowOf js best i) in H3, H4.
    split; [lia|]. intros i' j [<-|Hin] Hj; [|auto].
    specialize (H4 j Hj). lia.
Qed.

Lemma findLongestMatch_rows :
  findLongestMatch a b alo ahi blo bhi =
  fold_left (rowOf (seq blo (bhi - blo))) (seq alo (ahi - alo)) (mkMatch alo blo 0).
Proof. reflexivity. Qed.

Lemma seq_window lo hi :
  Forall (fun i => lo <= i /\ i <= hi) (seq lo (hi - lo)).
Proof. apply Forall_forall. intros i Hi. apply in_seq in Hi. lia. Qed.

Lemma findLongestMatch_good :
  alo <= ahi -> blo <= bhi -> good (findLongestMatch a b alo ahi blo bhi).
Proof.
  intros Ha Hb. rewrite findLongestMatch_rows.
  apply rows_good; try apply seq_window.
  unfold goodBlock. simpl. rewrite !Nat.add_0_r, !slice_nil. repeat split; lia.
Qed.

Lemma findLongestMatch_longest i j :
  alo <= i -> i < ahi -> blo <= j -> j < bhi ->
  run i j <= Size (findLongestMatch a b alo ahi blo bhi).
Proof.
  intros. rewrite findLongestMatch_rows.
  apply rows_size; apply in_seq; lia.
Qed.

(** A token common to both windows gives a block that is not empty. *)
Lemma findLongestMatch_common i j :
  alo <= i -> i < ahi -> ahi <= length a ->
  blo <= j -> j < bhi -> bhi <= length b ->
  nth i a "" = nth j b "" ->
  0 < Size (findLongestMatch a b alo ahi blo bhi).
Proof.
  intros Hi Hi' Ha Hj Hj' Hb E.
  pose proof (findLongestMatch_longest i j Hi Hi' Hj Hj') as H.
  unfold runAt in H. rewrite (slice_cons a), (slice_cons b), E in H by lia.
  pose proof (commonRun_pos (nth j b "") (slice a (S i) ahi) (slice b (S j) bhi)).
  lia.
Qed.

End LongestMatch.

(** ** The matching blocks *)

Lemma chain_app a b i j l1 i1 j1 l2 ahi bhi :
  chain a b i j l1 i1 j1 -> chain a b i1 j1 l2 ahi bhi ->
  chain a b i j (l1 ++ l2) ahi bhi.
Proof.
  revert i j. induction l1 as [|m l1 IH]; intros i j H1 H2; simpl in *.
  - destruct l2 as [|m2 l2]; simpl in *; intuition lia.
  - intuition.
Qed.

Lemma chain_end a b i j ms ahi bhi :
  chain a b i j ms ahi bhi -> i <= ahi /\ j <= bhi.
Proof.
  revert i j. induction ms as [|m ms IH]; intros i j H; simpl in H; [assumption|].
  destruct H as (H1 & H2 & H3 & _ & H4). apply IH in H4. lia.
Qed.

Lemma matchBlocks_acc fuel a b : forall alo ahi blo bhi matched,
  matchBlocks fuel a b alo ahi blo bhi matched =
  matched ++ matchBlocks fuel a b alo ahi blo bhi [].
Proof.
  induction fuel as [|fuel IH]; intros alo ahi blo bhi matched; simpl.
  - now rewrite app_nil_r.
  - set (m := findLongestMatch a b alo ahi blo bhi).
    destruct (0 <? Size m); [|now rewrite app_nil_r].
    destruct ((alo <? A m) && (blo <? B m));
      destruct ((A m + Size m <? ahi) && (B m + Size m <? bhi));
      repeat (rewrite (IH _ _ _ _ (_ ++ _)) || rewrite (IH _ _ _ _ [m]) ||
              rewrite (IH _ _ _ _ matched));
      repeat rewrite <- app_assoc; simpl; try reflexivity.
Qed.

(** The blocks of a window, without the accumulator. *)
Lemma matchBlocks_unfold fuel a b alo ahi blo bhi :
  matchBlocks (S fuel) a b alo ahi blo bhi [] =
  let m := findLongestMatch a b alo ahi blo bhi in
  if 0 <? Size m then
    (if (alo <? A m) && (blo <? B m)
     then matchBlocks fuel a b alo (A m) blo (B m) [] else [])
    ++ [m]
    ++ (if (A m + Size m <? ahi) && (B m + Size m <? bhi)
        then matchBlocks fuel a b (A m + Size m) ahi (B m + Size m) bhi []
        else [])
  else [].
Proof.
  simpl. set (m := findLongestMatch a b alo ahi blo bhi).
  destruct (0 <? Size m); [|reflexivity].
  destruct ((alo <? A m) && (blo <? B m));
    destruct ((A m + Size m <? ahi) && (B m + Size m <? bhi)); simpl;
    try rewrite (matchBlocks_acc fuel a b _ _ _ _ (_ ++ [m]));
    try rewrite <- app_assoc; simpl; try reflexivity.
  all: rewrite ?app_nil_r; try reflexivity.
  apply (matchBlocks_acc fuel a b _ _ _ _ [m]).
Qed.

Lemma matchBlocks_chain fuel a b : forall alo ahi blo bhi,
  alo <= ahi -> blo <= bhi ->
  chain a b alo blo (matchBlocks fuel a b alo ahi blo bhi []) ahi bhi.
Proof.
  induction fuel as [|fuel IH]; intros alo ahi blo bhi Ha Hb.
  - simpl. lia.
  - rewrite matchBlocks_unfold.
    pose proof (findLongestMatch_good a b alo ahi blo bhi Ha Hb) as G.
    set (m := findLongestMatch a b alo ahi blo bhi) in *.
    destruct G as (G1 & G2 & G3 & G4 & G5). cbv zeta.
    destruct (0 <? Size m) eqn:Ek; [|simpl; lia].
    apply Nat.ltb_lt in Ek.
    apply (chain_app a b alo blo _ (A m) (B m)).
    + destruct ((alo <? A m) && (blo <? B m)); [apply IH; lia|simpl; lia].
    + apply (chain_app a b (A m) (B m) [m] (A m + Size m) (B m + Size m)).
      * simpl. repeat split; try lia. assumption.
      * destruct ((A m + Size m <? ahi) && (B m + Size m <? bhi));
          [apply IH; lia|simpl; lia].
Qed.

(** Fuel above the length of the window of [a] is never used up. *)
Lemma matchBlocks_fuel fuel1 a b : forall fuel2 alo ahi blo bhi,
  alo <= ahi -> blo <= bhi -> ahi - alo < fuel1 -> ahi - alo < fuel2 ->
  matchBlocks fuel1 a b alo ahi blo bhi [] =
  matchBlocks fuel2 a b alo ahi blo bhi [].
Proof.
  induction fuel1 as [|fuel1 IH]; intros fuel2 alo ahi blo bhi Ha Hb H1 H2; [lia|].
  destruct fuel2 as [|fuel2]; [lia|].
  rewrite !matchBlocks_unfold.
  pose proof (findLongestMatch_good a b alo ahi blo bhi Ha Hb) as G.
  set (m := findLongestMatch a b alo ahi blo bhi) in *.
  destruct G as (G1 & G2 & G3 & G4 & G5). cbv zeta.
  destruct (0 <? Size m) eqn:Ek; [|reflexivity].
  apply Nat.ltb_lt in Ek.
  f_equal; [|f_equal].
  - destruct ((alo <? A m) && (blo <? B m)); [|reflexivity].
    apply IH; lia.
  - destruct ((A m + Size m <? ahi) && (B m + Size m <? bhi)); [|reflexivity].
    apply IH; lia.
Qed.

(** Any fuel above the length of [a] gives the blocks of [blocksOf]. *)
Lemma blocksOf_fuel a b fuel :
  length a < fuel ->
  matchBlocks fuel a b 0 (length a) 0 (length b) [] = blocksOf a b.
Proof. intros H. unfold blocksOf. apply matchBlocks_fuel; lia. Qed.

(** The spans of a chain lie inside the two sequences, so slicing them does
    not go out of range. *)
Lemma chain_in_range a b ms : forall i j ahi bhi,
  chain a b i j ms ahi bhi ->
  Forall (fun m => A m + Size m <= ahi /\ B m + Size m <= bhi) ms.
Proof.
  induction ms as [|m ms IH]; intros i j ahi bhi H; constructor.
  - simpl in H. destruct H as (_ & _ & _ & _ & H).
    apply chain_end in H. exact H.
  - simpl in H. destruct H as (_ & _ & _ & _ & H). exact (IH _ _ _ _ H).
Qed.

(** ** Opcodes *)

Lemma opStep_codes i j acc m :
  opStep (i, j, acc) m = (A m + Size m, B m + Size m, acc ++ blockCodes i j m).
Proof.
  unfold opStep, blockCodes, gapCodes.
  destruct (i <? A m), (j <? B m), (0 <? Size m); simpl;
    rewrite <- ?app_assoc, ?app_nil_r; reflexivity.
Qed.

Lemma fold_opStep ms : forall i j acc,
  snd (fold_left opStep ms (i, j, acc)) = acc ++ codesFrom i j ms.
Proof.
  induction ms as [|m ms IH]; intros i j acc.
  - simpl. now rewrite app_nil_r.
  - change (fold_left opStep (m :: ms) (i, j, acc))
      with (fold_left opStep ms (opStep (i, j, acc) m)).
    rewrite opStep_codes, IH. simpl. now rewrite app_assoc.
Qed.

Lemma GetOpCodes_codes a b :
  GetOpCodes a b = codesFrom 0 0 (GetMatchingBlocks a b).
Proof. unfold GetOpCodes. now rewrite fold_opStep. Qed.

(** A use of the opcodes that ignores the equal ones sees the same through
    the groups, whatever the context window. *)
Section Grouped.

Variable T : Type.
Variable f : OpCode -> list T.
Hypothesis f_equal_nil : forall c, isEqualTag (Tag c) = true -> f c = [].

Lemma fixLeading_flat n codes :
  flat_map f (fixLeading n codes) = flat_map f codes.
Proof.
  destruct codes as [|c rest]; [reflexivity|]. simpl.
  destruct (isEqualTag (Tag c)) eqn:E; [|reflexivity].
  simpl. rewrite !f_equal_nil by assumption. reflexivity.
Qed.

Lemma fixTrailing_flat n codes :
  flat_map f (fixTrailing n codes) = flat_map f codes.
Proof.
  unfold fixTrailing. destruct (rev codes) as [|c tser] eqn:R.
  - destruct codes; [reflexivity|].
    apply (f_equal (@length _)) in R. rewrite length_rev in R. discriminate.
  - destruct (isEqualTag (Tag c)) eqn:E; [|reflexivity].
    assert (Hc : codes = rev tser ++ [c]).
    { rewrite <- (rev_involutive codes), R. reflexivity. }
    rewrite Hc, !flat_map_app. simpl.
    rewrite !f_equal_nil by assumption. reflexivity.
Qed.

Lemma groupStep_flat n codes : forall groups group,
  let r := fold_left (groupStep n) codes (groups, group) in
  flat_map (flat_map f) (fst r) ++ flat_map f (snd r) =
  flat_map (flat_map f) groups ++ flat_map f group ++ flat_map f codes.
Proof.
  induction codes as [|c codes IH]; intros groups group; simpl.
  - now rewrite app_nil_r.
  - unfold groupStep at 2.
    destruct (isEqualTag (Tag c) && (n + n <? I2 c - I1 c)) eqn:E.
    + apply andb_prop in E. destruct E as [E _].
      rewrite IH. rewrite !flat_map_app. simpl.
      rewrite !flat_map_app. simpl.
      rewrite !f_equal_nil by assumption.
      rewrite !app_nil_r, <- !app_assoc. reflexivity.
    + rewrite IH. rewrite !flat_map_app. simpl.
      rewrite app_nil_r, <- !app_assoc. reflexivity.
Qed.

Lemma loneEqual_flat group : loneEqual group = true -> flat_map f group = [].
Proof.
  destruct group as [|c [|c' rest]]; simpl; try discriminate.
  intros E. now rewrite f_equal_nil.
Qed.

Lemma GetGroupedOpCodes_flat a b n :
  flat_map (flat_map f) (GetGroupedOpCodes a b n) = flat_map f (GetOpCodes a b).
Proof.
  unfold GetGroupedOpCodes.
  set (codes := match GetOpCodes a b with
                | [] => [mkOpCode "e" 0 1 0 1]
                | _ => GetOpCodes a b
                end).
  assert (Hc : flat_map f codes = flat_map f (GetOpCodes a b)).
  { unfold codes. destruct (GetOpCodes a b); [|reflexivity].
    simpl. now rewrite f_equal_nil. }
  pose proof (groupStep_flat n (fixTrailing n (fixLeading n codes)) [] []) as G.
  destruct (fold_left (groupStep n) (fixTrailing n (fixLeading n codes)) ([], []))
    as [groups group].
  simpl in G. rewrite fixTrailing_flat, fixLeading_flat, Hc in G.
  rewrite <- G. clear G.
  destruct group as [|c group].
  - simpl. now rewrite app_nil_r.
  - destruct (loneEqual (c :: group)) eqn:L.
    + rewrite (loneEqual_flat _ L). simpl. now rewrite app_nil_r.
    + cbn [length Nat.ltb Nat.leb negb andb]. rewrite flat_map_app.
      cbn [flat_map]. now rewrite app_nil_r.
Qed.

End Grouped.

(** ** Interleaving blocks and the gaps between them *)

Lemma interleave_nil_l q : interleave [] q = q.
Proof. destruct q; reflexivity. Qed.

Lemma interleave_nil_r p : interleave p [] = p.
Proof. destruct p; reflexivity. Qed.

Lemma interleave_cons x p y q :
  interleave (x :: p) (y :: q) =
  if fst x <=? fst y then x :: interleave p (y :: q)
  else y :: interleave (x :: p) q.
Proof. reflexivity. Qed.

Lemma interleave_first x p q :
  (forall y, In y q -> fst x <= fst y) ->
  interleave (x :: p) q = x :: interleave p q.
Proof.
  destruct q as [|y q]; intros H.
  - now rewrite !interleave_nil_r.
  - rewrite interleave_cons.
    assert (E : (fst x <=? fst y) = true) by (apply Nat.leb_le, H; now left).
    now rewrite E.
Qed.

Lemma interleave_perm p : forall q, Permutation (interleave p q) (p ++ q).
Proof.
  induction p as [|x p IHp]; intros q.
  - rewrite interleave_nil_l. reflexivity.
  - induction q as [|y q IHq].
    + rewrite interleave_nil_r, app_nil_r. reflexivity.
    + rewrite interleave_cons. destruct (fst x <=? fst y).
      * simpl. constructor. apply IHp.
      * rewrite IHq. apply (Permutation_middle (x :: p) q y).
Qed.

Lemma blocksIn_end s blocks : forall i hi, blocksIn s i blocks hi -> i <= hi.
Proof.
  induction blocks as [|blk rest IH]; intros i hi H; simpl in H; [assumption|].
  destruct H as (H1 & H2 & _ & H3). apply IH in H3. lia.
Qed.

Lemma gaps_start s blocks : forall i hi y,
  blocksIn s i blocks hi -> In y (gaps s i blocks hi) -> i <= fst y.
Proof.
  induction blocks as [|blk rest IH]; intros i hi y H Hin; simpl in *.
  - destruct (i <? hi); [|contradiction].
    destruct Hin as [<-|[]]. simpl. lia.
  - destruct H as (H1 & H2 & _ & H3).
    apply in_app_or in Hin. destruct Hin as [Hin|Hin].
    + destruct (i <? fst blk); [|contradiction].
      destruct Hin as [<-|[]]. simpl. lia.
    + specialize (IH _ _ _ H3 Hin). lia.
Qed.

Lemma interleave_gaps s blocks : forall i hi,
  blocksIn s i blocks hi ->
  tokens (interleave blocks (gaps s i blocks hi)) = slice s i hi.
Proof.
  unfold tokens.
  induction blocks as [|blk rest IH]; intros i hi H; simpl in H.
  - simpl gaps. rewrite interleave_nil_l.
    destruct (i <? hi) eqn:E; simpl.
    + now rewrite app_nil_r.
    + apply Nat.ltb_ge in E. replace hi with i by lia. now rewrite slice_nil.
  - destruct H as (H1 & H2 & H3 & H4).
    pose proof (blocksIn_end _ _ _ _ H4) as Hend.
    assert (Hfirst : interleave (blk :: rest)
                       (gaps s (fst blk + length (snd blk)) rest hi) =
                     blk :: interleave rest
                       (gaps s (fst blk + length (snd blk)) rest hi)).
    { apply interleave_first. intros y Hy.
      pose proof (gaps_start _ _ _ _ _ H4 Hy). lia. }
    simpl gaps. destruct (i <? fst blk) eqn:E.
    + apply Nat.ltb_lt in E.
      cbn [app]. destruct blk as [p c]. simpl fst in *. simpl snd in *.
      rewrite interleave_cons. simpl fst.
      assert (E' : (p <=? i) = false) by (apply Nat.leb_gt; exact E).
      rewrite E', Hfirst. simpl. rewrite (IH _ _ H4).
      rewrite (slice_app s i p hi) by lia.
      rewrite (slice_app s p (p + length c) hi) by lia.
      now rewrite H3.
    + apply Nat.ltb_ge in E. cbn [app]. rewrite Hfirst. simpl.
      rewrite (IH _ _ H4). replace i with (fst blk) by lia.
      rewrite (slice_app s (fst blk) (fst blk + length (snd blk)) hi) by lia.
      now rewrite H3.
Qed.

(** ** The pieces of the two sequences *)

Lemma delPiece_equal a c : isEqualTag (Tag c) = true -> delPiece a c = [].
Proof.
  unfold isEqualTag, delPiece, isTag. intros E.
  apply Ascii.eqb_eq in E. now rewrite E.
Qed.

Lemma addPiece_equal b c : isEqualTag (Tag c) = true -> addPiece b c = [].
Proof.
  unfold isEqualTag, addPiece, isTag. intros E.
  apply Ascii.eqb_eq in E. now rewrite E.
Qed.

Lemma delPiece_gap a i ai j bj :
  flat_map (delPiece a) (gapCodes i ai j bj) =
  if i <? ai then [(i, slice a i ai)] else [].
Proof. unfold gapCodes. destruct (i <? ai), (j <? bj); reflexivity. Qed.

Lemma addPiece_gap b i ai j bj :
  flat_map (addPiece b) (gapCodes i ai j bj) =
  if j <? bj then [(j, slice b j bj)] else [].
Proof. unfold gapCodes. destruct (i <? ai), (j <? bj); reflexivity. Qed.

Lemma delPiece_block a i j m :
  flat_map (delPiece a) (blockCodes i j m) =
  if i <? A m then [(i, slice a i (A m))] else [].
Proof.
  unfold blockCodes. rewrite flat_map_app, delPiece_gap.
  destruct (0 <? Size m); simpl; now rewrite app_nil_r.
Qed.

Lemma addPiece_block b i j m :
  flat_map (addPiece b) (blockCodes i j m) =
  if j <? B m then [(j, slice b j (B m))] else [].
Proof.
  unfold blockCodes. rewrite flat_map_app, addPiece_gap.
  destruct (0 <? Size m); simpl; now rewrite app_nil_r.
Qed.

Section Pieces.

Variables a b : list string.

Lemma chain_blocksIn_a ms : forall i j,
  chain a b i j ms (length a) (length b) ->
  blocksIn a i (map (aBlock a) ms) (length a).
Proof.
  induction ms as [|m ms IH]; intros i j H; simpl in *; [lia|].
  destruct H as (H1 & H2 & H3 & H4 & H5).
  pose proof (chain_end _ _ _ _ _ _ _ H5) as [E1 E2].
  rewrite slice_length by lia.
  replace (A m + Size m - A m) with (Size m) by lia.
  repeat split; try lia. now apply (IH _ (B m + Size m)).
Qed.

Lemma chain_blocksIn_b ms : forall i j,
  chain a b i j ms (length a) (length b) ->
  blocksIn b j (map (bBlock a) ms) (length b).
Proof.
  induction ms as [|m ms IH]; intros i j H; simpl in *; [lia|].
  destruct H as (H1 & H2 & H3 & H4 & H5).
  pose proof (chain_end _ _ _ _ _ _ _ H5) as [E1 E2].
  rewrite slice_length by lia.
  replace (A m + Size m - A m) with (Size m) by lia.
  repeat split; try lia; [now symmetry|]. now apply (IH (A m + Size m)).
Qed.

Lemma deletions_gaps ms : forall i j,
  chain a b i j ms (length a) (length b) ->
  flat_map (delPiece a)
    (codesFrom i j (ms ++ [mkMatch (length a) (length b) 0])) =
  gaps a i (map (aBlock a) ms) (length a).
Proof.
  induction ms as [|m ms IH]; intros i j H; simpl in H.
  - simpl. rewrite app_nil_r. apply delPiece_block.
  - destruct H as (H1 & H2 & H3 & H4 & H5).
    pose proof (chain_end _ _ _ _ _ _ _ H5) as [E1 E2].
    simpl. rewrite flat_map_app, delPiece_block, (IH _ _ H5).
    rewrite slice_length by lia.
    replace (A m + Size m - A m) with (Size m) by lia. reflexivity.
Qed.

Lemma additions_gaps ms : forall i j,
  chain a b i j ms (length a) (length b) ->
  flat_map (addPiece b)
    (codesFrom i j (ms ++ [mkMatch (length a) (length b) 0])) =
  gaps b j (map (bBlock a) ms) (length b).
Proof.
  induction ms as [|m ms IH]; intros i j H; simpl in H.
  - simpl. rewrite app_nil_r. apply addPiece_block.
  - destruct H as (H1 & H2 & H3 & H4 & H5).
    pose proof (chain_end _ _ _ _ _ _ _ H5) as [E1 E2].
    simpl. rewrite flat_map_app, addPiece_block, (IH _ _ H5).
    rewrite slice_length by lia.
    replace (A m + Size m - A m) with (Size m) by lia. reflexivity.
Qed.

Lemma blocksOf_chain : chain a b 0 0 (blocksOf a b) (length a) (length b).
Proof. unfold blocksOf. apply matchBlocks_chain; lia. Qed.

Lemma blocksOf_in_range :
  Forall (fun m => A m + Size m <= length a /\ B m + Size m <= length b)
    (blocksOf a b).
Proof. exact (chain_in_range a b _ _ _ _ _ blocksOf_chain). Qed.

Lemma removelast_blocks : removelast (GetMatchingBlocks a b) = blocksOf a b.
Proof. unfold GetMatchingBlocks. apply removelast_last. Qed.

Lemma matchPieces_blocks : matchPieces a b = map (aBlock a) (blocksOf a b).
Proof. unfold matchPieces. now rewrite removelast_blocks. Qed.

Lemma matchPiecesB_blocks : matchPiecesB a b = map (bBlock a) (blocksOf a b).
Proof. unfold matchPiecesB. now rewrite removelast_blocks. Qed.

Lemma deletionPieces_gaps :
  deletionPieces a b = gaps a 0 (matchPieces a b) (length a).
Proof.
  unfold deletionPieces.
  rewrite (GetGroupedOpCodes_flat _ (delPiece a) (delPiece_equal a)).
  rewrite GetOpCodes_codes, matchPieces_blocks.
  apply deletions_gaps, blocksOf_chain.
Qed.

Lemma additionPieces_gaps :
  additionPieces a b = gaps b 0 (matchPiecesB a b) (length b).
Proof.
  unfold additionPieces.
  rewrite (GetGroupedOpCodes_flat _ (addPiece b) (addPiece_equal b)).
  rewrite GetOpCodes_codes, matchPiecesB_blocks.
  apply additions_gaps, blocksOf_chain.
Qed.

Lemma flat_map_flat_map {X Y Z} (g : X -> list Y) (h : Y -> list Z) l :
  flat_map h (flat_map g l) = flat_map (fun x => flat_map h (g x)) l.
Proof.
  induction l as [|x l IH]; simpl; [reflexivity|].
  now rewrite flat_map_app, IH.
Qed.

Lemma GetMatches_tokens : GetMatches a b = tokens (matchPieces a b).
Proof.
  unfold GetMatches, tokens, matchPieces.
  induction (removelast (GetMatchingBlocks a b)) as [|m ms IH]; simpl;
    [reflexivity|]. now rewrite IH.
Qed.

Lemma GetMatches_tokensB : GetMatches a b = tokens (matchPiecesB a b).
Proof.
  unfold GetMatches, tokens, matchPiecesB.
  induction (removelast (GetMatchingBlocks a b)) as [|m ms IH]; simpl;
    [reflexivity|]. now rewrite IH.
Qed.

Lemma GetDeletions_tokens : GetDeletions a b = tokens (deletionPieces a b).
Proof.
  unfold GetDeletions, tokens, deletionPieces.
  rewrite flat_map_flat_map. apply flat_map_ext. intros group.
  rewrite flat_map_flat_map. apply flat_map_ext. intros c.
  destruct (isTag (Tag c) "r" || isTag (Tag c) "d"); simpl;
    now rewrite ?app_nil_r.
Qed.

Lemma GetAdditions_tokens : GetAdditions a b = tokens (additionPieces a b).
Proof.
  unfold GetAdditions, tokens, additionPieces.
  rewrite flat_map_flat_map. apply flat_map_ext. intros group.
  rewrite flat_map_flat_map. apply flat_map_ext. intros c.
  destruct (isTag (Tag c) "r" || isTag (Tag c) "i"); simpl;
    now rewrite ?app_nil_r.
Qed.

Lemma reconstruct_a :
  tokens (interleave (matchPieces a b) (deletionPieces a b)) = a.
Proof.
  rewrite deletionPieces_gaps, interleave_gaps.
  - apply slice_full.
  - rewrite matchPieces_blocks.
    apply (chain_blocksIn_a _ 0 0), blocksOf_chain.
Qed.

Lemma reconstruct_b :
  tokens (interleave (matchPiecesB a b) (additionPieces a b)) = b.
Proof.
  rewrite additionPieces_gaps, interleave_gaps.
  - apply slice_full.
  - rewrite matchPiecesB_blocks.
    apply (chain_blocksIn_b _ 0 0), blocksOf_chain.
Qed.

End Pieces.

(** C1: the reconstruction law.  For all sequences [a] and [b], the spans
    collected by [GetMatches] (the equal spans) and by [GetDeletions] (the
    [a]-side spans of the delete and replace opcodes), interleaved in the
    order of their start index in [a], give back [a]; the equal spans,
    placed at their start in [b], interleaved with the spans collected by
    [GetAdditions] (the [b]-side spans of the insert and replace opcodes),
    give back [b].  The first four equations say that the pieces are what
    the three functions return. *)
Theorem reconstruction_law (a b : list string) :
  GetMatches a b = tokens (matchPieces a b) /\
  GetMatches a b = tokens (matchPiecesB a b) /\
  GetDeletions a b = tokens (deletionPieces a b) /\
  GetAdditions a b = tokens (additionPieces a b) /\
  tokens (interleave (matchPieces a b) (deletionPieces a b)) = a /\
  tokens (interleave (matchPiecesB a b) (additionPieces a b)) = b.
Proof.
  repeat split.
  - apply GetMatches_tokens.
  - apply GetMatches_tokensB.
  - apply GetDeletions_tokens.
  - apply GetAdditions_tokens.
  - apply reconstruct_a.
  - apply reconstruct_b.
Qed.

(** ** Multisets of tokens *)

Lemma tokens_app p q : tokens (p ++ q) = tokens p ++ tokens q.
Proof. apply flat_map_app. Qed.

Lemma matches_deletions_perm a b :
  Permutation a (GetMatches a b ++ GetDeletions a b).
Proof.
  rewrite GetMatches_tokens, GetDeletions_tokens, <- tokens_app.
  rewrite <- (reconstruct_a a b) at 1.
  unfold tokens. apply Permutation_flat_map, interleave_perm.
Qed.

Lemma matches_additions_perm a b :
  Permutation b (GetMatches a b ++ GetAdditions a b).
Proof.
  rewrite GetMatches_tokensB, GetAdditions_tokens, <- tokens_app.
  rewrite <- (reconstruct_b a b) at 1.
  unfold tokens. apply Permutation_flat_map, interleave_perm.
Qed.

Lemma GetMatches_both a b x : In x (GetMatches a b) -> In x a /\ In x b.
Proof.
  intros H. split.
  - apply (Permutation_in x (Permutation_sym (matches_deletions_perm a b))).
    apply in_or_app. now left.
  - apply (Permutation_in x (Permutation_sym (matches_additions_perm a b))).
    apply in_or_app. now left.
Qed.

(** ** Listings in a common strict order *)

Lemma slice_eq_nth (a b : list string) p q k t :
  slice a p (p + k) = slice b q (q + k) -> t < k ->
  nth (p + t) a "" = nth (q + t) b "".
Proof.
  intros E Ht.
  assert (Ha : forall s r, nth t (slice s r (r + k)) "" = nth (r + t) s "").
  { intros s r. unfold slice. rewrite nth_firstn.
    replace (r + k - r) with k by lia.
    assert (Hlt : (t <? k) = true) by now apply Nat.ltb_lt.
    rewrite Hlt. apply nth_skipn. }
  rewrite <- (Ha a p), <- (Ha b q), E. reflexivity.
Qed.

Section Sorted.

Variable R : string -> string -> Prop.
Context {R_strict : StrictOrder R}.

Lemma sorted_nth l : StronglySorted R l ->
  forall i j, i < j -> j < length l -> R (nth i l "") (nth j l "").
Proof.
  induction 1 as [|x l Hs IH Hx]; intros i j Hij Hj; simpl in Hj; [lia|].
  destruct j as [|j]; [lia|]. destruct i as [|i]; simpl.
  - rewrite Forall_forall in Hx. apply Hx, nth_In. lia.
  - apply IH; lia.
Qed.

Lemma sorted_NoDup l : StronglySorted R l -> NoDup l.
Proof.
  induction 1 as [|x l Hs IH Hx]; constructor; [|assumption].
  intros Hin. rewrite Forall_forall in Hx.
  apply (irreflexivity (R:=R) (Hx x Hin)).
Qed.

(** Equal tokens of two sorted listings stand in the same order. *)
Lemma sorted_align a b i i' j j' :
  StronglySorted R a -> StronglySorted R b ->
  i' < length a -> j < length b -> j' < length b ->
  nth i a "" = nth j b "" -> nth i' a "" = nth j' b "" ->
  i < i' -> j < j'.
Proof.
  intros Sa Sb Hi' Hj Hj' E E' Hlt.
  pose proof (sorted_nth a Sa i i' Hlt Hi') as H. rewrite E, E' in H.
  destruct (Nat.lt_trichotomy j j') as [L|[L|L]]; [assumption| |].
  - subst j'. exfalso. apply (irreflexivity (R:=R) H).
  - exfalso. pose proof (sorted_nth b Sb j' j L Hj) as H'.
    apply (irreflexivity (R:=R) (transitivity H H')).
Qed.

Variables a b : list string.
Hypothesis a_sorted : StronglySorted R a.
Hypothesis b_sorted : StronglySorted R b.

Lemma matchBlocks_covers fuel : forall alo ahi blo bhi i j,
  alo <= ahi -> ahi <= length a -> blo <= bhi -> bhi <= length b ->
  ahi - alo < fuel ->
  alo <= i -> i < ahi -> blo <= j -> j < bhi ->
  nth i a "" = nth j b "" ->
  exists m, In m (matchBlocks fuel a b alo ahi blo bhi []) /\
            A m <= i /\ i < A m + Size m /\ A m + Size m <= length a.
Proof.
  induction fuel as [|fuel IH];
    intros alo ahi blo bhi i j Ha Ha' Hb Hb' Hf Hi Hi' Hj Hj' E; [lia|].
  rewrite matchBlocks_unfold.
  pose proof (findLongestMatch_good a b alo ahi blo bhi Ha Hb) as G.
  pose proof (findLongestMatch_common a b alo ahi blo bhi i j
                Hi Hi' Ha' Hj Hj' Hb' E) as Hk.
  set (m := findLongestMatch a b alo ahi blo bhi) in *.
  destruct G as (G1 & G2 & G3 & G4 & G5). cbv zeta.
  assert (Ek : (0 <? Size m) = true) by now apply Nat.ltb_lt.
  rewrite Ek.
  assert (Hnth : forall t, t < Size m ->
                   nth (A m + t) a "" = nth (B m + t) b "").
  { intros t Ht. now apply (slice_eq_nth a b (A m) (B m) (Size m) t). }
  destruct (Nat.lt_ge_cases i (A m)) as [L|L].
  - (* before the block *)
    assert (Lj : j < B m).
    { apply (sorted_align a b i (A m) j (B m)); try assumption; try lia.
      specialize (Hnth 0 Hk). now rewrite !Nat.add_0_r in Hnth. }
    assert (Ec : ((alo <? A m) && (blo <? B m)) = true).
    { apply andb_true_intro. split; apply Nat.ltb_lt; lia. }
    rewrite Ec.
    destruct (IH alo (A m) blo (B m) i j) as (m' & Hin & Hm');
      try assumption; try lia.
    exists m'. split; [|assumption]. apply in_or_app. now left.
  - destruct (Nat.lt_ge_cases i (A m + Size m)) as [L'|L'].
    + (* inside the block *)
      exists m. split; [|lia]. apply in_or_app. right. now left.
    + (* after the block *)
      assert (Lj : B m + (Size m - 1) < j).
      { apply (sorted_align a b (A m + (Size m - 1)) i (B m + (Size m - 1)) j);
          try assumption; try lia.
        apply Hnth. lia. }
      assert (Ec : ((A m + Size m <? ahi) && (B m + Size m <? bhi)) = true).
      { apply andb_true_intro. split; apply Nat.ltb_lt; lia. }
      rewrite Ec.
      destruct (IH (A m + Size m) ahi (B m + Size m) bhi i j)
        as (m' & Hin & Hm'); try assumption; try lia.
      exists m'. split; [|assumption].
      apply in_or_app. right. right. assumption.
Qed.

(** Every token of both listings is matched. *)
Lemma GetMatches_complete x : In x a -> In x b -> In x (GetMatches a b).
Proof.
  intros Hxa Hxb.
  destruct (In_nth a x "" Hxa) as (i & Hi & Ei).
  destruct (In_nth b x "" Hxb) as (j & Hj & Ej).
  destruct (matchBlocks_covers (S (length a)) 0 (length a) 0 (length b) i j)
    as (m & Hin & H1 & H2 & H3); try lia; try congruence.
  unfold GetMatches. rewrite removelast_blocks. apply in_flat_map.
  exists m. split; [exact Hin|].
  rewrite <- Ei. apply nth_In_slice; lia.
Qed.

Lemma GetMatches_set x : In x (GetMatches a b) <-> In x a /\ In x b.
Proof.
  split; [apply GetMatches_both|]. intros [H1 H2]. now apply GetMatches_complete.
Qed.

Lemma GetDeletions_set x : In x (GetDeletions a b) <-> In x a /\ ~ In x b.
Proof.
  pose proof (matches_deletions_perm a b) as P.
  pose proof (Permutation_NoDup P (sorted_NoDup a a_sorted)) as ND.
  split.
  - intros Hd. split.
    + apply (Permutation_in x (Permutation_sym P)), in_or_app. now right.
    + intros Hb.
      assert (Ha : In x a).
      { apply (Permutation_in x (Permutation_sym P)), in_or_app. now right. }
      pose proof (GetMatches_complete x Ha Hb) as Hm.
      apply in_split in Hd. destruct Hd as (l1 & l2 & Hd).
      rewrite Hd, app_assoc in ND. apply NoDup_remove_2 in ND.
      apply ND. rewrite <- app_assoc. apply in_or_app. now left.
  - intros [Ha Hb]. apply (Permutation_in x P) in Ha.
    apply in_app_or in Ha. destruct Ha as [Hm|Hd]; [|assumption].
    apply GetMatches_both in Hm. tauto.
Qed.

Lemma GetAdditions_set x : In x (GetAdditions a b) <-> In x b /\ ~ In x a.
Proof.
  pose proof (matches_additions_perm a b) as P.
  pose proof (Permutation_NoDup P (sorted_NoDup b b_sorted)) as ND.
  split.
  - intros Hd. split.
    + apply (Permutation_in x (Permutation_sym P)), in_or_app. now right.
    + intros Ha.
      assert (Hb : In x b).
      { apply (Permutation_in x (Permutation_sym P)), in_or_app. now right. }
      pose proof (GetMatches_complete x Ha Hb) as Hm.
      apply in_split in Hd. destruct Hd as (l1 & l2 & Hd).
      rewrite Hd, app_assoc in ND. apply NoDup_remove_2 in ND.
      apply ND. rewrite <- app_assoc. apply in_or_app. now left.
  - intros [Hb Ha]. apply (Permutation_in x P) in Hb.
    apply in_app_or in Hb. destruct Hb as [Hm|Hd]; [|assumption].
    apply GetMatches_both in Hm. tauto.
Qed.

End Sorted.


(** ** Sorting *)

Lemma insertSorted_In x y l : In y (insertSorted x l) <-> y = x \/ In y l.
Proof.
  induction l as [|z l IH]; simpl.
  - intuition.
  - destruct (String.leb x z); simpl; [intuition|]. rewrite IH. intuition.
Qed.

Lemma sortStrings_In x l : In x (sortStrings l) <-> In x l.
Proof.
  induction l as [|y l IH]; simpl; [reflexivity|].
  rewrite insertSorted_In, IH. intuition.
Qed.

Lemma insertSorted_length x l : length (insertSorted x l) = S (length l).
Proof.
  induction l as [|z l IH]; simpl; [reflexivity|].
  destruct (String.leb x z); simpl; [reflexivity|]. now rewrite IH.
Qed.

Lemma sortStrings_length l : length (sortStrings l) = length l.
Proof.
  induction l as [|y l IH]; simpl; [reflexivity|].
  now rewrite insertSorted_length, IH.
Qed.

(** ** Materializing entries *)

Lemma CreateDirectoryEntries_names os root names : forall entries,
  CreateDirectoryEntries os root names = Ret entries ->
  map deName entries = names.
Proof.
  induction names as [|name rest IH]; intros entries H; simpl in H.
  - injection H as <-. reflexivity.
  - destruct (GetSize os (Join os root name)) as [size|]; [|discriminate].
    simpl in H.
    destruct (CreateDirectoryEntries os root rest) as [es|]; [|discriminate].
    simpl in H. injection H as <-. simpl. now rewrite (IH es).
Qed.

Lemma CreateDirectoryEntries_In os root names name size : forall entries,
  CreateDirectoryEntries os root names = Ret entries ->
  In name names -> GetSize os (Join os root name) = Ret size ->
  In (mkDirectoryEntry name size) entries.
Proof.
  induction names as [|n rest IH]; intros entries H Hin Hs; simpl in H;
    [contradiction|].
  destruct (GetSize os (Join os root n)) as [sz|] eqn:E; [|discriminate].
  simpl in H.
  destruct (CreateDirectoryEntries os root rest) as [es|]; [|discriminate].
  simpl in H. injection H as <-.
  destruct Hin as [->|Hin].
  - left. congruence.
  - right. now apply IH.
Qed.

Lemma createEntryDiffs_names os root1 root2 names : forall entries,
  createEntryDiffs os root1 root2 names = Ret entries ->
  map edName entries = names.
Proof.
  induction names as [|name rest IH]; intros entries H; simpl in H.
  - injection H as <-. reflexivity.
  - destruct (GetSize os (Join os root1 name)) as [size1|]; [|discriminate].
    simpl in H.
    destruct (GetSize os (Join os root2 name)) as [size2|]; [|discriminate].
    simpl in H.
    destruct (createEntryDiffs os root1 root2 rest) as [es|]; [|discriminate].
    simpl in H. injection H as <-. simpl. now rewrite (IH es).
Qed.

Lemma CreateDirectoryMetaEntries_names os root names : forall entries,
  CreateDirectoryMetaEntries os root names = (entries, None) ->
  map dmName entries = names.
Proof.
  induction names as [|name rest IH]; intros entries H; simpl in H.
  - injection H as <-. reflexivity.
  - destruct (Lstat os (Join os root name)) as [st|e]; [|discriminate].
    destruct (CreateDirectoryMetaEntries os root rest) as [es [e|]];
      [discriminate|].
    injection H as <-. simpl. now rewrite (IH es).
Qed.

Lemma CreateDirectoryMetaEntries_fails os root names name e :
  In name names -> Lstat os (Join os root name) = Err e ->
  exists e', CreateDirectoryMetaEntries os root names = ([], Some e').
Proof.
  induction names as [|n rest IH]; intros Hin He; [contradiction|]. simpl.
  destruct (Lstat os (Join os root n)) as [st|e0] eqn:E; [|now exists e0].
  destruct Hin as [->|Hin]; [congruence|].
  destruct (IH Hin He) as [e' ->]. now exists e'.
Qed.

Lemma createMetaEntryDiffs_names os root1 root2 names : forall entries,
  createMetaEntryDiffs os root1 root2 names = (entries, None) ->
  map mdName entries = names.
Proof.
  induction names as [|name rest IH]; intros entries H; simpl in H.
  - injection H as <-. reflexivity.
  - destruct (Lstat os (Join os root1 name)) as [st1|e]; [|discriminate].
    destruct (Lstat os (Join os root2 name)) as [st2|e]; [|discriminate].
    destruct (createMetaEntryDiffs os root1 root2 rest) as [es [e|]];
      [discriminate|].
    injection H as <-. simpl. now rewrite (IH es).
Qed.

Lemma isEmpty_nil {T} (l : list T) : isEmpty l = true <-> l = [].
Proof.
  unfold isEmpty. destruct l; simpl; split; intros H; try reflexivity;
    discriminate.
Qed.

Lemma map_nil_iff {X Y} (f : X -> Y) l : map f l = [] <-> l = [].
Proof. destruct l; simpl; split; intros H; try reflexivity; discriminate. Qed.

(** ** DiffDirectory *)

Lemma DiffDirectory_inv os d1 d2 diff same :
  DiffDirectory os d1 d2 = Ret (diff, same) ->
  map deName (Adds diff) = sortStrings (GetAddedEntries d1 d2) /\
  map deName (Dels diff) = sortStrings (GetDeletedEntries d1 d2) /\
  map edName (Mods diff) = sortStrings (GetModifiedEntries os d1 d2) /\
  CreateDirectoryEntries os (Root d2) (sortStrings (GetAddedEntries d1 d2))
    = Ret (Adds diff) /\
  CreateDirectoryEntries os (Root d1) (sortStrings (GetDeletedEntries d1 d2))
    = Ret (Dels diff) /\
  same = isEmpty (sortStrings (GetAddedEntries d1 d2))
         && isEmpty (sortStrings (GetDeletedEntries d1 d2))
         && isEmpty (sortStrings (GetModifiedEntries os d1 d2)).
Proof.
  unfold DiffDirectory. intros H.
  destruct (CreateDirectoryEntries os (Root d2) _) as [adds|] eqn:Ea;
    [|discriminate]. simpl in H.
  destruct (CreateDirectoryEntries os (Root d1) _) as [dels|] eqn:Ed;
    [|discriminate]. simpl in H.
  destruct (createEntryDiffs os (Root d1) (Root d2) _) as [mods|] eqn:Em;
    [|discriminate]. simpl in H.
  injection H as <- <-. simpl.
  repeat split; try reflexivity.
  - now apply CreateDirectoryEntries_names in Ea.
  - now apply CreateDirectoryEntries_names in Ed.
  - now apply createEntryDiffs_names in Em.
Qed.

Lemma DiffDirectoryMetadata_inv os d1 d2 diff same :
  DiffDirectoryMetadata os d1 d2 = (diff, same, None) ->
  map dmName (MetaAdds diff) = sortStrings (GetAddedEntries d1 d2) /\
  map dmName (MetaDels diff) = sortStrings (GetDeletedEntries d1 d2) /\
  map mdName (MetaMods diff) = sortStrings (GetModifiedMetaEntries os d1 d2) /\
  same = isEmpty (sortStrings (GetAddedEntries d1 d2))
         && isEmpty (sortStrings (GetDeletedEntries d1 d2))
         && isEmpty (sortStrings (GetModifiedMetaEntries os d1 d2)).
Proof.
  unfold DiffDirectoryMetadata. intros H.
  destruct (CreateDirectoryMetaEntries os (Root d2) _) as [adds [e|]] eqn:Ea;
    [discriminate|].
  destruct (CreateDirectoryMetaEntries os (Root d1) _) as [dels [e|]] eqn:Ed;
    [discriminate|].
  destruct (createMetaEntryDiffs os (Root d1) (Root d2) _) as [mods [e|]] eqn:Em;
    [discriminate|].
  injection H as <- <-. simpl.
  repeat split; try reflexivity.
  - now apply CreateDirectoryMetaEntries_names in Ea.
  - now apply CreateDirectoryMetaEntries_names in Ed.
  - now apply createMetaEntryDiffs_names in Em.
Qed.

Lemma DiffDirectoryMetadata_error os d1 d2 diff same e :
  DiffDirectoryMetadata os d1 d2 = (diff, same, Some e) ->
  diff = emptyMetaDirDiff /\ same = false.
Proof.
  unfold DiffDirectoryMetadata. intros H.
  destruct (CreateDirectoryMetaEntries os (Root d2) _) as [adds [e1|]];
    [injection H as <- <- _; now split|].
  destruct (CreateDirectoryMetaEntries os (Root d1) _) as [dels [e2|]];
    [injection H as <- <- _; now split|].
  destruct (createMetaEntryDiffs os (Root d1) (Root d2) _) as [mods [e3|]];
    [injection H as <- <- _; now split|].
  discriminate.
Qed.

(** ** Walking a tree *)

Lemma wnode_induction (P : wnode -> Prop) :
  (forall st rdErr children,
      Forall (fun nc => P (snd nc)) children -> P (WNode st rdErr children)) ->
  forall n, P n.
Proof.
  intros H. fix IH 1. intros [st rdErr children]. apply H.
  induction children as [|[name c] cs IHcs]; constructor; [apply IH|apply IHcs].
Qed.

Lemma walkNames_quiet {S : Type}
  (visit : string -> wnode -> S -> outcome (S * option error)) cs :
  Forall (fun nc => forall s, exists s', visit (fst nc) (snd nc) s = Ret (s', None)) cs ->
  forall s, exists s', walkNames visit cs s = Ret (s', None).
Proof.
  induction 1 as [|[name c] cs Hc _ IH]; intros s; simpl.
  - now exists s.
  - destruct (Hc s) as [s1 E]. simpl in E. rewrite E. simpl. apply IH.
Qed.

Lemma walk_quiet {S : Type} (join : string -> string -> string)
  (fn : WalkFunc S) :
  quiet fn ->
  forall n path info s, exists s', walk join path info n fn s = Ret (s', None).
Proof.
  intros Q. induction n as [st rdErr children IH] using wnode_induction.
  intros path info s. simpl.
  destruct (negb (IsDir info)); [apply Q|].
  destruct (Q path (Some info) rdErr s) as [s1 ->]. simpl.
  destruct rdErr as [e|]; [now exists s1|].
  apply walkNames_quiet.
  eapply Forall_impl; [|exact IH]. clear IH.
  intros [name c] Hc s2. simpl in *.
  destruct c as [[fileInfo|e] rd cs'].
  - destruct (Hc (join path name) fileInfo s2) as [s3 E3].
    rewrite E3. simpl. now exists s3.
  - destruct (Q (join path name) None (Some e) s2) as [s3 ->]. simpl.
    now exists s3.
Qed.

Lemma Walk_quiet {S : Type} os root (fn : WalkFunc S) s :
  quiet fn -> exists s', Walk os root fn s = Ret (s', None).
Proof.
  intros Q. unfold Walk. destruct (Lstat os root) as [info|e].
  - destruct (walk_quiet (Join os) fn Q (Tree os root) root info s) as [s' ->].
    now exists s'.
  - destruct (Q root None (Some e) s) as [s' ->]. now exists s'.
Qed.

Lemma contentWalkFn_quiet root : quiet (contentWalkFn root).
Proof. intros path info err s. unfold contentWalkFn. eauto. Qed.

(** The deep listing never reports a failure of the walk. *)
Lemma GetDirectory_deep_no_error os path :
  exists content, GetDirectory os path true = Ret (mkDirectory path content, None).
Proof.
  unfold GetDirectory.
  destruct (Walk_quiet os path (contentWalkFn path) [] (contentWalkFn_quiet path))
    as [content ->].
  now exists content.
Qed.

(** The shallow listing does. *)
Lemma GetDirectory_shallow_error os path e :
  ReadDir os path = Err e ->
  GetDirectory os path false = Ret (mkDirectory path [], Some e).
Proof. intros H. unfold GetDirectory. now rewrite H. Qed.

(** ** Modified entries *)

Lemma GetModifiedEntries_In os d1 d2 f :
  In f (GetModifiedEntries os d1 d2) <->
  In f (GetMatches (Content d1) (Content d2)) /\ contentModified os d1 d2 f = true.
Proof. unfold GetModifiedEntries. apply filter_In. Qed.

Lemma GetModifiedMetaEntries_In os d1 d2 f :
  In f (GetModifiedMetaEntries os d1 d2) <->
  In f (GetMatches (Content d1) (Content d2)) /\ metaModified os d1 d2 f = true.
Proof. unfold GetModifiedMetaEntries. apply filter_In. Qed.

Lemma Mods_names os d1 d2 diff same f :
  DiffDirectory os d1 d2 = Ret (diff, same) ->
  (In f (map edName (Mods diff)) <-> In f (GetModifiedEntries os d1 d2)).
Proof.
  intros H. apply DiffDirectory_inv in H. destruct H as (_ & _ & -> & _).
  apply sortStrings_In.
Qed.

Lemma MetaMods_names os d1 d2 f :
  In f (map mdName (MetaMods (fst (fst (DiffDirectoryMetadata os d1 d2))))) ->
  In f (GetModifiedMetaEntries os d1 d2).
Proof.
  destruct (DiffDirectoryMetadata os d1 d2) as [[diff same] [e|]] eqn:E; simpl.
  - apply DiffDirectoryMetadata_error in E. destruct E as [-> _]. simpl. tauto.
  - apply DiffDirectoryMetadata_inv in E. destruct E as (_ & _ & -> & _).
    apply sortStrings_In.
Qed.




(** C3: symlink against metadata.  A matched entry that is a symlink in
    both trees, with the same mode, uid and gid and with different link
    targets, is in the modified entries of the content diff
    ([GetModifiedEntries], and [Mods] of [DiffDirectory]) and is not in those
    of the metadata diff ([GetModifiedMetaEntries], and [MetaMods] of
    [DiffDirectoryMetadata]). *)
Theorem symlink_target_change_content_not_meta (os : OS) (d1 d2 : Directory)
  (f : string) (f1stat f2stat : FileInfo) (link1 link2 : string) :
  In f (GetMatches (Content d1) (Content d2)) ->
  Lstat os (String.append (Root d1) f) = Ok f1stat ->
  Lstat os (String.append (Root d2) f) = Ok f2stat ->
  isSymlink f1stat = true -> isSymlink f2stat = true ->
  fiMode f1stat = fiMode f2stat ->
  fiUid f1stat = fiUid f2stat -> fiGid f1stat = fiGid f2stat ->
  Readlink os (String.append (Root d1) f) = Ok link1 ->
  Readlink os (String.append (Root d2) f) = Ok link2 ->
  link1 <> link2 ->
  In f (GetModifiedEntries os d1 d2) /\
  ~ In f (GetModifiedMetaEntries os d1 d2) /\
  (forall diff same, DiffDirectory os d1 d2 = Ret (diff, same) ->
     In f (map edName (Mods diff))) /\
  ~ In f (map mdName (MetaMods (fst (fst (DiffDirectoryMetadata os d1 d2))))).
Proof.
  intros Hm H1 H2 S1 S2 Em Eu Eg R1 R2 Hne.
  assert (Hc : In f (GetModifiedEntries os d1 d2)).
  { apply GetModifiedEntries_In. split; [assumption|].
    unfold contentModified, CheckSameSymlink.
    rewrite H1, H2, S1, S2, R1, R2. simpl.
    apply negb_true_iff, String.eqb_neq. assumption. }
  assert (Hn : ~ In f (GetModifiedMetaEntries os d1 d2)).
  { rewrite GetModifiedMetaEntries_In. intros [_ Hmeta].
    unfold metaModified in Hmeta. rewrite H1, H2, Em, Eu, Eg in Hmeta.
    rewrite !N.eqb_refl in Hmeta. discriminate. }
  repeat split; try assumption.
  - intros diff same Hd. now apply (Mods_names os d1 d2 diff same f Hd).
  - intros Hin. apply Hn. now apply MetaMods_names.
Qed.

(** [/link] points to [/a] in the first tree and to [/b] in the second. *)
Lemma symlink_target_change_content_not_meta_witness :
  DiffDirectory exampleOS (dT1 ["/link"]) (dT2 ["/link"]) =
    Ret (mkDirDiff [] [] [mkEntryDiff "/link" 2 2], false) /\
  DiffDirectoryMetadata exampleOS (dT1 ["/link"]) (dT2 ["/link"]) =
    (emptyMetaDirDiff, true, None) /\
  In "/link" (GetModifiedEntries exampleOS (dT1 ["/link"]) (dT2 ["/link"])) /\
  ~ In "/link" (GetModifiedMetaEntries exampleOS (dT1 ["/link"]) (dT2 ["/link"])).
Proof.
  split; [reflexivity|]. split; [reflexivity|].
  destruct (symlink_target_change_content_not_meta exampleOS
              (dT1 ["/link"]) (dT2 ["/link"]) "/link"
              (symlink 2) (symlink 2) "/a" "/b") as (H1 & H2 & _);
    try reflexivity.
  - vm_compute. now left.
  - discriminate.
  - split; assumption.
Defined.

(** C10: the link-target rule needs a symlink on both sides.  When the two
    sides of a matched candidate are not both symlinks, so in particular
    when exactly one is, [GetModifiedEntries] classifies it by the rules
    that follow ([laterRules]: the sizes of a tar, else size and bytes of a
    non-directory), and the link targets play no part: with any other
    [Readlink] the verdict is the same. *)
Theorem symlink_rule_needs_both_sides (os : OS) (d1 d2 : Directory)
  (f : string) (f1stat f2stat : FileInfo) :
  In f (GetMatches (Content d1) (Content d2)) ->
  Lstat os (String.append (Root d1) f) = Ok f1stat ->
  Lstat os (String.append (Root d2) f) = Ok f2stat ->
  isSymlink f1stat && isSymlink f2stat = false ->
  (In f (GetModifiedEntries os d1 d2) <->
   laterRules os (String.append (Root d1) f) (String.append (Root d2) f)
     f1stat f2stat = true) /\
  (forall rl, In f (GetModifiedEntries (withReadlink os rl) d1 d2) <->
              In f (GetModifiedEntries os d1 d2)).
Proof.
  intros Hm H1 H2 Hs.
  assert (Hc : forall os', Lstat os' = Lstat os -> IsTar os' = IsTar os ->
                 ReadFile os' = ReadFile os ->
                 contentModified os' d1 d2 f =
                 laterRules os (String.append (Root d1) f)
                   (String.append (Root d2) f) f1stat f2stat).
  { intros os' EL ET ER. unfold contentModified, laterRules, CheckSameFile.
    rewrite EL, ET, ER, H1, H2, Hs. reflexivity. }
  split.
  - rewrite GetModifiedEntries_In, (Hc os); try reflexivity. tauto.
  - intros rl. rewrite !GetModifiedEntries_In.
    rewrite (Hc os), (Hc (withReadlink os rl)); try reflexivity.
Qed.

(** [/x] is a symlink in the first tree and a regular file in the second. *)
Lemma symlink_rule_needs_both_sides_witness :
  isSymlink (symlink 2) = true /\ isSymlink (regular 2) = false /\
  In "/x" (GetModifiedEntries exampleOS (dT1 ["/x"]) (dT2 ["/x"])) /\
  In "/x" (GetModifiedEntries (withReadlink exampleOS (fun _ => Err ENOENT))
             (dT1 ["/x"]) (dT2 ["/x"])).
Proof.
  split; [reflexivity|]. split; [reflexivity|].
  destruct (symlink_rule_needs_both_sides exampleOS (dT1 ["/x"]) (dT2 ["/x"])
              "/x" (symlink 2) (regular 2)) as [H1 H2]; try reflexivity.
  - vm_compute. now left.
  - assert (H : In "/x" (GetModifiedEntries exampleOS (dT1 ["/x"]) (dT2 ["/x"])))
      by (apply H1; reflexivity).
    split; [exact H|]. apply H2. exact H.
Defined.

(** ** Materialization failures *)

Lemma GetSize_stat_error os path e : Lstat os path = Err e -> GetSize os path = Ret (-1)%Z.
Proof. intros H. unfold GetSize. now rewrite H. Qed.

Lemma GetSize_returns os path : sizesReturn os -> exists size, GetSize os path = Ret size.
Proof.
  intros Hs. unfold GetSize. destruct (Lstat os path) as [stat|e] eqn:E; [|eauto].
  destruct (IsDir stat) eqn:D; [|eauto].
  destruct (Hs path stat E D) as [r ->]. simpl. eauto.
Qed.

Lemma CreateDirectoryEntries_returns os root names :
  sizesReturn os -> exists entries, CreateDirectoryEntries os root names = Ret entries.
Proof.
  intros Hs. induction names as [|name rest [es IH]]; simpl; [eauto|].
  destruct (GetSize_returns os (Join os root name) Hs) as [size ->]. simpl.
  rewrite IH. simpl. eauto.
Qed.

Lemma createEntryDiffs_returns os root1 root2 names :
  sizesReturn os -> exists entries, createEntryDiffs os root1 root2 names = Ret entries.
Proof.
  intros Hs. induction names as [|name rest [es IH]]; simpl; [eauto|].
  destruct (GetSize_returns os (Join os root1 name) Hs) as [size1 ->]. simpl.
  destruct (GetSize_returns os (Join os root2 name) Hs) as [size2 ->]. simpl.
  rewrite IH. simpl. eauto.
Qed.

Lemma DiffDirectory_returns os d1 d2 :
  sizesReturn os -> exists diff same, DiffDirectory os d1 d2 = Ret (diff, same).
Proof.
  intros Hs. unfold DiffDirectory.
  destruct (CreateDirectoryEntries_returns os (Root d2)
              (sortStrings (GetAddedEntries d1 d2)) Hs) as [adds ->].
  destruct (CreateDirectoryEntries_returns os (Root d1)
              (sortStrings (GetDeletedEntries d1 d2)) Hs) as [dels ->].
  destruct (createEntryDiffs_returns os (Root d1) (Root d2)
              (sortStrings (GetModifiedEntries os d1 d2)) Hs) as [mods ->].
  simpl. eauto.
Qed.

Lemma DiffDirectoryMetadata_adds_fail os d1 d2 name e :
  In name (GetAddedEntries d1 d2) ->
  Lstat os (Join os (Root d2) name) = Err e ->
  exists e', DiffDirectoryMetadata os d1 d2 = (emptyMetaDirDiff, false, Some e').
Proof.
  intros Hin He. apply sortStrings_In in Hin.
  destruct (CreateDirectoryMetaEntries_fails os (Root d2) _ name e Hin He)
    as [e' E].
  unfold DiffDirectoryMetadata. rewrite E. eauto.
Qed.

Lemma DiffDirectoryMetadata_dels_fail os d1 d2 name e :
  In name (GetDeletedEntries d1 d2) ->
  Lstat os (Join os (Root d1) name) = Err e ->
  exists e', DiffDirectoryMetadata os d1 d2 = (emptyMetaDirDiff, false, Some e').
Proof.
  intros Hin He. apply sortStrings_In in Hin.
  destruct (CreateDirectoryMetaEntries_fails os (Root d1) _ name e Hin He)
    as [e' E].
  unfold DiffDirectoryMetadata.
  destruct (CreateDirectoryMetaEntries os (Root d2) _) as [adds [e2|]]; [eauto|].
  rewrite E. eauto.
Qed.

(** C6: materialization failures.  When the stat of an added or deleted
    entry fails, [DiffDirectoryMetadata] fails as a whole: it returns an
    error, the zero [MetaDirDiff] and [same = false].  [DiffDirectory] has no
    error to return: every diff it returns keeps the entry with size [-1],
    and it does return one whenever sizing a directory does not panic. *)
Theorem materialization_failure_hard_meta_soft_content (os : OS)
  (d1 d2 : Directory) (name : string) (e : error) :
  (In name (GetAddedEntries d1 d2) /\ Lstat os (Join os (Root d2) name) = Err e
   \/ In name (GetDeletedEntries d1 d2) /\ Lstat os (Join os (Root d1) name) = Err e) ->
  (exists e', DiffDirectoryMetadata os d1 d2 = (emptyMetaDirDiff, false, Some e')) /\
  (forall diff same, DiffDirectory os d1 d2 = Ret (diff, same) ->
     (In name (GetAddedEntries d1 d2) ->
      Lstat os (Join os (Root d2) name) = Err e ->
      In (mkDirectoryEntry name (-1)) (Adds diff)) /\
     (In name (GetDeletedEntries d1 d2) ->
      Lstat os (Join os (Root d1) name) = Err e ->
      In (mkDirectoryEntry name (-1)) (Dels diff))) /\
  (sizesReturn os -> exists diff same, DiffDirectory os d1 d2 = Ret (diff, same)).
Proof.
  intros H. split; [|split].
  - destruct H as [[Hin He]|[Hin He]].
    + now apply (DiffDirectoryMetadata_adds_fail os d1 d2 name e).
    + now apply (DiffDirectoryMetadata_dels_fail os d1 d2 name e).
  - intros diff same Hd. apply DiffDirectory_inv in Hd.
    destruct Hd as (_ & _ & _ & Ha & Hdel & _). split; intros Hin He.
    + apply (CreateDirectoryEntries_In os (Root d2) _ name (-1)%Z _ Ha).
      * now apply sortStrings_In.
      * now apply (GetSize_stat_error os _ e).
    + apply (CreateDirectoryEntries_In os (Root d1) _ name (-1)%Z _ Hdel).
      * now apply sortStrings_In.
      * now apply (GetSize_stat_error os _ e).
  - apply DiffDirectory_returns.
Qed.

(** In the example system every directory that can be stat'ed can be sized. *)
Lemma exampleOS_sizesReturn : sizesReturn exampleOS.
Proof.
  intros path stat H D. unfold exampleOS, Lstat, fromTable in H.
  cbn [lookup] in H.
  repeat match type of H with
         | context [String.eqb ?k path] =>
             destruct (String.eqb k path) eqn:E;
             [apply String.eqb_eq in E; subst path;
              first [ injection H as <-; discriminate D
                    | eexists; vm_compute; reflexivity ]
             |clear E]
         end.
  discriminate H.
Qed.

(** [/gone] is listed in the second tree and cannot be stat'ed. *)
Lemma materialization_failure_hard_meta_soft_content_witness :
  In "/gone" (GetAddedEntries (dT1 []) (dT2 ["/gone"])) /\
  Lstat exampleOS (Join exampleOS "/t2" "/gone") = Err ENOENT /\
  DiffDirectory exampleOS (dT1 []) (dT2 ["/gone"]) =
    Ret (mkDirDiff [mkDirectoryEntry "/gone" (-1)] [] [], false) /\
  (exists e', DiffDirectoryMetadata exampleOS (dT1 []) (dT2 ["/gone"]) =
                (emptyMetaDirDiff, false, Some e')) /\
  (exists diff same,
     DiffDirectory exampleOS (dT1 []) (dT2 ["/gone"]) = Ret (diff, same)).
Proof.
  assert (Hin : In "/gone" (GetAddedEntries (dT1 []) (dT2 ["/gone"])))
    by (vm_compute; now left).
  assert (He : Lstat exampleOS (Join exampleOS (Root (dT2 ["/gone"])) "/gone")
               = Err ENOENT) by reflexivity.
  destruct (materialization_failure_hard_meta_soft_content exampleOS
              (dT1 []) (dT2 ["/gone"]) "/gone" ENOENT
              (or_introl (conj Hin He))) as (Hmeta & _ & Hret).
  split; [exact Hin|]. split; [exact He|]. split; [reflexivity|].
  split; [exact Hmeta|]. exact (Hret exampleOS_sizesReturn).
Defined.

(** C7: [same] and the three sequences.  For all snapshots, a diff that
    [DiffDirectory] returns, and a diff that [DiffDirectoryMetadata] returns
    without an error, comes with [same = true] if and only if its adds, dels
    and mods are all empty; two empty snapshots give [same = true] and three
    empty sequences.  (Beside an error the metadata engine returns the zero
    diff and [same = false]: [DiffDirectoryMetadata_error].) *)
Theorem same_iff_all_empty (os : OS) (d1 d2 : Directory) :
  (forall diff same, DiffDirectory os d1 d2 = Ret (diff, same) ->
     (same = true <-> Adds diff = [] /\ Dels diff = [] /\ Mods diff = [])) /\
  (forall diff same, DiffDirectoryMetadata os d1 d2 = (diff, same, None) ->
     (same = true <->
      MetaAdds diff = [] /\ MetaDels diff = [] /\ MetaMods diff = [])) /\
  (Content d1 = [] -> Content d2 = [] ->
   DiffDirectory os d1 d2 = Ret (mkDirDiff [] [] [], true) /\
   DiffDirectoryMetadata os d1 d2 = (emptyMetaDirDiff, true, None)).
Proof.
  split; [|split].
  - intros diff same H. apply DiffDirectory_inv in H.
    destruct H as (Ha & Hd & Hm & _ & _ & ->).
    rewrite !andb_true_iff, !isEmpty_nil, <- Ha, <- Hd, <- Hm, !map_nil_iff.
    tauto.
  - intros diff same H. apply DiffDirectoryMetadata_inv in H.
    destruct H as (Ha & Hd & Hm & ->).
    rewrite !andb_true_iff, !isEmpty_nil, <- Ha, <- Hd, <- Hm, !map_nil_iff.
    tauto.
  - destruct d1 as [r1 c1], d2 as [r2 c2]. simpl. intros -> ->.
    split; reflexivity.
Qed.

(** A diff with an addition and a deletion, and two that are the same. *)
Lemma same_iff_all_empty_witness :
  DiffDirectory exampleOS (dT1 ["/a"; "/b"]) (dT2 ["/a"; "/c"]) =
    Ret (mkDirDiff [mkDirectoryEntry "/c" 5] [mkDirectoryEntry "/b" 20] [], false) /\
  (false = true <->
   [mkDirectoryEntry "/c" 5%Z] = [] /\ [mkDirectoryEntry "/b" 20%Z] = [] /\
   @nil EntryDiff = []) /\
  DiffDirectoryMetadata exampleOS (dT1 ["/a"]) (dT2 ["/a"]) =
    (emptyMetaDirDiff, true, None) /\
  (true = true <->
   @nil DirectoryMetaEntry = [] /\ @nil DirectoryMetaEntry = [] /\
   @nil MetaEntryDiff = []) /\
  DiffDirectory exampleOS (dT1 []) (dT2 []) = Ret (mkDirDiff [] [] [], true).
Proof.
  pose proof (same_iff_all_empty exampleOS (dT1 ["/a"; "/b"]) (dT2 ["/a"; "/c"]))
    as (H1 & _ & _).
  pose proof (same_iff_all_empty exampleOS (dT1 ["/a"]) (dT2 ["/a"]))
    as (_ & H2 & _).
  pose proof (same_iff_all_empty exampleOS (dT1 []) (dT2 []))
    as (_ & _ & H3).
  split; [reflexivity|].
  split; [exact (H1 _ _ eq_refl)|].
  split; [reflexivity|].
  split; [exact (H2 _ _ eq_refl)|].
  exact (proj1 (H3 eq_refl eq_refl)).
Defined.

(** ** Layers *)

Lemma layerLoop_past os layers2 : forall layers1 index acc,
  length layers2 <= index ->
  layerLoop os layers1 index layers2 acc = Ret (acc, None).
Proof.
  induction layers1 as [|layer rest IH]; intros index acc H; simpl;
    [reflexivity|].
  assert (E : (length layers2 <=? index) = true) by now apply Nat.leb_le.
  rewrite E. apply IH. lia.
Qed.

Lemma layerLoop_ok os layers2 : forall layers1 index acc ds,
  layerLoop os layers1 index layers2 acc = Ret (ds, None) ->
  exists ds',
    ds = acc ++ ds' /\
    length ds' = Nat.min (length layers1) (length layers2 - index) /\
    forall k, k < length ds' ->
      diffImageFileMetadata os
        (LayerFSPath (nth k layers1 (mkLayer "")))
        (LayerFSPath (nth (index + k) layers2 (mkLayer "")))
      = Ret (nth k ds' emptyMetaDirDiff, None).
Proof.
  induction layers1 as [|layer rest IH]; intros index acc ds H; simpl in H.
  - injection H as <-. exists []. rewrite app_nil_r. simpl.
    repeat split. intros k Hk. lia.
  - destruct (length layers2 <=? index) eqn:E.
    + apply Nat.leb_le in E.
      destruct (IH _ _ _ H) as (ds' & -> & Hl & Hk).
      exists ds'. split; [reflexivity|]. split.
      * rewrite Hl. cbn [length]. lia.
      * intros k Hlt. lia.
    + apply Nat.leb_gt in E.
      destruct (diffImageFileMetadata os (LayerFSPath layer)
                  (LayerFSPath (nth index layers2 (mkLayer ""))))
        as [[d [err|]]|] eqn:Ed; simpl in H; try discriminate.
      destruct (IH _ _ _ H) as (ds' & -> & Hl & Hk).
      exists (d :: ds'). split; [now rewrite <- app_assoc|]. split.
      * cbn [length]. rewrite Hl. lia.
      * intros [|k] Hlt; simpl.
        -- now rewrite Nat.add_0_r.
        -- simpl in Hlt. specialize (Hk k ltac:(lia)).
           now replace (index + S k) with (S index + k) by lia.
Qed.

Lemma layerLoop_truncate os layers2 : forall layers1 index acc,
  let m := Nat.min (index + length layers1) (length layers2) in
  layerLoop os layers1 index layers2 acc =
  layerLoop os (firstn (m - index) layers1) index (firstn m layers2) acc.
Proof.
  induction layers1 as [|layer rest IH]; intros index acc m.
  - now rewrite firstn_nil.
  - simpl layerLoop at 1. destruct (length layers2 <=? index) eqn:E.
    + apply Nat.leb_le in E. rewrite layerLoop_past by lia.
      replace (m - index) with 0 by (subst m; cbn [length]; lia). reflexivity.
    + apply Nat.leb_gt in E.
      assert (Hm : m - index = S (m - S index)) by (subst m; cbn [length]; lia).
      rewrite Hm. simpl.
      assert (Hlen : length (firstn m layers2) = m).
      { rewrite length_firstn. subst m. cbn [length]. lia. }
      assert (E' : (length (firstn m layers2) <=? index) = false).
      { apply Nat.leb_gt. rewrite Hlen. subst m. cbn [length]. lia. }
      rewrite E'.
      assert (Hn : nth index (firstn m layers2) (mkLayer "") =
                   nth index layers2 (mkLayer "")).
      { rewrite nth_firstn.
        assert (L : (index <? m) = true)
          by (apply Nat.ltb_lt; subst m; cbn [length]; lia).
        now rewrite L. }
      rewrite Hn.
      destruct (diffImageFileMetadata os (LayerFSPath layer)
                  (LayerFSPath (nth index layers2 (mkLayer ""))))
        as [[d [err|]]|]; simpl; try reflexivity.
      rewrite IH.
      replace (Nat.min (S index + length rest) (length layers2)) with m
        by (subst m; cbn [length]; lia).
      reflexivity.
Qed.

(** C8: layers are aligned by position up to the shorter image.  With
    [m = min (len layers1) (len layers2)]: a result that
    [FileMetaLayerAnalyzer.Diff] returns without an error holds exactly [m]
    diffs, the [i]-th being the diff of layer [i] of the first image against
    layer [i] of the second; and the layers from [m] on contribute nothing:
    dropping them from both images leaves the outcome unchanged. *)
Theorem layers_aligned_up_to_min (os : OS) (image1 image2 : Image) :
  let m := Nat.min (length (Layers image1)) (length (Layers image2)) in
  (forall res, FileMetaLayerAnalyzer_Diff os image1 image2 = Ret (res, None) ->
     exists diffs,
       res = MultipleMetaDirDiffResult (Source image1) (Source image2)
               "FileMetaLayer" (mkMultipleMetaDirDiff diffs) /\
       length diffs = m /\
       forall i, i < m ->
         diffImageFileMetadata os
           (LayerFSPath (nth i (Layers image1) (mkLayer "")))
           (LayerFSPath (nth i (Layers image2) (mkLayer "")))
         = Ret (nth i diffs emptyMetaDirDiff, None)) /\
  FileMetaLayerAnalyzer_Diff os image1 image2 =
  FileMetaLayerAnalyzer_Diff os (firstLayers m image1) (firstLayers m image2).
Proof.
  intros m. split.
  - intros res H. unfold FileMetaLayerAnalyzer_Diff in H.
    destruct (layerLoop os (Layers image1) 0 (Layers image2) [])
      as [[ds [err|]]|] eqn:E; simpl in H; try discriminate.
    injection H as <-.
    destruct (layerLoop_ok _ _ _ _ _ _ E) as (ds' & Hds & Hl & Hk).
    simpl in Hds. subst ds'. rewrite Nat.sub_0_r in Hl. fold m in Hl.
    exists ds. split; [reflexivity|]. split; [assumption|].
    intros i Hi. apply (Hk i). lia.
  - unfold FileMetaLayerAnalyzer_Diff, firstLayers. simpl.
    pose proof (layerLoop_truncate os (Layers image2) (Layers image1) 0 []) as T.
    simpl in T. rewrite Nat.sub_0_r in T. fold m in T. now rewrite <- T.
Qed.

(** Three layers against two: two diffs. *)
Lemma layers_aligned_up_to_min_witness :
  FileMetaLayerAnalyzer_Diff exampleOS imageOne imageTwo =
    Ret (MultipleMetaDirDiffResult "one" "two" "FileMetaLayer"
           (mkMultipleMetaDirDiff
              [mkMetaDirDiff [mkDirectoryMetaEntry "/g" 420 0 0]
                 [mkDirectoryMetaEntry "/f" 420 0 0] [];
               emptyMetaDirDiff]), None) /\
  exists diffs,
    MultipleMetaDirDiffResult "one" "two" "FileMetaLayer"
      (mkMultipleMetaDirDiff
         [mkMetaDirDiff [mkDirectoryMetaEntry "/g" 420 0 0]
            [mkDirectoryMetaEntry "/f" 420 0 0] [];
          emptyMetaDirDiff])
    = MultipleMetaDirDiffResult "one" "two" "FileMetaLayer"
        (mkMultipleMetaDirDiff diffs) /\
    length diffs = 2.
Proof.
  split; [reflexivity|].
  destruct (proj1 (layers_aligned_up_to_min exampleOS imageOne imageTwo)
              _ eq_refl) as (diffs & Hr & Hl & _).
  exists diffs. split; [exact Hr|exact Hl].
Defined.

(** ** Rendering metadata diffs *)

(** C9: [stringifyMetaEntryDiffs] renders the first side twice.  In every
    rendered entry [Meta1] and [Meta2] are the same string, the rendering of
    [Mode1], [UID1] and [GID1]; changing [Mode2], [UID2] and [GID2] in any
    way leaves the output unchanged, also where they differ from the first
    side (as for mode 0644 against 0755 below). *)
Theorem stringified_meta_uses_first_side_twice (entries : list MetaEntryDiff) :
  Forall (fun s => smMeta1 s = smMeta2 s) (stringifyMetaEntryDiffs entries) /\
  map smMeta2 (stringifyMetaEntryDiffs entries) =
    map (fun e => stringifyMeta (mdMode1 e) (mdUID1 e) (mdGID1 e)) entries /\
  (forall second : MetaEntryDiff -> FileMode * N * N,
     stringifyMetaEntryDiffs
       (map (fun e =>
               mkMetaEntryDiff (mdName e) (mdMode1 e) (mdUID1 e) (mdGID1 e)
                 (fst (fst (second e))) (snd (fst (second e))) (snd (second e)))
            entries)
     = stringifyMetaEntryDiffs entries) /\
  stringifyMetaEntryDiffs [mkMetaEntryDiff "/f" 420 0 0 493 1000 1000] =
    [mkStrMetaEntryDiff "/f" "mode=0644 uid=0 gid=0" "mode=0644 uid=0 gid=0"] /\
  stringifyMeta 493 1000 1000 = "mode=0755 uid=1000 gid=1000".
Proof.
  split; [|split; [|split; [|split]]].
  - unfold stringifyMetaEntryDiffs. apply Forall_forall. intros s Hs.
    apply in_map_iff in Hs. destruct Hs as (e & <- & _). reflexivity.
  - unfold stringifyMetaEntryDiffs. rewrite map_map. reflexivity.
  - intros second. unfold stringifyMetaEntryDiffs. rewrite map_map. reflexivity.
  - reflexivity.
  - reflexivity.
Qed.

(** ** Failures of the walk *)

(** C5: a failure of the walk is not reported.  The root [/missing] cannot
    be stat'ed, yet the deep [GetDirectory] returns an empty listing and no
    error, and [diffImageFileMetadata] returns a diff and no error.  The
    shallow listing of the same path does return the error. *)
Theorem walk_failure_is_not_reported :
  Lstat exampleOS "/missing" = Err ENOENT /\
  GetDirectory exampleOS "/missing" true = Ret (mkDirectory "/missing" [], None) /\
  diffImageFileMetadata exampleOS "/missing" "/img2" =
    Ret (mkMetaDirDiff [mkDirectoryMetaEntry "/f" 420 0 0] [] [], None) /\
  GetDirectory exampleOS "/missing" false =
    Ret (mkDirectory "/missing" [], Some ENOENT).
Proof. repeat split. Qed.

(** A stat failure on a matched candidate skips that candidate in both
    engines; the loop goes on with the next one. *)
Lemma stat_failure_skips_candidate os d1 d2 f e :
  Lstat os (String.append (Root d1) f) = Err e \/
  Lstat os (String.append (Root d2) f) = Err e ->
  contentModified os d1 d2 f = false /\ metaModified os d1 d2 f = false.
Proof.
  intros H. unfold contentModified, metaModified.
  destruct H as [H|H].
  - now rewrite H.
  - rewrite H. now destruct (Lstat os (String.append (Root d1) f)).
Qed.

(** ** Swapping the two trees *)

Lemma string_lt_strict : StrictOrder String_as_OT.lt.
Proof.
  split.
  - intros x H. apply (String_as_OT.lt_not_eq x x H). reflexivity.
  - intros x y z. apply String_as_OT.lt_trans.
Qed.




(* ================================================================== *)
(** * Further properties *)

(** ** Identical and empty listings *)

Lemma commonRun_same a : commonRun a a = length a.
Proof.
  induction a as [|x a IH]; simpl; [reflexivity|].
  now rewrite String.eqb_refl, IH.
Qed.

Lemma chain_sizes a b ms : forall i j ahi bhi,
  chain a b i j ms ahi bhi -> Forall (fun m => 0 < Size m) ms.
Proof.
  induction ms as [|m ms IH]; intros i j ahi bhi H; constructor;
    simpl in H; destruct H as (_ & _ & H & _ & H').
  - exact H.
  - exact (IH _ _ _ _ H').
Qed.

(** Without a token on one side there is no block. *)
Lemma blocksOf_no_room a b : length a = 0 \/ length b = 0 -> blocksOf a b = [].
Proof.
  intros H.
  pose proof (blocksOf_in_range a b) as R.
  pose proof (chain_sizes a b _ _ _ _ _ (blocksOf_chain a b)) as S.
  destruct (blocksOf a b) as [|m ms]; [reflexivity|].
  apply Forall_inv in R. apply Forall_inv in S. lia.
Qed.

Lemma blocksOf_same a : a <> [] -> blocksOf a a = [mkMatch 0 0 (length a)].
Proof.
  intros Hne.
  assert (Hlen : 0 < length a) by (destruct a; [congruence|simpl; lia]).
  unfold blocksOf. rewrite matchBlocks_unfold.
  pose proof (findLongestMatch_good a a 0 (length a) 0 (length a)
                (Nat.le_0_l _) (Nat.le_0_l _)) as G.
  pose proof (findLongestMatch_longest a a 0 (length a) 0 (length a) 0 0
                (Nat.le_refl _) Hlen (Nat.le_refl _) Hlen) as L.
  unfold runAt in L. rewrite slice_full, commonRun_same in L.
  destruct (findLongestMatch a a 0 (length a) 0 (length a)) as [i j k].
  destruct G as (_ & G2 & _ & G4 & _). simpl in *.
  assert (i = 0) by lia. assert (j = 0) by lia. assert (k = length a) by lia.
  subst i j k. cbv zeta. simpl.
  assert (E : (0 <? length a) = true) by now apply Nat.ltb_lt.
  rewrite E, Nat.ltb_irrefl. reflexivity.
Qed.

Lemma GetMatches_same a : GetMatches a a = a.
Proof.
  unfold GetMatches. rewrite removelast_blocks.
  destruct a as [|x a]; [reflexivity|].
  rewrite blocksOf_same by discriminate.
  cbn [flat_map A Size]. rewrite app_nil_r. apply slice_full.
Qed.

Lemma GetDeletions_same a : GetDeletions a a = [].
Proof.
  pose proof (Permutation_length (matches_deletions_perm a a)) as H.
  rewrite GetMatches_same, length_app in H.
  destruct (GetDeletions a a); [reflexivity|simpl in H; lia].
Qed.

Lemma GetAdditions_same a : GetAdditions a a = [].
Proof.
  pose proof (Permutation_length (matches_additions_perm a a)) as H.
  rewrite GetMatches_same, length_app in H.
  destruct (GetAdditions a a); [reflexivity|simpl in H; lia].
Qed.

Lemma gaps_no_blocks s : tokens (gaps s 0 [] (length s)) = s.
Proof.
  cbn [gaps]. destruct (0 <? length s) eqn:E.
  - cbn [tokens flat_map snd]. rewrite app_nil_r. apply slice_full.
  - apply Nat.ltb_ge in E. destruct s; [reflexivity|simpl in E; lia].
Qed.

Lemma GetMatches_no_room a b : length a = 0 \/ length b = 0 -> GetMatches a b = [].
Proof.
  intros H. unfold GetMatches.
  now rewrite removelast_blocks, (blocksOf_no_room a b H).
Qed.

Lemma GetDeletions_no_room a b :
  length a = 0 \/ length b = 0 -> GetDeletions a b = a.
Proof.
  intros H.
  rewrite GetDeletions_tokens, deletionPieces_gaps, matchPieces_blocks.
  rewrite (blocksOf_no_room a b H). apply gaps_no_blocks.
Qed.

Lemma GetAdditions_no_room a b :
  length a = 0 \/ length b = 0 -> GetAdditions a b = b.
Proof.
  intros H.
  rewrite GetAdditions_tokens, additionPieces_gaps, matchPiecesB_blocks.
  rewrite (blocksOf_no_room a b H). apply gaps_no_blocks.
Qed.

(** X1: a listing against itself.  For every sequence [a], also one with
    repeated tokens, [GetMatches a a] is [a] itself and [GetAdditions a a]
    and [GetDeletions a a] are empty. *)
Theorem identical_sequences_match_entirely (a : list string) :
  GetMatches a a = a /\ GetAdditions a a = [] /\ GetDeletions a a = [].
Proof.
  split; [apply GetMatches_same|].
  split; [apply GetAdditions_same|apply GetDeletions_same].
Qed.

(** X2: a listing against an empty one.  When one of the two sequences is
    empty nothing is matched, every token of [b] is an addition and every
    token of [a] a deletion, in the order of the listing. *)
Theorem empty_side_adds_or_deletes_everything (a b : list string) :
  a = [] \/ b = [] ->
  GetMatches a b = [] /\ GetAdditions a b = b /\ GetDeletions a b = a.
Proof.
  intros H.
  assert (H' : length a = 0 \/ length b = 0).
  { destruct H as [->| ->]; [now left|now right]. }
  split; [now apply GetMatches_no_room|].
  split; [now apply GetAdditions_no_room|now apply GetDeletions_no_room].
Qed.

Lemma empty_side_adds_or_deletes_everything_witness :
  GetMatches [] ["/a"; "/b"] = [] /\
  GetAdditions [] ["/a"; "/b"] = ["/a"; "/b"] /\
  GetDeletions [] ["/a"; "/b"] = [].
Proof.
  apply (empty_side_adds_or_deletes_everything [] ["/a"; "/b"]).
  left. reflexivity.
Defined.

(** ** A snapshot against itself *)

Lemma filter_none {T} (f : T -> bool) l :
  (forall x, f x = false) -> filter f l = [].
Proof.
  intros H. induction l as [|x l IH]; simpl; [reflexivity|]. now rewrite H.
Qed.

Lemma CheckSameSymlink_same os p :
  CheckSameSymlink os p p = (true, None) \/
  exists e, CheckSameSymlink os p p = (false, Some e).
Proof.
  unfold CheckSameSymlink. destruct (Readlink os p) as [link|e].
  - left. now rewrite String.eqb_refl.
  - right. now exists e.
Qed.

Lemma CheckSameFile_same os p :
  CheckSameFile os p p = (true, None) \/
  exists e, CheckSameFile os p p = (false, Some e).
Proof.
  unfold CheckSameFile. destruct (Lstat os p) as [st|e]; [|right; now exists e].
  rewrite Z.eqb_refl. simpl.
  destruct (ReadFile os p) as [body|e]; [|right; now exists e].
  left. now rewrite String.eqb_refl.
Qed.

Lemma contentModified_same os d f : contentModified os d d f = false.
Proof.
  unfold contentModified.
  destruct (Lstat os (String.append (Root d) f)) as [st|e]; [|reflexivity].
  destruct (isSymlink st && isSymlink st).
  - destruct (CheckSameSymlink_same os (String.append (Root d) f)) as [->|[e ->]];
      reflexivity.
  - destruct (IsTar os (String.append (Root d) f)).
    + now rewrite Z.eqb_refl.
    + destruct (negb (IsDir st)); [|reflexivity].
      destruct (CheckSameFile_same os (String.append (Root d) f)) as [->|[e ->]];
        reflexivity.
Qed.

Lemma metaModified_same os d f : metaModified os d d f = false.
Proof.
  unfold metaModified.
  destruct (Lstat os (String.append (Root d) f)) as [st|e]; [|reflexivity].
  now rewrite !N.eqb_refl.
Qed.

Lemma DiffDirectory_same os d :
  DiffDirectory os d d = Ret (mkDirDiff [] [] [], true).
Proof.
  unfold DiffDirectory, GetAddedEntries, GetDeletedEntries, GetModifiedEntries.
  rewrite GetAdditions_same, GetDeletions_same.
  now rewrite (filter_none (contentModified os d d)) by apply contentModified_same.
Qed.

Lemma DiffDirectoryMetadata_same os d :
  DiffDirectoryMetadata os d d = (emptyMetaDirDiff, true, None).
Proof.
  unfold DiffDirectoryMetadata, GetAddedEntries, GetDeletedEntries,
    GetModifiedMetaEntries.
  rewrite GetAdditions_same, GetDeletions_same.
  now rewrite (filter_none (metaModified os d d)) by apply metaModified_same.
Qed.

(** X3: a snapshot against itself.  Whatever the file system answers (also
    when entries cannot be stat'ed or read), comparing a [Directory] with
    itself gives three empty sequences and [same = true] in both engines,
    without an error and without sizing anything. *)
Theorem snapshot_against_itself_is_same (os : OS) (d : Directory) :
  DiffDirectory os d d = Ret (mkDirDiff [] [] [], true) /\
  DiffDirectoryMetadata os d d = (emptyMetaDirDiff, true, None).
Proof.
  split; [apply DiffDirectory_same|apply DiffDirectoryMetadata_same].
Qed.

(** ** Every path is accounted for *)

Lemma insertSorted_perm x l : Permutation (insertSorted x l) (x :: l).
Proof.
  induction l as [|y l IH]; simpl; [apply Permutation_refl|].
  destruct (String.leb x y); [apply Permutation_refl|].
  apply (perm_trans (perm_skip y IH)). apply perm_swap.
Qed.

Lemma sortStrings_perm l : Permutation (sortStrings l) l.
Proof.
  induction l as [|x l IH]; simpl; [apply perm_nil|].
  apply (perm_trans (insertSorted_perm x (sortStrings l))).
  now apply perm_skip.
Qed.

Lemma deletions_accounted a b names :
  names = sortStrings (GetDeletions a b) ->
  Permutation a (GetMatches a b ++ names).
Proof.
  intros ->. apply (perm_trans (matches_deletions_perm a b)).
  apply Permutation_app_head, Permutation_sym, sortStrings_perm.
Qed.

Lemma additions_accounted a b names :
  names = sortStrings (GetAdditions a b) ->
  Permutation b (GetMatches a b ++ names).
Proof.
  intros ->. apply (perm_trans (matches_additions_perm a b)).
  apply Permutation_app_head, Permutation_sym, sortStrings_perm.
Qed.

(** X4: nothing is lost and nothing is invented.  In a diff that
    [DiffDirectory] returns, and in one [DiffDirectoryMetadata] returns
    without an error, the paths of the first listing are, counted with
    their repetitions, the matched paths together with the names of [Dels];
    the paths of the second listing are the matched paths together with the
    names of [Adds]; and every name of [Mods] is a matched path.  The two
    engines report the same added and the same deleted names. *)
Theorem every_path_is_matched_or_reported (os : OS) (d1 d2 : Directory) :
  (forall diff same, DiffDirectory os d1 d2 = Ret (diff, same) ->
     Permutation (Content d1)
       (GetMatches (Content d1) (Content d2) ++ map deName (Dels diff)) /\
     Permutation (Content d2)
       (GetMatches (Content d1) (Content d2) ++ map deName (Adds diff)) /\
     incl (map edName (Mods diff)) (GetMatches (Content d1) (Content d2))) /\
  (forall diff same, DiffDirectoryMetadata os d1 d2 = (diff, same, None) ->
     Permutation (Content d1)
       (GetMatches (Content d1) (Content d2) ++ map dmName (MetaDels diff)) /\
     Permutation (Content d2)
       (GetMatches (Content d1) (Content d2) ++ map dmName (MetaAdds diff)) /\
     incl (map mdName (MetaMods diff)) (GetMatches (Content d1) (Content d2))) /\
  (forall diff same mdiff msame,
     DiffDirectory os d1 d2 = Ret (diff, same) ->
     DiffDirectoryMetadata os d1 d2 = (mdiff, msame, None) ->
     map deName (Adds diff) = map dmName (MetaAdds mdiff) /\
     map deName (Dels diff) = map dmName (MetaDels mdiff)).
Proof.
  split; [|split].
  - intros diff same H.
    apply DiffDirectory_inv in H. destruct H as (Ha & Hd & Hm & _).
    split; [now apply deletions_accounted|].
    split; [now apply additions_accounted|].
    intros f Hf. rewrite Hm in Hf. apply (proj1 (sortStrings_In _ _)) in Hf.
    now apply (proj1 (GetModifiedEntries_In _ _ _ _)) in Hf.
  - intros diff same H.
    apply DiffDirectoryMetadata_inv in H. destruct H as (Ha & Hd & Hm & _).
    split; [now apply deletions_accounted|].
    split; [now apply additions_accounted|].
    intros f Hf. rewrite Hm in Hf. apply (proj1 (sortStrings_In _ _)) in Hf.
    now apply (proj1 (GetModifiedMetaEntries_In _ _ _ _)) in Hf.
  - intros diff same mdiff msame H H'.
    apply DiffDirectory_inv in H. destruct H as (Ha & Hd & _).
    apply DiffDirectoryMetadata_inv in H'. destruct H' as (Ha' & Hd' & _).
    split; congruence.
Qed.

(** [/a /b] against [/a /c]: [/a] is matched, [/b] deleted, [/c] added. *)
Lemma every_path_is_matched_or_reported_witness :
  DiffDirectory exampleOS (dT1 ["/a"; "/b"]) (dT2 ["/a"; "/c"]) =
    Ret (mkDirDiff [mkDirectoryEntry "/c" 5] [mkDirectoryEntry "/b" 20] [], false) /\
  GetMatches ["/a"; "/b"] ["/a"; "/c"] = ["/a"] /\
  Permutation ["/a"; "/b"] (GetMatches ["/a"; "/b"] ["/a"; "/c"] ++ ["/b"]) /\
  Permutation ["/a"; "/c"] (GetMatches ["/a"; "/b"] ["/a"; "/c"] ++ ["/c"]).
Proof.
  split; [reflexivity|]. split; [reflexivity|].
  destruct (proj1 (every_path_is_matched_or_reported exampleOS
                     (dT1 ["/a"; "/b"]) (dT2 ["/a"; "/c"])) _ _ eq_refl)
    as (H1 & H2 & _).
  split; [exact H1|exact H2].
Defined.

(** ** The output is sorted *)

Lemma insertSorted_ascending x l : ascending l -> ascending (insertSorted x l).
Proof.
  unfold ascending. induction 1 as [|y l Hs IH Hy]; simpl.
  - repeat constructor.
  - destruct (String.leb x y) eqn:E.
    + constructor; [now constructor|now constructor].
    + constructor; [exact IH|].
      assert (Eyx : String.leb y x = true).
      { destruct (String.leb_total x y) as [H|H]; [congruence|exact H]. }
      destruct Hy as [|z l Hz]; simpl.
      * now constructor.
      * destruct (String.leb x z); now constructor.
Qed.

Lemma sortStrings_ascending l : ascending (sortStrings l).
Proof.
  induction l as [|x l IH]; simpl; [constructor|].
  now apply insertSorted_ascending.
Qed.

(** X5: the sequences of a diff are sorted by name.  In a diff that
    [DiffDirectory] returns, and in one [DiffDirectoryMetadata] returns
    without an error, the names of the adds, of the dels and of the mods are
    each in ascending byte order, whatever the order of the two listings. *)
Theorem diff_sequences_are_sorted (os : OS) (d1 d2 : Directory) :
  (forall diff same, DiffDirectory os d1 d2 = Ret (diff, same) ->
     ascending (map deName (Adds diff)) /\
     ascending (map deName (Dels diff)) /\
     ascending (map edName (Mods diff))) /\
  (forall diff same, DiffDirectoryMetadata os d1 d2 = (diff, same, None) ->
     ascending (map dmName (MetaAdds diff)) /\
     ascending (map dmName (MetaDels diff)) /\
     ascending (map mdName (MetaMods diff))).
Proof.
  split; intros diff same H.
  - apply DiffDirectory_inv in H. destruct H as (-> & -> & -> & _).
    repeat split; apply sortStrings_ascending.
  - apply DiffDirectoryMetadata_inv in H. destruct H as (-> & -> & -> & _).
    repeat split; apply sortStrings_ascending.
Qed.

(** Three additions listed as [/y /c /a] come out as [/a /c /y]. *)
Lemma diff_sequences_are_sorted_witness :
  DiffDirectory exampleOS (dT1 []) (dT2 ["/y"; "/c"; "/a"]) =
    Ret (mkDirDiff [mkDirectoryEntry "/a" 1; mkDirectoryEntry "/c" 5;
                    mkDirectoryEntry "/y" 3] [] [], false) /\
  ascending ["/a"; "/c"; "/y"].
Proof.
  split; [reflexivity|].
  exact (proj1 (proj1 (diff_sequences_are_sorted exampleOS
                         (dT1 []) (dT2 ["/y"; "/c"; "/a"])) _ _ eq_refl)).
Defined.

(** ** Sorted listings: the diff is the set difference *)

(** X6: for listings in a common strict order.  When both listings are
    strictly increasing in one strict order (as those of a lexical walk
    are), a diff that [DiffDirectory] returns has as names of [Adds] exactly
    the paths of the second listing that are not in the first, as names of
    [Dels] exactly the paths of the first that are not in the second, and as
    names of [Mods] exactly the paths of both for which the content rules
    report a modification; no name is repeated in [Adds] or [Dels]. *)
Theorem sorted_listings_diff_is_set_difference (R : string -> string -> Prop)
  (R_strict : StrictOrder R) (os : OS) (d1 d2 : Directory)
  (diff : DirDiff) (same : bool) :
  StronglySorted R (Content d1) -> StronglySorted R (Content d2) ->
  DiffDirectory os d1 d2 = Ret (diff, same) ->
  (forall x, In x (map deName (Adds diff)) <->
             In x (Content d2) /\ ~ In x (Content d1)) /\
  (forall x, In x (map deName (Dels diff)) <->
             In x (Content d1) /\ ~ In x (Content d2)) /\
  (forall x, In x (map edName (Mods diff)) <->
             In x (Content d1) /\ In x (Content d2) /\
             contentModified os d1 d2 x = true) /\
  NoDup (map deName (Adds diff)) /\ NoDup (map deName (Dels diff)).
Proof.
  intros S1 S2 H.
  apply DiffDirectory_inv in H. destruct H as (Ha & Hd & Hm & _).
  rewrite Ha, Hd, Hm. unfold GetAddedEntries, GetDeletedEntries.
  split; [|split; [|split; [|split]]].
  - intros x. rewrite sortStrings_In. now apply (GetAdditions_set R).
  - intros x. rewrite sortStrings_In. now apply (GetDeletions_set R).
  - intros x. rewrite sortStrings_In, GetModifiedEntries_In.
    rewrite (GetMatches_set R _ _ S1 S2). tauto.
  - apply (Permutation_NoDup (Permutation_sym (sortStrings_perm _))).
    pose proof (Permutation_NoDup (matches_additions_perm (Content d1) (Content d2))
                  (sorted_NoDup R _ S2)) as ND.
    now apply NoDup_app_remove_l in ND.
  - apply (Permutation_NoDup (Permutation_sym (sortStrings_perm _))).
    pose proof (Permutation_NoDup (matches_deletions_perm (Content d1) (Content d2))
                  (sorted_NoDup R _ S1)) as ND.
    now apply NoDup_app_remove_l in ND.
Qed.

Lemma example_listings_sorted :
  StronglySorted String_as_OT.lt ["/a"; "/b"] /\
  StronglySorted String_as_OT.lt ["/a"; "/c"] /\
  StronglySorted String_as_OT.lt ["/x"].
Proof.
  assert (L : forall c1 c2 : ascii,
             nat_of_ascii c1 < nat_of_ascii c2 ->
             String_as_OT.lt (String "/" (String c1 ""))
               (String "/" (String c2 ""))).
  { intros c1 c2 H. apply String_as_OT.lts_tail, String_as_OT.lts_head, H. }
  split; [|split].
  - apply SSorted_cons; [apply SSorted_cons; constructor|].
    constructor; [|constructor]. apply L. vm_compute. lia.
  - apply SSorted_cons; [apply SSorted_cons; constructor|].
    constructor; [|constructor]. apply L. vm_compute. lia.
  - apply SSorted_cons; constructor.
Qed.

(** [/a /b] against [/a /c], both in the order of [String_as_OT.lt]. *)
Lemma sorted_listings_diff_is_set_difference_witness :
  StronglySorted String_as_OT.lt ["/a"; "/b"] /\
  StronglySorted String_as_OT.lt ["/a"; "/c"] /\
  DiffDirectory exampleOS (dT1 ["/a"; "/b"]) (dT2 ["/a"; "/c"]) =
    Ret (mkDirDiff [mkDirectoryEntry "/c" 5] [mkDirectoryEntry "/b" 20] [], false) /\
  (forall x, In x ["/c"] <-> In x ["/a"; "/c"] /\ ~ In x ["/a"; "/b"]) /\
  (forall x, In x ["/b"] <-> In x ["/a"; "/b"] /\ ~ In x ["/a"; "/c"]).
Proof.
  destruct example_listings_sorted as (S1 & S2 & _).
  split; [exact S1|]. split; [exact S2|]. split; [reflexivity|].
  destruct (sorted_listings_diff_is_set_difference String_as_OT.lt
              string_lt_strict exampleOS (dT1 ["/a"; "/b"]) (dT2 ["/a"; "/c"])
              _ _ S1 S2 eq_refl) as (Ha & Hd & _).
  split; [exact Ha|exact Hd].
Defined.

(** ** Swapping the trees: metadata *)

Lemma metaModified_swap os d1 d2 f :
  metaModified os d1 d2 f = metaModified os d2 d1 f.
Proof.
  unfold metaModified.
  destruct (Lstat os (String.append (Root d1) f)) as [s1|e1];
    destruct (Lstat os (String.append (Root d2) f)) as [s2|e2]; try reflexivity.
  rewrite (N.eqb_sym (fiMode s1)), (N.eqb_sym (fiUid s1)), (N.eqb_sym (fiGid s1)).
  reflexivity.
Qed.

(** X7: the metadata rule does not depend on the order of the trees.  The
    verdict of [GetModifiedMetaEntries] on one candidate is the same with
    the two trees swapped; so for listings in a common strict order the two
    comparisons report the same set of modified entries. *)
Theorem meta_mods_symmetric_under_swap (R : string -> string -> Prop)
  (R_strict : StrictOrder R) (os : OS) (d1 d2 : Directory) :
  StronglySorted R (Content d1) -> StronglySorted R (Content d2) ->
  forall f, In f (GetModifiedMetaEntries os d1 d2) <->
            In f (GetModifiedMetaEntries os d2 d1).
Proof.
  intros S1 S2 f. rewrite !GetModifiedMetaEntries_In.
  rewrite (GetMatches_set R _ _ S1 S2), (GetMatches_set R _ _ S2 S1).
  rewrite (metaModified_swap os d1 d2 f). tauto.
Qed.

(** [/x] is a symlink in [/t1] and a regular file in [/t2]. *)
Lemma meta_mods_symmetric_under_swap_witness :
  StronglySorted String_as_OT.lt ["/x"] /\
  GetModifiedMetaEntries exampleOS (dT1 ["/x"]) (dT2 ["/x"]) = ["/x"] /\
  In "/x" (GetModifiedMetaEntries exampleOS (dT2 ["/x"]) (dT1 ["/x"])).
Proof.
  destruct example_listings_sorted as (_ & _ & S).
  split; [exact S|]. split; [reflexivity|].
  apply (meta_mods_symmetric_under_swap String_as_OT.lt string_lt_strict
           exampleOS (dT1 ["/x"]) (dT2 ["/x"]) S S "/x").
  vm_compute. now left.
Defined.

(** ** A directory that became a file *)

Lemma IsDir_mode s1 s2 : fiMode s1 = fiMode s2 -> IsDir s1 = IsDir s2.
Proof. unfold IsDir. now intros ->. Qed.

(** X8: a change of type away from a directory.  A matched entry that is a
    directory in the first tree (not a symlink, not recognized as a tar) and
    something else in the second is not reported by the content rules, which
    look at the type of the first side only; the metadata rules do report
    it, since the two modes differ. *)
Theorem directory_replaced_is_meta_change_only (os : OS) (d1 d2 : Directory)
  (f : string) (f1stat f2stat : FileInfo) :
  In f (GetMatches (Content d1) (Content d2)) ->
  Lstat os (String.append (Root d1) f) = Ok f1stat ->
  Lstat os (String.append (Root d2) f) = Ok f2stat ->
  IsDir f1stat = true -> isSymlink f1stat = false ->
  IsTar os (String.append (Root d1) f) = false ->
  IsDir f2stat = false ->
  ~ In f (GetModifiedEntries os d1 d2) /\ In f (GetModifiedMetaEntries os d1 d2).
Proof.
  intros Hm H1 H2 D1 L1 T1 D2. split.
  - rewrite GetModifiedEntries_In. intros [_ Hc].
    unfold contentModified in Hc. rewrite H1, H2, L1, T1, D1 in Hc.
    discriminate.
  - apply GetModifiedMetaEntries_In. split; [assumption|].
    unfold metaModified. rewrite H1, H2.
    destruct (fiMode f1stat =? fiMode f2stat)%N eqn:E; [|reflexivity].
    apply N.eqb_eq, IsDir_mode in E. congruence.
Qed.

(** [/etc] is a directory below [/old] and a file below [/new]. *)
Lemma directory_replaced_is_meta_change_only_witness :
  IsDir directory = true /\ IsDir (regular 12) = false /\
  GetModifiedEntries storageOS (mkDirectory "/old" ["/etc"])
    (mkDirectory "/new" ["/etc"]) = [] /\
  In "/etc" (GetModifiedMetaEntries storageOS (mkDirectory "/old" ["/etc"])
               (mkDirectory "/new" ["/etc"])).
Proof.
  split; [reflexivity|]. split; [reflexivity|]. split; [reflexivity|].
  apply (directory_replaced_is_meta_change_only storageOS
           (mkDirectory "/old" ["/etc"]) (mkDirectory "/new" ["/etc"])
           "/etc" directory (regular 12)); try reflexivity.
  vm_compute. now left.
Defined.

(** ** What a reported metadata modification holds *)

Lemma createMetaEntryDiffs_In os root1 root2 names entry : forall entries,
  createMetaEntryDiffs os root1 root2 names = (entries, None) ->
  In entry entries ->
  exists f1stat f2stat,
    In (mdName entry) names /\
    Lstat os (Join os root1 (mdName entry)) = Ok f1stat /\
    Lstat os (Join os root2 (mdName entry)) = Ok f2stat /\
    entry = mkMetaEntryDiff (mdName entry)
              (fiMode f1stat) (fiUid f1stat) (fiGid f1stat)
              (fiMode f2stat) (fiUid f2stat) (fiGid f2stat).
Proof.
  induction names as [|name rest IH]; intros entries H Hin; simpl in H.
  - injection H as <-. contradiction.
  - destruct (Lstat os (Join os root1 name)) as [s1|e] eqn:E1; [|discriminate].
    destruct (Lstat os (Join os root2 name)) as [s2|e] eqn:E2; [|discriminate].
    destruct (createMetaEntryDiffs os root1 root2 rest) as [es [e|]];
      [discriminate|].
    injection H as <-. destruct Hin as [<-|Hin].
    + exists s1, s2. simpl. repeat split; try assumption. now left.
    + destruct (IH es eq_refl Hin) as (s1' & s2' & Hn & H1 & H2 & He).
      exists s1', s2'. repeat split; try assumption. now right.
Qed.

(** X9: a reported metadata modification is a real one.  When
    [filepath.Join] of a root and a matched name is their concatenation (the
    roots are clean and the names start with the separator, as those of a
    listing do), every entry of [Mods] of a diff that
    [DiffDirectoryMetadata] returns without an error names a path of both
    listings, holds the mode, uid and gid that [Lstat] gives on either side,
    and these differ in the mode, the uid or the gid. *)
Theorem reported_meta_mod_really_differs (os : OS) (d1 d2 : Directory)
  (diff : MetaDirDiff) (same : bool) (entry : MetaEntryDiff) :
  (forall f, In f (Content d1) ->
     Join os (Root d1) f = String.append (Root d1) f /\
     Join os (Root d2) f = String.append (Root d2) f) ->
  DiffDirectoryMetadata os d1 d2 = (diff, same, None) ->
  In entry (MetaMods diff) ->
  In (mdName entry) (Content d1) /\ In (mdName entry) (Content d2) /\
  (exists f1stat f2stat,
     Lstat os (String.append (Root d1) (mdName entry)) = Ok f1stat /\
     Lstat os (String.append (Root d2) (mdName entry)) = Ok f2stat /\
     entry = mkMetaEntryDiff (mdName entry)
               (fiMode f1stat) (fiUid f1stat) (fiGid f1stat)
               (fiMode f2stat) (fiUid f2stat) (fiGid f2stat)) /\
  (mdMode1 entry, mdUID1 entry, mdGID1 entry) <>
  (mdMode2 entry, mdUID2 entry, mdGID2 entry).
Proof.
  intros HJ H Hin.
  assert (Hmods : createMetaEntryDiffs os (Root d1) (Root d2)
                    (sortStrings (GetModifiedMetaEntries os d1 d2))
                  = (MetaMods diff, None)).
  { unfold DiffDirectoryMetadata in H.
    destruct (CreateDirectoryMetaEntries os (Root d2) _) as [adds [e|]];
      [discriminate|].
    destruct (CreateDirectoryMetaEntries os (Root d1) _) as [dels [e|]];
      [discriminate|].
    destruct (createMetaEntryDiffs os (Root d1) (Root d2) _) as [mods [e|]];
      [discriminate|].
    injection H as <- _. reflexivity. }
  destruct (createMetaEntryDiffs_In _ _ _ _ entry _ Hmods Hin)
    as (s1 & s2 & Hn & H1 & H2 & He).
  apply (proj1 (sortStrings_In _ _)) in Hn.
  apply (proj1 (GetModifiedMetaEntries_In _ _ _ _)) in Hn.
  destruct Hn as [Hmatch Hmeta].
  destruct (GetMatches_both _ _ _ Hmatch) as [Hc1 Hc2].
  destruct (HJ _ Hc1) as [J1 J2]. rewrite J1 in H1. rewrite J2 in H2.
  split; [assumption|]. split; [assumption|]. split.
  - exists s1, s2. now repeat split.
  - unfold metaModified in Hmeta. rewrite H1, H2 in Hmeta.
    rewrite He. simpl. intros Heq. injection Heq as Em Eu Eg.
    rewrite Em, Eu, Eg, !N.eqb_refl in Hmeta. discriminate.
Qed.

(** The modification of [/x]: a symlink with mode 0777 against a file with
    mode 0644. *)
Lemma reported_meta_mod_really_differs_witness :
  DiffDirectoryMetadata exampleOS (dT1 ["/x"]) (dT2 ["/x"]) =
    (mkMetaDirDiff [] []
       [mkMetaEntryDiff "/x" (fiMode (symlink 2)) 0 0 420 0 0], false, None) /\
  In "/x" ["/x"] /\
  (fiMode (symlink 2), 0%N, 0%N) <> (420%N, 0%N, 0%N).
Proof.
  split; [reflexivity|].
  destruct (reported_meta_mod_really_differs exampleOS (dT1 ["/x"]) (dT2 ["/x"])
              (mkMetaDirDiff [] []
                 [mkMetaEntryDiff "/x" (fiMode (symlink 2)) 0 0 420 0 0])
              false (mkMetaEntryDiff "/x" (fiMode (symlink 2)) 0 0 420 0 0))
    as (H1 & _ & _ & H4).
  - intros f [<-|[]]. split; reflexivity.
  - reflexivity.
  - now left.
  - split; [exact H1|exact H4].
Defined.

(** ** Strings *)

Lemma substring_none n s : String.substring n 0 s = "".
Proof.
  revert n. induction s as [|c s IH]; intros [|n]; simpl; try reflexivity.
  apply IH.
Qed.

Lemma prefix_refl s : String.prefix s s = true.
Proof.
  induction s as [|c s IH]; simpl; [reflexivity|].
  destruct (ascii_dec c c); [exact IH|congruence].
Qed.

Lemma prefix_append pre s : String.prefix pre (String.append pre s) = true.
Proof.
  induction pre as [|c pre IH]; simpl; [now destruct s|].
  destruct (ascii_dec c c); [exact IH|congruence].
Qed.

Lemma substring_append pre s :
  String.substring (String.length pre) (String.length s) (String.append pre s) = s.
Proof.
  induction pre as [|c pre IH]; simpl; [|exact IH].
  induction s as [|c s IH]; simpl; [reflexivity|]. now rewrite IH.
Qed.

Lemma length_append pre s :
  String.length (String.append pre s) = String.length pre + String.length s.
Proof. induction pre as [|c pre IH]; simpl; [reflexivity|]. now rewrite IH. Qed.

Lemma string_app_assoc s1 s2 s3 :
  String.append (String.append s1 s2) s3 = String.append s1 (String.append s2 s3).
Proof. induction s1 as [|c s1 IH]; simpl; [reflexivity|]. now rewrite IH. Qed.

Lemma TrimPrefix_append root rel : TrimPrefix (String.append root rel) root = rel.
Proof.
  unfold TrimPrefix. rewrite prefix_append, length_append.
  replace (String.length root + String.length rel - String.length root)
    with (String.length rel) by lia.
  apply substring_append.
Qed.

Lemma TrimPrefix_self root : TrimPrefix root root = "".
Proof.
  unfold TrimPrefix. rewrite prefix_refl, Nat.sub_diag. apply substring_none.
Qed.

(** ** The size of a directory *)

Lemma wrap64_idem z : wrap64 (wrap64 z) = wrap64 z.
Proof.
  unfold wrap64.
  replace ((z + 2 ^ 63) mod 2 ^ 64 - 2 ^ 63 + 2 ^ 63)%Z
    with ((z + 2 ^ 63) mod 2 ^ 64)%Z by lia.
  now rewrite Z.mod_mod by lia.
Qed.

Lemma wrap64_congr x y z :
  wrap64 x = wrap64 y -> wrap64 (x + z) = wrap64 (y + z).
Proof.
  unfold wrap64. intros H.
  assert (E : ((x + 2 ^ 63) mod 2 ^ 64 = (y + 2 ^ 63) mod 2 ^ 64)%Z) by lia.
  replace (x + z + 2 ^ 63)%Z with ((x + 2 ^ 63) + z)%Z by lia.
  replace (y + z + 2 ^ 63)%Z with ((y + 2 ^ 63) + z)%Z by lia.
  rewrite <- (Zplus_mod_idemp_l (x + 2 ^ 63)), E, Zplus_mod_idemp_l.
  reflexivity.
Qed.

Local Abbreviation childSize :=
  (fun nc : string * wnode =>
     match nc with
     | (_, c) =>
         match c with
         | WNode (Ok fileInfo) _ _ => treeSize fileInfo c
         | WNode (Err _) _ _ => 0%Z
         end
     end).

Local Abbreviation childReadable :=
  (fun nc : string * wnode =>
     match nc with
     | (_, c) =>
         match c with
         | WNode (Ok fileInfo) _ _ => readable fileInfo c
         | WNode (Err _) _ _ => false
         end
     end).

Lemma counted_refl s : counted s 0 s.
Proof. unfold counted. rewrite Z.add_0_r. tauto. Qed.

Lemma counted_trans s t1 r1 t2 r2 :
  counted s t1 r1 -> counted r1 t2 r2 -> counted s (t1 + t2) r2.
Proof.
  unfold counted. intros [H1 K1] [H2 K2]. split; [|tauto].
  rewrite H2, Z.add_assoc. now apply wrap64_congr.
Qed.

Lemma walkNames_sizes
  (visit : string -> wnode -> Z -> outcome (Z * option error)) cs :
  Forall (fun nc => forall s, exists r,
            visit (fst nc) (snd nc) s = Ret (r, None) /\
            counted s (childSize nc) r) cs ->
  forall s, exists r,
    walkNames visit cs s = Ret (r, None) /\
    counted s (fold_right (fun nc acc => (childSize nc + acc)%Z) 0%Z cs) r.
Proof.
  induction 1 as [|[name c] cs Hc _ IH]; intros s.
  - exists s. split; [reflexivity|apply counted_refl].
  - destruct (Hc s) as (r1 & E1 & C1). simpl in E1.
    destruct (IH r1) as (r2 & E2 & C2).
    exists r2. split.
    + cbn [walkNames]. rewrite E1. simpl. exact E2.
    + cbn [fold_right]. exact (counted_trans _ _ _ _ _ C1 C2).
Qed.

Lemma walk_sizes (join : string -> string -> string) :
  forall n path info s, readable info n = true ->
    exists r, walk join path info n sizeWalkFn s = Ret (r, None) /\
              counted s (treeSize info n) r.
Proof.
  induction n as [st rdErr children IH] using wnode_induction.
  intros path info s Hr. cbn [walk readable treeSize] in *.
  destruct (negb (IsDir info)) eqn:D.
  - exists (add64 s (fiSize info)). split.
    + unfold sizeWalkFn. now rewrite D.
    + unfold counted, add64. rewrite wrap64_idem. tauto.
  - destruct rdErr as [e|]; [discriminate|].
    unfold sizeWalkFn at 1. rewrite D. cbn [bind fst snd].
    apply walkNames_sizes.
    rewrite forallb_forall in Hr. apply Forall_forall.
    rewrite Forall_forall in IH.
    intros [name c] Hin s2. specialize (IH _ Hin). specialize (Hr _ Hin).
    cbn [fst snd] in *.
    destruct c as [[fileInfo|e] rd cs']; [|discriminate].
    destruct (IH (join path name) fileInfo s2 Hr) as (r & E & C).
    exists r. split; [|exact C]. rewrite E. reflexivity.
Qed.

(** X10: the size of a directory.  When every entry the walk meets below
    [path] can be stat'ed and every directory among them can be read,
    [getDirectorySize] returns, without an error, the sum of the sizes of
    the entries that are not directories (a symlink counts with its own
    size, a directory with nothing), wrapped to 64 bits; [GetSize] of a
    directory is that sum. *)
Theorem directory_size_is_sum_of_files (os : OS) (path : string)
  (info : FileInfo) :
  Lstat os path = Ok info ->
  readable info (Tree os path) = true ->
  getDirectorySize os path = Ret (wrap64 (treeSize info (Tree os path)), None) /\
  (IsDir info = true ->
   GetSize os path = Ret (wrap64 (treeSize info (Tree os path)))).
Proof.
  intros HL Hr.
  assert (H : getDirectorySize os path =
              Ret (wrap64 (treeSize info (Tree os path)), None)).
  { unfold getDirectorySize, Walk. rewrite HL.
    destruct (walk_sizes (Join os) (Tree os path) path info 0%Z Hr)
      as (r & E & C1 & C2).
    rewrite E. simpl. rewrite <- (C2 eq_refl), C1, Z.add_0_l. reflexivity. }
  split; [exact H|].
  intros D. unfold GetSize. rewrite HL, D, H. reflexivity.
Qed.

(** [/data] holds 10 + 5 + (20 + 7) bytes. *)
Lemma directory_size_is_sum_of_files_witness :
  readable directory (Tree storageOS "/data") = true /\
  treeSize directory (Tree storageOS "/data") = 42%Z /\
  getDirectorySize storageOS "/data" = Ret (42%Z, None) /\
  GetSize storageOS "/data" = Ret 42%Z.
Proof.
  split; [reflexivity|]. split; [reflexivity|].
  destruct (directory_size_is_sum_of_files storageOS "/data" directory
              eq_refl eq_refl) as [H1 H2].
  split; [exact H1|exact (H2 eq_refl)].
Defined.

(** ** The deep listing, entry by entry *)

Lemma listedNames_app root p q :
  listedNames root (p ++ q) = listedNames root p ++ listedNames root q.
Proof. unfold listedNames. now rewrite map_app, filter_app. Qed.

Lemma contentWalkFn_listed root path info err s :
  contentWalkFn root path info err s = Ret (s ++ listedNames root [path], None).
Proof.
  unfold contentWalkFn, listedNames. simpl.
  destruct (String.eqb (TrimPrefix path root) ""); simpl;
    now rewrite ?app_nil_r.
Qed.

Lemma walkNames_listing root
  (visit : string -> wnode -> list string -> outcome (list string * option error))
  (paths : string * wnode -> list string) cs :
  Forall (fun nc => forall s,
            visit (fst nc) (snd nc) s = Ret (s ++ listedNames root (paths nc), None))
    cs ->
  forall s, walkNames visit cs s =
            Ret (s ++ listedNames root (flat_map paths cs), None).
Proof.
  induction 1 as [|[name c] cs Hc _ IH]; intros s.
  - simpl. now rewrite app_nil_r.
  - cbn [walkNames flat_map]. simpl in Hc. rewrite Hc. simpl.
    rewrite IH, listedNames_app. now rewrite app_assoc.
Qed.

Lemma walk_listing (join : string -> string -> string) root :
  forall n path info s,
    walk join path info n (contentWalkFn root) s =
    Ret (s ++ listedNames root (visited join path info n), None).
Proof.
  induction n as [st rdErr children IH] using wnode_induction.
  intros path info s. cbn [walk visited].
  destruct (negb (IsDir info)); [apply contentWalkFn_listed|].
  rewrite contentWalkFn_listed. cbn [bind fst snd].
  destruct rdErr as [e|]; [reflexivity|].
  rewrite (walkNames_listing root _
             (fun nc : string * wnode =>
                match nc with
                | (name, c) =>
                    match c with
                    | WNode (Ok fileInfo) _ _ =>
                        visited join (join path name) fileInfo c
                    | WNode (Err _) _ _ => [join path name]
                    end
                end)).
  - rewrite <- app_assoc. do 3 f_equal.
    exact (eq_sym (listedNames_app root [path] _)).
  - eapply Forall_impl; [|exact IH]. clear IH.
    intros [name c] Hc s2. cbn [fst snd] in *.
    destruct c as [[fileInfo|e] rd cs'].
    + rewrite Hc. reflexivity.
    + rewrite contentWalkFn_listed. reflexivity.
Qed.

Lemma GetDirectory_deep_listing os path :
  GetDirectory os path true =
  Ret (mkDirectory path (listedNames path (visitedPaths os path)), None).
Proof.
  unfold GetDirectory, Walk, visitedPaths.
  destruct (Lstat os path) as [info|e].
  - now rewrite walk_listing.
  - now rewrite contentWalkFn_listed.
Qed.

(** X11: the deep listing.  For every file system and every path,
    [GetDirectory(path, true)] returns normally and with a nil error.  Its
    content is, in walk order, the paths the walk visits with the prefix
    [path] trimmed: an entry that cannot be stat'ed and a directory that
    cannot be read are listed like any other.  The empty name is never
    listed (the root itself is left out), and a root that cannot be stat'ed
    gives the empty listing. *)
Theorem deep_listing_is_the_walk_order (os : OS) (path : string) :
  GetDirectory os path true =
    Ret (mkDirectory path (listedNames path (visitedPaths os path)), None) /\
  ~ In "" (listedNames path (visitedPaths os path)) /\
  (forall e, Lstat os path = Err e ->
     GetDirectory os path true = Ret (mkDirectory path [], None)).
Proof.
  split; [apply GetDirectory_deep_listing|]. split.
  - unfold listedNames. intros H. apply filter_In in H.
    destruct H as [_ H]. discriminate.
  - intros e He. rewrite GetDirectory_deep_listing.
    unfold visitedPaths, listedNames. rewrite He. simpl.
    now rewrite TrimPrefix_self.
Qed.

(** ** Sizing a directory that holds an obstacle *)

Lemma walk_dir_sizes (join : string -> string -> string) path info st children s :
  IsDir info = true ->
  walk join path info (WNode st None children) sizeWalkFn s =
  walkNames (visitChild join path sizeWalkFn) children s.
Proof.
  intros D. cbn [walk]. rewrite D. cbn [negb].
  unfold sizeWalkFn at 1. rewrite D. reflexivity.
Qed.

(** The walk of sizes passes the readable entries at the head of a
    directory. *)
Lemma walk_sizes_past (join : string -> string -> string) path rest :
  forall pre s, forallb childReadable pre = true ->
    exists r,
      counted s (fold_right (fun nc acc => (childSize nc + acc)%Z) 0%Z pre) r /\
      walkNames (visitChild join path sizeWalkFn) (pre ++ rest) s =
      walkNames (visitChild join path sizeWalkFn) rest r.
Proof.
  induction pre as [|[name c] pre IH]; intros s Hr.
  - exists s. split; [apply counted_refl|reflexivity].
  - cbn [forallb] in Hr. apply andb_true_iff in Hr. destruct Hr as [Hc Hr].
    destruct c as [[fileInfo|e] rd cs']; [|discriminate].
    destruct (walk_sizes join (WNode (Ok fileInfo) rd cs') (join path name)
                fileInfo s Hc) as (r1 & E1 & C1).
    destruct (IH r1 Hr) as (r & C & E).
    exists r. split; [exact (counted_trans _ _ _ _ _ C1 C)|].
    rewrite <- E. rewrite <- app_comm_cons.
    cbn [walkNames]. unfold visitChild at 1. cbv zeta. rewrite E1.
    reflexivity.
Qed.

(** X12: sizing a directory with an entry that cannot be stat'ed.  When a
    directory can be read and the entries before one that cannot be stat'ed
    are readable, the callback of [getDirectorySize] is called with a nil
    [info] and dereferences it: [getDirectorySize] and [GetSize] panic. *)
Theorem directory_size_panics_on_unstatable_entry (os : OS) (path : string)
  (info : FileInfo) (st : result FileInfo) (pre post : list (string * wnode))
  (name : string) (e : error) (rd : option error) (cs : list (string * wnode)) :
  Lstat os path = Ok info -> IsDir info = true ->
  Tree os path = WNode st None (pre ++ (name, WNode (Err e) rd cs) :: post) ->
  forallb childReadable pre = true ->
  getDirectorySize os path = Panic /\ GetSize os path = Panic.
Proof.
  intros HL D HT Hr.
  assert (H : getDirectorySize os path = Panic).
  { unfold getDirectorySize, Walk. rewrite HL, HT.
    rewrite (walk_dir_sizes _ _ _ _ _ _ D).
    destruct (walk_sizes_past (Join os) path
                ((name, WNode (Err e) rd cs) :: post) pre 0%Z Hr)
      as (r & _ & ->).
    reflexivity. }
  split; [exact H|]. unfold GetSize. now rewrite HL, D, H.
Qed.

(** [/broken/gone] cannot be stat'ed: sizing [/broken] panics, and so does a
    diff that reports [/broken] as added. *)
Lemma directory_size_panics_on_unstatable_entry_witness :
  Tree storageOS "/broken" = brokenTree /\
  getDirectorySize storageOS "/broken" = Panic /\
  GetSize storageOS "/broken" = Panic /\
  DiffDirectory storageOS (mkDirectory "" []) (mkDirectory "" ["/broken"]) = Panic.
Proof.
  split; [reflexivity|].
  destruct (directory_size_panics_on_unstatable_entry storageOS "/broken"
              directory (Ok directory)
              [("a", WNode (Ok (regular 10)) None [])]
              [("c", WNode (Ok (regular 5)) None [])]
              "gone" ENOENT None [] eq_refl eq_refl eq_refl eq_refl)
    as [H1 H2].
  split; [exact H1|]. split; [exact H2|]. reflexivity.
Defined.

(** X13: sizing a directory with a subdirectory that cannot be read.  The
    walk stops at the first directory whose names cannot be read (after the
    readable entries before it): [getDirectorySize] returns that error
    together with the sum of the entries before it, and [GetSize] returns
    this partial sum as the size; the entries after it are not counted. *)
Theorem directory_size_stops_at_unreadable_directory (os : OS) (path : string)
  (info dinfo : FileInfo) (st : result FileInfo)
  (pre post : list (string * wnode)) (name msg : string)
  (cs : list (string * wnode)) :
  Lstat os path = Ok info -> IsDir info = true -> IsDir dinfo = true ->
  Tree os path =
    WNode st None
      (pre ++ (name, WNode (Ok dinfo) (Some (Errno msg)) cs) :: post) ->
  forallb childReadable pre = true ->
  let partial :=
    wrap64 (fold_right (fun nc acc => (childSize nc + acc)%Z) 0%Z pre) in
  getDirectorySize os path = Ret (partial, Some (Errno msg)) /\
  GetSize os path = Ret partial.
Proof.
  intros HL D D' HT Hr partial.
  assert (H : getDirectorySize os path = Ret (partial, Some (Errno msg))).
  { unfold getDirectorySize, Walk. rewrite HL, HT.
    rewrite (walk_dir_sizes _ _ _ _ _ _ D).
    destruct (walk_sizes_past (Join os) path
                ((name, WNode (Ok dinfo) (Some (Errno msg)) cs) :: post)
                pre 0%Z Hr) as (r & [C1 C2] & ->).
    cbn [walkNames]. unfold visitChild. cbn [walk]. rewrite D'. cbn [negb].
    unfold sizeWalkFn. rewrite D'. cbn.
    rewrite <- (C2 eq_refl), C1, Z.add_0_l. reflexivity. }
  split; [exact H|]. unfold GetSize. now rewrite HL, D, H.
Qed.

(** [/locked/priv] cannot be read: the 5 bytes of [/locked/c] are not
    counted. *)
Lemma directory_size_stops_at_unreadable_directory_witness :
  Tree storageOS "/locked" = lockedTree /\
  getDirectorySize storageOS "/locked" = Ret (10%Z, Some EACCES) /\
  GetSize storageOS "/locked" = Ret 10%Z.
Proof.
  split; [reflexivity|].
  exact (directory_size_stops_at_unreadable_directory storageOS "/locked"
           directory directory (Ok directory)
           [("a", WNode (Ok (regular 10)) None [])]
           [("c", WNode (Ok (regular 5)) None [])]
           "priv" "permission denied" [] eq_refl eq_refl eq_refl eq_refl eq_refl).
Defined.

(** ** Path prefixes *)

Lemma components_agree (p q : list string) :
  forallb (fun index => String.eqb (nth index p "") (nth index q ""))
    (seq 0 (length p)) = true <->
  forall index, index < length p -> nth index p "" = nth index q "".
Proof.
  rewrite forallb_forall. split.
  - intros H index Hlt. apply String.eqb_eq, H, in_seq. lia.
  - intros H index Hin. apply in_seq in Hin. apply String.eqb_eq, H. lia.
Qed.

Lemma components_prefix (p q : list string) :
  length p <= length q ->
  (forall index, index < length p -> nth index p "" = nth index q "") ->
  q = p ++ skipn (length p) q.
Proof.
  intros Hlen H. rewrite <- (firstn_skipn (length p) q) at 1. f_equal.
  apply (nth_ext _ _ "" "").
  - rewrite length_firstn. lia.
  - intros n Hn. rewrite length_firstn in Hn. rewrite nth_firstn.
    assert (E : (n <? length p) = true) by (apply Nat.ltb_lt; lia).
    rewrite E. symmetry. apply H. lia.
Qed.

Lemma HasFilepathPrefix_iff Clean path prefix :
  HasFilepathPrefix Clean path prefix = true <->
  exists rest, Split (Clean path) "/" = Split (Clean prefix) "/" ++ rest.
Proof.
  unfold HasFilepathPrefix.
  set (p := Split (Clean prefix) "/"). set (q := Split (Clean path) "/").
  destruct (length q <? length p) eqn:E.
  - apply Nat.ltb_lt in E. split; [discriminate|].
    intros [rest H]. rewrite H, length_app in E. lia.
  - apply Nat.ltb_ge in E. rewrite components_agree. split.
    + intros H. exists (skipn (length p) q). now apply components_prefix.
    + intros [rest H] index Hlt. rewrite H. now rewrite app_nth1.
Qed.

(** X14: [HasFilepathPrefix] compares whole components.  It holds exactly
    when the components of the cleaned prefix are the first components of
    the cleaned path; so it is reflexive and transitive, and a path that
    merely starts with the characters of the prefix does not have it. *)
Theorem filepath_prefix_is_a_prefix_of_components (Clean : string -> string) :
  (forall path prefix,
     HasFilepathPrefix Clean path prefix = true <->
     exists rest, Split (Clean path) "/" = Split (Clean prefix) "/" ++ rest) /\
  (forall path, HasFilepathPrefix Clean path path = true) /\
  (forall p q r,
     HasFilepathPrefix Clean p q = true -> HasFilepathPrefix Clean q r = true ->
     HasFilepathPrefix Clean p r = true) /\
  HasFilepathPrefix (fun s => s) "/foo/bar" "/foo" = true /\
  HasFilepathPrefix (fun s => s) "/foobar" "/foo" = false.
Proof.
  split; [|split; [|split; [|split]]].
  - apply HasFilepathPrefix_iff.
  - intros path. apply HasFilepathPrefix_iff. exists []. now rewrite app_nil_r.
  - intros p q r H1 H2. apply HasFilepathPrefix_iff in H1, H2.
    destruct H1 as [rest1 H1]. destruct H2 as [rest2 H2].
    apply HasFilepathPrefix_iff. exists (rest2 ++ rest1).
    now rewrite H1, H2, app_assoc.
  - reflexivity.
  - reflexivity.
Qed.

Lemma Split_first_component c s :
  Ascii.eqb c "/" = false ->
  exists h t, Split (String c s) "/" = String c h :: t.
Proof.
  intros E. cbn [Split]. rewrite E.
  destruct (Split s "/") as [|h t]; [now exists "", []|now exists h, t].
Qed.

(** X15: the root directory is a prefix of no other path.  When the prefix
    cleans to [/] and the path cleans to an absolute path other than the
    root, [HasFilepathPrefix] is false: splitting [/] gives two empty
    components, and the second one is compared with the first name of the
    path. *)
Theorem root_is_not_a_filepath_prefix (Clean : string -> string)
  (path prefix : string) (c : ascii) (s : string) :
  Clean prefix = "/" -> Clean path = String "/" (String c s) ->
  c <> "/"%char ->
  HasFilepathPrefix Clean path prefix = false.
Proof.
  intros Hp Hq Hc.
  destruct (HasFilepathPrefix Clean path prefix) eqn:E; [|reflexivity].
  apply HasFilepathPrefix_iff in E. destruct E as [rest E].
  rewrite Hp, Hq in E.
  assert (Ec : Ascii.eqb c "/" = false) by now apply Ascii.eqb_neq.
  destruct (Split_first_component c s Ec) as (h & t & Hs).
  cbn [Split] in E, Hs. rewrite Ec in E, Hs. cbn [Ascii.eqb] in E.
  simpl in E. rewrite Hs in E. discriminate.
Qed.

(** [/] against [/foo], both clean. *)
Lemma root_is_not_a_filepath_prefix_witness :
  Split "/" "/" = [""; ""] /\ Split "/foo" "/" = [""; "foo"] /\
  HasFilepathPrefix (fun s => s) "/foo" "/" = false.
Proof.
  split; [reflexivity|]. split; [reflexivity|].
  apply (root_is_not_a_filepath_prefix (fun s => s) "/foo" "/" "f" "oo");
    try reflexivity.
  discriminate.
Defined.

(** ** Cleaning a path for Windows *)

Lemma replaceByte_old oldnew c :
  In c (map fst oldnew) -> In (replaceByte oldnew c) (map snd oldnew).
Proof.
  induction oldnew as [|[o n] rest IH]; simpl; [tauto|].
  intros H. destruct (Ascii.eqb o c) eqn:E; [now left|].
  right. apply IH. destruct H as [H|H]; [|exact H].
  apply Ascii.eqb_neq in E. contradiction.
Qed.

Lemma replaceByte_other oldnew c :
  ~ In c (map fst oldnew) -> replaceByte oldnew c = c.
Proof.
  induction oldnew as [|[o n] rest IH]; simpl; [reflexivity|].
  intros H. destruct (Ascii.eqb o c) eqn:E.
  - apply Ascii.eqb_eq in E. tauto.
  - apply IH. tauto.
Qed.

Lemma bytes_Replace oldnew s :
  bytes (Replace oldnew s) = map (replaceByte oldnew) (bytes s).
Proof. induction s as [|c s IH]; simpl; [reflexivity|]. now rewrite IH. Qed.

Lemma bytes_inj s t : bytes s = bytes t -> s = t.
Proof.
  revert t. induction s as [|c s IH]; intros [|d t] H; simpl in H;
    try discriminate; [reflexivity|].
  injection H as -> H. now rewrite (IH t H).
Qed.

Lemma Replace_clean oldnew s :
  (forall c, In c (bytes s) -> ~ In c (map fst oldnew)) -> Replace oldnew s = s.
Proof.
  intros H. apply bytes_inj. rewrite bytes_Replace.
  rewrite <- (map_id (bytes s)) at 2. apply map_ext_in.
  intros c Hc. now apply replaceByte_other, H.
Qed.

Lemma replaced_byte_allowed c :
  ~ In (replaceByte windowsReplacements c) (map fst windowsReplacements).
Proof.
  destruct (in_dec ascii_dec c (map fst windowsReplacements)) as [Hin|Hout].
  - apply replaceByte_old in Hin. intros H.
    simpl in Hin, H.
    repeat (destruct Hin as [Hin|Hin]; [rewrite <- Hin in H; clear Hin|]);
      try contradiction;
      repeat (destruct H as [H|H]; [discriminate H|]); contradiction.
  - now rewrite (replaceByte_other _ _ Hout).
Qed.

Lemma Replace_length oldnew s :
  String.length (Replace oldnew s) = String.length s.
Proof. induction s as [|c s IH]; simpl; [reflexivity|]. now rewrite IH. Qed.

Lemma Replace_bytewise s :
  Forall2 (fun c c' => if in_dec ascii_dec c (map fst windowsReplacements)
                       then c' = "_"%char else c' = c)
    (bytes s) (bytes (Replace windowsReplacements s)).
Proof.
  induction s as [|c s IH]; cbn [bytes Replace]; constructor; [|exact IH].
  destruct (in_dec ascii_dec c (map fst windowsReplacements)) as [Hin|Hout].
  - apply replaceByte_old in Hin. cbn [map snd windowsReplacements In] in Hin.
    repeat (destruct Hin as [Hin|Hin]; [now symmetry|]). contradiction.
  - now apply replaceByte_other.
Qed.

(** X16: [CleanFilePath] and the characters Windows forbids.  The replacer
    keeps the length of the path, leaves every byte other than
    [< > : ? * |] as it is and turns each of these into [_]; its output
    holds none of them, so replacing twice is replacing once, and the result
    of [CleanFilePath] depends on the path only through the replaced
    path. *)
Theorem replacer_removes_forbidden_bytes (s : string) :
  let r := Replace windowsReplacements s in
  String.length r = String.length s /\
  Forall2 (fun c c' => if in_dec ascii_dec c (map fst windowsReplacements)
                       then c' = "_"%char else c' = c)
    (bytes s) (bytes r) /\
  (forall c, In c (bytes r) -> ~ In c ["<"; ">"; ":"; "?"; "*"; "|"]%char) /\
  Replace windowsReplacements r = r /\
  (forall Clean, CleanFilePath Clean r = CleanFilePath Clean s).
Proof.
  intros r.
  assert (Hclean : forall c, In c (bytes r) ->
                     ~ In c (map fst windowsReplacements)).
  { intros c Hc. unfold r in Hc. rewrite bytes_Replace in Hc.
    apply in_map_iff in Hc. destruct Hc as (c0 & <- & _).
    apply replaced_byte_allowed. }
  assert (Hidem : Replace windowsReplacements r = r)
    by now apply Replace_clean.
  split; [|split; [|split; [|split]]].
  - apply Replace_length.
  - apply Replace_bytewise.
  - intros c Hc H. apply (Hclean c Hc). simpl in *. tauto.
  - exact Hidem.
  - intros Clean. unfold CleanFilePath. fold r. now rewrite Hidem.
Qed.

(** ** Reading a file *)

(** X17: [GetFileContents].  It never returns an empty string: a file that
    reads as empty gives nil contents and a nil error.  Contents are
    returned exactly for a file that reads as a non-empty string, unless
    [Lstat] fails with a not-exist error; any other failure of [Lstat] is
    ignored and the file is read all the same. *)
Theorem file_contents_are_never_empty (IsNotExist : error -> bool) (os : OS)
  (path : string) :
  let missing := exists e, Lstat os path = Err e /\ IsNotExist e = true in
  (forall s e, GetFileContents IsNotExist os path <> (Some s, Some e)) /\
  GetFileContents IsNotExist os path <> (Some "", None) /\
  (forall s, GetFileContents IsNotExist os path = (Some s, None) <->
             ~ missing /\ ReadFile os path = Ok s /\ s <> "") /\
  (GetFileContents IsNotExist os path = (None, None) <->
   ~ missing /\ ReadFile os path = Ok "") /\
  (forall e, GetFileContents IsNotExist os path = (None, Some e) <->
             (Lstat os path = Err e /\ IsNotExist e = true) \/
             (~ missing /\ ReadFile os path = Err e)).
Proof.
  intros missing.
  assert (Hcase :
    (exists e0, Lstat os path = Err e0 /\ IsNotExist e0 = true /\
                GetFileContents IsNotExist os path = (None, Some e0)) \/
    (~ missing /\
     GetFileContents IsNotExist os path =
       match ReadFile os path with
       | Err err => (None, Some err)
       | Ok body => if String.eqb body "" then (None, None) else (Some body, None)
       end)).
  { unfold GetFileContents, missing.
    destruct (Lstat os path) as [st|e0] eqn:EL.
    - right. split; [|reflexivity]. intros (e & He & _). discriminate.
    - destruct (IsNotExist e0) eqn:EN.
      + left. exists e0. now repeat split.
      + right. split; [|reflexivity]. intros (e & He & Hn). congruence. }
  destruct Hcase as [(e0 & HL & HN & ->)|(Hm & ->)].
  - assert (Hmiss : missing) by (exists e0; now split).
    split; [discriminate|]. split; [discriminate|].
    split; [|split].
    + intros s. split; [discriminate|]. intros (H & _). contradiction.
    + split; [discriminate|]. intros (H & _). contradiction.
    + intros e. split.
      * intros H. injection H as <-. left. now split.
      * intros [[H _]|[H _]]; [congruence|contradiction].
  - destruct (ReadFile os path) as [body|e1] eqn:ER.
    + destruct (String.eqb body "") eqn:E.
      * apply String.eqb_eq in E. subst body.
        split; [discriminate|]. split; [discriminate|].
        split; [|split].
        -- intros s. split; [discriminate|]. intros (_ & H1 & H2). congruence.
        -- split; [now split|reflexivity].
        -- intros e. split; [discriminate|].
           intros [[H1 H2]|[_ H]]; [|discriminate].
           exfalso. apply Hm. exists e. now split.
      * apply String.eqb_neq in E.
        split; [discriminate|]. split; [congruence|].
        split; [|split].
        -- intros s. split.
           ++ intros H. injection H as <-. now repeat split.
           ++ intros (_ & H1 & _). congruence.
        -- split; [discriminate|]. intros (_ & H1). congruence.
        -- intros e. split; [discriminate|].
           intros [[H1 H2]|[_ H]]; [|discriminate].
           exfalso. apply Hm. exists e. now split.
    + split; [discriminate|]. split; [discriminate|].
      split; [|split].
      * intros s. split; [discriminate|]. intros (_ & H1 & _). discriminate.
      * split; [discriminate|]. intros (_ & H1). discriminate.
      * intros e. split.
        -- intros H. injection H as <-. right. now split.
        -- intros [[H1 H2]|[_ H]]; [|congruence].
           exfalso. apply Hm. exists e. now split.
Qed.

(** ** Diffing one file *)

(** X18: [DiffFile], case by case.  When both files can be read: if one of
    them is empty, or both hold the same text, [DiffFile] returns a diff with
    a description that is not empty and no error, neither [SplitLines] nor
    [GetUnifiedDiffString] plays a part, and the two images can be swapped
    without changing the result; if both hold text and the texts differ, the
    diff holds what [GetUnifiedDiffString] returns for the lines of the two
    files, labelled with the two image sources, under an empty description
    (the messages are assigned to inner variables only), and an error of the
    differ is returned with a nil diff. *)
Theorem diff_file_case_by_case (IsNotExist : error -> bool)
  (os : OS) (image1 image2 : Image) (filename : string)
  (contents1 contents2 : option string) :
  GetFileContents IsNotExist os (Join os (FSPath image1) filename)
    = (contents1, None) ->
  GetFileContents IsNotExist os (Join os (FSPath image2) filename)
    = (contents2, None) ->
  (contents1 = None \/ contents2 = None \/ contents1 = contents2 ->
   exists d,
     fdFilename d = filename /\ fdDescription d <> "" /\
     (forall SplitLines GetUnifiedDiffString,
        DiffFile IsNotExist SplitLines GetUnifiedDiffString os image1 image2
          filename = (Some d, None) /\
        DiffFile IsNotExist SplitLines GetUnifiedDiffString os image2 image1
          filename = (Some d, None))) /\
  (forall c1 c2 SplitLines GetUnifiedDiffString,
     contents1 = Some c1 -> contents2 = Some c2 -> c1 <> c2 ->
     DiffFile IsNotExist SplitLines GetUnifiedDiffString os image1 image2 filename =
     match GetUnifiedDiffString (SplitLines c1) (SplitLines c2)
             (Source image1) (Source image2) with
     | Err err => (None, Some err)
     | Ok text => (Some (mkFileNameDiff filename "" text), None)
     end).
Proof.
  intros H1 H2. split.
  - intros Hc. unfold DiffFile. rewrite H1, H2.
    destruct contents1 as [c1|], contents2 as [c2|].
    + assert (E : c1 = c2) by (destruct Hc as [Hc|[Hc|Hc]]; congruence).
      subst c2. clear Hc. rewrite String.eqb_refl.
      exists (mkFileNameDiff filename
                "Both files are the same, the contents are:" c1).
      split; [reflexivity|]. split; [discriminate|]. intros. now split.
    + exists (mkFileNameDiff filename
                (String.append (Source image2)
                   (String.append " contains an empty file, the contents of "
                      (String.append (Source image1) " are:"))) c1).
      split; [reflexivity|]. split; [|intros; now split].
      simpl. destruct (Source image2); discriminate.
    + exists (mkFileNameDiff filename
                (String.append (Source image1)
                   (String.append " contains an empty file, the contents of "
                      (String.append (Source image2) " are:"))) c2).
      split; [reflexivity|]. split; [|intros; now split].
      simpl. destruct (Source image1); discriminate.
    + exists (mkFileNameDiff filename "Both files are empty" "").
      split; [reflexivity|]. split; [discriminate|]. intros. now split.
  - intros c1 c2 SplitLines GetUnifiedDiffString -> -> Hne.
    unfold DiffFile. rewrite H1, H2.
    apply String.eqb_neq in Hne. now rewrite Hne.
Qed.

(** [notes] is empty in the first image; [motd] differs. *)
Lemma diff_file_case_by_case_witness :
  DiffFile isENOENT oneLine plainDiff storageOS imageFirst imageSecond "notes" =
    (Some (mkFileNameDiff "notes"
             "one contains an empty file, the contents of two are:" "hi"), None) /\
  (exists d,
     fdDescription d <> "" /\
     DiffFile isENOENT oneLine plainDiff storageOS imageFirst imageSecond "notes"
       = (Some d, None) /\
     DiffFile isENOENT oneLine plainDiff storageOS imageSecond imageFirst "notes"
       = (Some d, None)) /\
  DiffFile isENOENT oneLine plainDiff storageOS imageFirst imageSecond "motd" =
    (Some (mkFileNameDiff "motd" "" "--- one +++ two hi ho"), None).
Proof.
  split; [reflexivity|]. split.
  - destruct (proj1 (diff_file_case_by_case isENOENT storageOS imageFirst
                       imageSecond "notes" None (Some "hi") eq_refl eq_refl)
                (or_introl eq_refl)) as (d & _ & Hd & Hall).
    exists d. split; [exact Hd|]. exact (Hall oneLine plainDiff).
  - apply (proj2 (diff_file_case_by_case isENOENT storageOS imageFirst
                    imageSecond "motd" (Some "hi") (Some "ho") eq_refl eq_refl)
             "hi" "ho" oneLine plainDiff eq_refl eq_refl).
    discriminate.
Defined.

(** ** Rendering sizes *)

Lemma CreateDirectoryEntries_stat_error os root names name e : forall entries,
  CreateDirectoryEntries os root names = Ret entries ->
  In name names -> Lstat os (Join os root name) = Err e ->
  In (mkDirectoryEntry name (-1)) entries.
Proof.
  intros entries H Hin He.
  apply (CreateDirectoryEntries_In os root names name (-1)%Z entries H Hin).
  now apply (GetSize_stat_error os _ e).
Qed.

(** X19: rendering the sizes of a diff.  [stringifySize] renders [-1] as
    [unknown] without asking [bytefmt]; a size from [0] on is handed over as
    it is, any other negative one as its conversion to [uint64].
    So in the rendering of a diff that [DiffDirectory] returns, the names are
    those of [Adds] in the same order, and an added entry whose stat failed
    shows the size [unknown]. *)
Theorem unknown_size_is_rendered_as_unknown (ByteSize : N -> string)
  (os : OS) (d1 d2 : Directory) (diff : DirDiff) (same : bool) :
  DiffDirectory os d1 d2 = Ret (diff, same) ->
  stringifySize ByteSize (-1) = "unknown" /\
  (forall size, (0 <= size < 2 ^ 63)%Z ->
     stringifySize ByteSize size = ByteSize (Z.to_N size)) /\
  (forall size, (- 2 ^ 63 <= size < -1)%Z ->
     stringifySize ByteSize size = ByteSize (Z.to_N (2 ^ 64 + size))) /\
  map sdName (stringifyDirectoryEntries ByteSize (Adds diff)) =
    sortStrings (GetAddedEntries d1 d2) /\
  (forall name e,
     In name (GetAddedEntries d1 d2) ->
     Lstat os (Join os (Root d2) name) = Err e ->
     In (mkStrDirectoryEntry name "unknown")
        (stringifyDirectoryEntries ByteSize (Adds diff))).
Proof.
  intros H. apply DiffDirectory_inv in H.
  destruct H as (Ha & _ & _ & Hc & _).
  split; [reflexivity|]. split; [|split; [|split]].
  - intros size Hs. unfold stringifySize, uint64.
    assert (E : (size =? -1)%Z = false) by (apply Z.eqb_neq; lia).
    rewrite E. cbn [negb]. now rewrite Z.mod_small by lia.
  - intros size Hs. unfold stringifySize, uint64.
    assert (E : (size =? -1)%Z = false) by (apply Z.eqb_neq; lia).
    rewrite E. cbn [negb]. do 2 f_equal.
    symmetry. apply (Z.mod_unique size (2 ^ 64) (-1)); lia.
  - unfold stringifyDirectoryEntries. rewrite map_map. cbn [sdName].
    exact Ha.
  - intros name e Hin He.
    apply (proj2 (sortStrings_In _ _)) in Hin.
    pose proof (CreateDirectoryEntries_stat_error _ _ _ name e _ Hc Hin He) as Hent.
    unfold stringifyDirectoryEntries.
    apply in_map_iff. exists (mkDirectoryEntry name (-1)). now split.
Qed.

(** [/gone] is added and cannot be stat'ed; [/c] has 5 bytes. *)
Lemma unknown_size_is_rendered_as_unknown_witness :
  DiffDirectory exampleOS (dT1 []) (dT2 ["/gone"; "/c"]) =
    Ret (mkDirDiff [mkDirectoryEntry "/c" 5; mkDirectoryEntry "/gone" (-1)] [] [],
         false) /\
  stringifyDirectoryEntries plainByteSize
    [mkDirectoryEntry "/c" 5; mkDirectoryEntry "/gone" (-1)] =
    [mkStrDirectoryEntry "/c" "5B"; mkStrDirectoryEntry "/gone" "unknown"] /\
  In (mkStrDirectoryEntry "/gone" "unknown")
     (stringifyDirectoryEntries plainByteSize
        [mkDirectoryEntry "/c" 5; mkDirectoryEntry "/gone" (-1)]).
Proof.
  split; [reflexivity|]. split; [reflexivity|].
  destruct (unknown_size_is_rendered_as_unknown plainByteSize exampleOS
              (dT1 []) (dT2 ["/gone"; "/c"]) _ _ eq_refl)
    as (_ & _ & _ & _ & H).
  apply (H "/gone" ENOENT); [|reflexivity].
  vm_compute. now left.
Defined.

(** ** The analyzers *)

Lemma diffImageFileMetadata_listings os img1 img2 :
  exists c1 c2,
    GetDirectory os img1 true = Ret (mkDirectory img1 c1, None) /\
    GetDirectory os img2 true = Ret (mkDirectory img2 c2, None) /\
    diffImageFileMetadata os img1 img2 =
      Ret (fst (fst (DiffDirectoryMetadata os (mkDirectory img1 c1)
                       (mkDirectory img2 c2))),
           snd (DiffDirectoryMetadata os (mkDirectory img1 c1)
                  (mkDirectory img2 c2))).
Proof.
  destruct (GetDirectory_deep_no_error os img1) as [c1 H1].
  destruct (GetDirectory_deep_no_error os img2) as [c2 H2].
  exists c1, c2. split; [exact H1|]. split; [exact H2|].
  unfold diffImageFileMetadata. rewrite H1. cbn [bind fst snd].
  rewrite H2. cbn [bind fst snd].
  destruct (DiffDirectoryMetadata os (mkDirectory img1 c1) (mkDirectory img2 c2))
    as [[diff same] [e|]] eqn:E; cbn [fst snd]; [|reflexivity].
  apply DiffDirectoryMetadata_error in E. destruct E as [-> _]. reflexivity.
Qed.

Lemma diffImageFileMetadata_same os img :
  diffImageFileMetadata os img img = Ret (emptyMetaDirDiff, None).
Proof.
  destruct (diffImageFileMetadata_listings os img img)
    as (c1 & c2 & H1 & H2 & ->).
  assert (E : c1 = c2) by congruence. subst c2.
  now rewrite DiffDirectoryMetadata_same.
Qed.

(** X20: the metadata diff of two images always returns.
    [diffImageFileMetadata] never panics and its two checks of the listing
    error never fire: its outcome is that of [DiffDirectoryMetadata] on the
    two deep listings, an error of which comes with the empty diff.
    [FileMetaAnalyzer.Diff] wraps it in a result that names both image
    sources, also beside an error. *)
Theorem image_meta_diff_always_returns (os : OS) (image1 image2 : Image) :
  exists c1 c2,
    GetDirectory os (FSPath image1) true
      = Ret (mkDirectory (FSPath image1) c1, None) /\
    GetDirectory os (FSPath image2) true
      = Ret (mkDirectory (FSPath image2) c2, None) /\
    forall diff same err,
      DiffDirectoryMetadata os (mkDirectory (FSPath image1) c1)
        (mkDirectory (FSPath image2) c2) = (diff, same, err) ->
      diffImageFileMetadata os (FSPath image1) (FSPath image2) = Ret (diff, err) /\
      FileMetaAnalyzer_Diff os image1 image2 =
        Ret (mkMetaDirDiffResult (Source image1) (Source image2) "FileMeta" diff,
             err) /\
      (err <> None -> diff = emptyMetaDirDiff).
Proof.
  destruct (diffImageFileMetadata_listings os (FSPath image1) (FSPath image2))
    as (c1 & c2 & H1 & H2 & H).
  exists c1, c2. split; [exact H1|]. split; [exact H2|].
  intros diff same err E. rewrite E in H. cbn [fst snd] in H.
  split; [exact H|]. split.
  - unfold FileMetaAnalyzer_Diff. rewrite H. reflexivity.
  - intros Herr. destruct err as [e|]; [|congruence].
    apply DiffDirectoryMetadata_error in E. tauto.
Qed.

Lemma skipn_cons_inv {T} (d : T) l : forall index x rest,
  skipn index l = x :: rest ->
  index < length l /\ nth index l d = x /\ skipn (S index) l = rest.
Proof.
  induction l as [|y l IH]; intros index x rest H.
  - destruct index; discriminate.
  - destruct index as [|index].
    + simpl in H. injection H as -> ->. simpl. repeat split. lia.
    + simpl in H. destruct (IH _ _ _ H) as (H1 & H2 & H3).
      simpl. repeat split; try assumption. lia.
Qed.

Lemma layerLoop_same os layers : forall rest index acc,
  skipn index layers = rest ->
  layerLoop os rest index layers acc =
  Ret (acc ++ repeat emptyMetaDirDiff (length rest), None).
Proof.
  induction rest as [|layer rest IH]; intros index acc H.
  - simpl. now rewrite app_nil_r.
  - destruct (skipn_cons_inv (mkLayer "") _ _ _ _ H) as (Hlt & Hn & Hs).
    cbn [layerLoop].
    assert (E : (length layers <=? index) = false) by (apply Nat.leb_gt; lia).
    rewrite E, Hn, diffImageFileMetadata_same. cbn [bind fst snd].
    rewrite (IH (S index) _ Hs). cbn [length repeat].
    now rewrite <- app_assoc.
Qed.

(** X21: an image against itself.  Whatever the file system answers, the
    metadata diff of an image with itself is empty and has no error, and the
    layer-wise diff holds one empty diff for every layer. *)
Theorem image_against_itself_has_no_meta_diff (os : OS) (image : Image) :
  FileMetaAnalyzer_Diff os image image =
    Ret (mkMetaDirDiffResult (Source image) (Source image) "FileMeta"
           emptyMetaDirDiff, None) /\
  FileMetaLayerAnalyzer_Diff os image image =
    Ret (MultipleMetaDirDiffResult (Source image) (Source image) "FileMetaLayer"
           (mkMultipleMetaDirDiff
              (repeat emptyMetaDirDiff (length (Layers image)))), None).
Proof.
  split.
  - unfold FileMetaAnalyzer_Diff. now rewrite diffImageFileMetadata_same.
  - unfold FileMetaLayerAnalyzer_Diff.
    now rewrite (layerLoop_same os (Layers image) (Layers image) 0 [] eq_refl).
Qed.

Lemma layerLoop_fails os layers2 e : forall layers1 index acc k d,
  k < length layers1 -> index + k < length layers2 ->
  (forall i, i < k -> exists d',
     diffImageFileMetadata os (LayerFSPath (nth i layers1 (mkLayer "")))
       (LayerFSPath (nth (index + i) layers2 (mkLayer ""))) = Ret (d', None)) ->
  diffImageFileMetadata os (LayerFSPath (nth k layers1 (mkLayer "")))
    (LayerFSPath (nth (index + k) layers2 (mkLayer ""))) = Ret (d, Some e) ->
  exists ds, layerLoop os layers1 index layers2 acc = Ret (ds, Some e).
Proof.
  induction layers1 as [|layer rest IH]; intros index acc k d Hk Hi Hok Hfail;
    [simpl in Hk; lia|].
  cbn [layerLoop].
  assert (E : (length layers2 <=? index) = false) by (apply Nat.leb_gt; lia).
  rewrite E. destruct k as [|k].
  - rewrite Nat.add_0_r in Hfail. cbn [nth] in Hfail. rewrite Hfail.
    now exists acc.
  - destruct (Hok 0 ltac:(lia)) as [d0 H0].
    rewrite Nat.add_0_r in H0. cbn [nth] in H0. rewrite H0. cbn [bind fst snd].
    apply (IH (S index) _ k d).
    + simpl in Hk. lia.
    + lia.
    + intros i Hlt. destruct (Hok (S i) ltac:(lia)) as [d' H'].
      exists d'. cbn [nth] in H'.
      now replace (S index + i) with (index + S i) by lia.
    + cbn [nth] in Hfail.
      now replace (S index + k) with (index + S k) by lia.
Qed.

(** X22: the first failing pair of layers.  When the pairs of layers before
    position [k] compare without an error and the pair at [k] gives the error
    [e], [FileMetaLayerAnalyzer.Diff] returns [e] with the zero result: the
    diffs of the earlier pairs are dropped and the later pairs are not
    looked at. *)
Theorem first_failing_layer_pair_aborts (os : OS) (image1 image2 : Image)
  (k : nat) (d : MetaDirDiff) (e : error) :
  k < length (Layers image1) -> k < length (Layers image2) ->
  (forall i, i < k -> exists d',
     diffImageFileMetadata os
       (LayerFSPath (nth i (Layers image1) (mkLayer "")))
       (LayerFSPath (nth i (Layers image2) (mkLayer ""))) = Ret (d', None)) ->
  diffImageFileMetadata os
    (LayerFSPath (nth k (Layers image1) (mkLayer "")))
    (LayerFSPath (nth k (Layers image2) (mkLayer ""))) = Ret (d, Some e) ->
  FileMetaLayerAnalyzer_Diff os image1 image2 =
    Ret (MultipleDirDiffResultZero, Some e).
Proof.
  intros H1 H2 Hok Hfail. unfold FileMetaLayerAnalyzer_Diff.
  destruct (layerLoop_fails os (Layers image2) e (Layers image1) 0 [] k d
              H1 H2 Hok Hfail) as [ds ->].
  reflexivity.
Qed.

(** The second layer of [imageBroken] lists an entry that cannot be
    stat'ed. *)
Lemma first_failing_layer_pair_aborts_witness :
  diffImageFileMetadata storageOS "/empty" "/empty" = Ret (emptyMetaDirDiff, None) /\
  diffImageFileMetadata storageOS "/broken" "/empty" =
    Ret (emptyMetaDirDiff, Some ENOENT) /\
  FileMetaLayerAnalyzer_Diff storageOS imageBroken imageFine =
    Ret (MultipleDirDiffResultZero, Some ENOENT).
Proof.
  split; [reflexivity|]. split; [reflexivity|].
  apply (first_failing_layer_pair_aborts storageOS imageBroken imageFine 1
           emptyMetaDirDiff ENOENT).
  - simpl. lia.
  - simpl. lia.
  - intros i Hi. exists emptyMetaDirDiff.
    destruct i as [|i]; [reflexivity|lia].
  - reflexivity.
Defined.

Lemma analyzeLoop_ok os : forall layers acc res,
  analyzeLoop os layers acc = Ret (res, None) ->
  exists es,
    res = acc ++ es /\ length es = length layers /\
    forall i, i < length layers ->
      exists content,
        GetDirectory os (LayerFSPath (nth i layers (mkLayer ""))) true =
          Ret (mkDirectory (LayerFSPath (nth i layers (mkLayer ""))) content, None) /\
        CreateDirectoryMetaEntries os (LayerFSPath (nth i layers (mkLayer "")))
          content = (nth i es [], None).
Proof.
  induction layers as [|layer rest IH]; intros acc res H; cbn [analyzeLoop] in H.
  - injection H as <-. exists []. rewrite app_nil_r. repeat split.
    intros i Hi. simpl in Hi. lia.
  - destruct (GetDirectory_deep_no_error os (LayerFSPath layer)) as [content Hd].
    rewrite Hd in H. cbn [bind fst snd] in H.
    unfold GetDirectoryMetaEntries in H. cbn [Root Content] in H.
    destruct (CreateDirectoryMetaEntries os (LayerFSPath layer) content)
      as [entry [e|]] eqn:Ee; [discriminate|].
    destruct (IH _ _ H) as (es & -> & Hl & Hi).
    exists (entry :: es). split; [now rewrite <- app_assoc|].
    split; [simpl; now rewrite Hl|].
    intros [|i] Hlt.
    + exists content. now split.
    + simpl in Hlt. apply Hi. lia.
Qed.

Lemma analyzeLoop_returns os : forall layers acc,
  exists r, analyzeLoop os layers acc = Ret r.
Proof.
  induction layers as [|layer rest IH]; intros acc; cbn [analyzeLoop]; [eauto|].
  destruct (GetDirectory_deep_no_error os (LayerFSPath layer)) as [content ->].
  cbn [bind fst snd].
  destruct (GetDirectoryMetaEntries os _) as [entry [e|]]; [eauto|apply IH].
Qed.

(** X23: analyzing the layers of an image.  [FileMetaLayerAnalyzer.Analyze]
    always returns; a result without an error holds one listing for every
    layer of the image, in the order of the layers, and the listing of a
    layer is the one [FileMetaAnalyzer.Analyze] gives for an image rooted at
    that layer: the entries of the deep listing in walk order (they are not
    sorted), each with the metadata of its [Lstat]. *)
Theorem layer_analysis_lists_every_layer (os : OS) (image : Image) :
  (exists r, FileMetaLayerAnalyzer_Analyze os image = Ret r) /\
  forall res, FileMetaLayerAnalyzer_Analyze os image = Ret (res, None) ->
    lrImage res = Source image /\
    length (lrAnalysis res) = length (Layers image) /\
    forall i, i < length (Layers image) ->
      let path := LayerFSPath (nth i (Layers image) (mkLayer "")) in
      FileMetaAnalyzer_Analyze os (mkImage (Source image) path []) =
        Ret (mkFileMetaAnalyzeResult (Source image) "FileMeta"
               (nth i (lrAnalysis res) []), None) /\
      GetDirectory os path true =
        Ret (mkDirectory path (map dmName (nth i (lrAnalysis res) [])), None).
Proof.
  split.
  - unfold FileMetaLayerAnalyzer_Analyze.
    destruct (analyzeLoop_returns os (Layers image) []) as [[res [e|]] ->];
      cbn [bind fst snd]; eauto.
  - intros res H. unfold FileMetaLayerAnalyzer_Analyze in H.
    destruct (analyzeLoop os (Layers image) []) as [[es [e|]]|] eqn:E;
      cbn [bind fst snd] in H; try discriminate.
    injection H as <-. cbn [lrImage lrAnalysis].
    destruct (analyzeLoop_ok os _ _ _ E) as (es' & Hes & Hl & Hi).
    simpl in Hes. subst es'.
    split; [reflexivity|]. split; [exact Hl|].
    intros i Hlt. cbv zeta. destruct (Hi i Hlt) as (content & Hd & Hc).
    pose proof (CreateDirectoryMetaEntries_names _ _ _ _ Hc) as Hn.
    split.
    + unfold FileMetaAnalyzer_Analyze. cbn [FSPath Source].
      rewrite Hd. cbn [bind fst snd]. unfold GetDirectoryMetaEntries.
      cbn [Root Content]. now rewrite Hc.
    + now rewrite Hn.
Qed.

(** The three layers of [imageOne]. *)
Lemma layer_analysis_lists_every_layer_witness :
  FileMetaLayerAnalyzer_Analyze exampleOS imageOne =
    Ret (mkFileMetaLayerAnalyzeResult "one" "FileMetaLayer"
           [[mkDirectoryMetaEntry "/f" 420 0 0];
            [mkDirectoryMetaEntry "/g" 420 0 0]; []], None) /\
  FileMetaAnalyzer_Analyze exampleOS (mkImage "one" "/layer2" []) =
    Ret (mkFileMetaAnalyzeResult "one" "FileMeta"
           [mkDirectoryMetaEntry "/g" 420 0 0], None).
Proof.
  split; [reflexivity|].
  destruct (proj2 (layer_analysis_lists_every_layer exampleOS imageOne) _ eq_refl)
    as (_ & _ & H).
  exact (proj1 (H 1 ltac:(simpl; lia))).
Defined.

(** ** Swapping the trees: content *)

Lemma CheckSameSymlink_swap os p q :
  (let '(same, err) := CheckSameSymlink os p q in
   match err with Some _ => false | None => negb same end) =
  (let '(same, err) := CheckSameSymlink os q p in
   match err with Some _ => false | None => negb same end).
Proof.
  unfold CheckSameSymlink.
  destruct (Readlink os p) as [l1|e1], (Readlink os q) as [l2|e2];
    try reflexivity.
  now rewrite String.eqb_sym.
Qed.

Lemma CheckSameFile_swap os p q :
  (let '(same, err) := CheckSameFile os p q in
   match err with Some _ => false | None => negb same end) =
  (let '(same, err) := CheckSameFile os q p in
   match err with Some _ => false | None => negb same end).
Proof.
  unfold CheckSameFile.
  destruct (Lstat os p) as [s1|e1], (Lstat os q) as [s2|e2]; try reflexivity.
  rewrite (Z.eqb_sym (fiSize s2)).
  destruct (fiSize s1 =? fiSize s2)%Z; [|reflexivity]. cbn [negb].
  destruct (ReadFile os p) as [b1|e1], (ReadFile os q) as [b2|e2];
    try reflexivity.
  rewrite (String.eqb_sym b2). now destruct (String.eqb b1 b2).
Qed.

(** X24: when the content rules do not depend on the order of the trees.
    The rules of [GetModifiedEntries] look at the first side only to decide
    whether an entry is a tar or a directory.  For a candidate on which the
    two sides agree in both respects the verdict is the same with the trees
    swapped (a failing stat, link or read gives no modification either
    way). *)
Theorem content_rule_symmetric_for_same_kind (os : OS) (d1 d2 : Directory)
  (f : string) :
  (forall f1stat f2stat,
     Lstat os (String.append (Root d1) f) = Ok f1stat ->
     Lstat os (String.append (Root d2) f) = Ok f2stat ->
     IsDir f1stat = IsDir f2stat) ->
  IsTar os (String.append (Root d1) f) = IsTar os (String.append (Root d2) f) ->
  contentModified os d1 d2 f = contentModified os d2 d1 f.
Proof.
  intros HD HT. unfold contentModified.
  destruct (Lstat os (String.append (Root d1) f)) as [s1|e1] eqn:E1;
    destruct (Lstat os (String.append (Root d2) f)) as [s2|e2] eqn:E2;
    try reflexivity.
  rewrite (andb_comm (isSymlink s2)), <- HT, <- (HD s1 s2 eq_refl eq_refl).
  rewrite (Z.eqb_sym (fiSize s2)).
  destruct (isSymlink s1 && isSymlink s2).
  - apply (CheckSameSymlink_swap os).
  - destruct (IsTar os (String.append (Root d1) f)); [reflexivity|].
    destruct (negb (IsDir s1)); [|reflexivity].
    apply (CheckSameFile_swap os).
Qed.

(** [/x] holds [hi] in [/t1] and [ho] in [/t2]; neither side is a tar or a
    directory. *)
Lemma content_rule_symmetric_for_same_kind_witness :
  IsDir (symlink 2) = IsDir (regular 2) /\
  contentModified exampleOS (dT1 ["/x"]) (dT2 ["/x"]) "/x" = true /\
  contentModified exampleOS (dT2 ["/x"]) (dT1 ["/x"]) "/x" = true.
Proof.
  split; [reflexivity|].
  assert (H : contentModified exampleOS (dT1 ["/x"]) (dT2 ["/x"]) "/x" = true)
    by reflexivity.
  split; [exact H|].
  rewrite <- (content_rule_symmetric_for_same_kind exampleOS
                (dT1 ["/x"]) (dT2 ["/x"]) "/x").
  - exact H.
  - intros f1stat f2stat H1 H2.
    injection H1 as <-. injection H2 as <-. reflexivity.
  - reflexivity.
Defined.

(** ** Where the errors of the metadata diff come from *)

Lemma CreateDirectoryMetaEntries_error os root names e : forall entries,
  CreateDirectoryMetaEntries os root names = (entries, Some e) ->
  entries = [] /\
  exists name, In name names /\ Lstat os (Join os root name) = Err e.
Proof.
  induction names as [|name rest IH]; intros entries H; simpl in H;
    [discriminate|].
  destruct (Lstat os (Join os root name)) as [st|e0] eqn:E.
  - destruct (CreateDirectoryMetaEntries os root rest) as [es [e1|]] eqn:Er;
      [|discriminate].
    injection H as <- <-. split; [reflexivity|].
    destruct (IH es eq_refl) as (_ & n & Hin & Hn).
    exists n. split; [now right|exact Hn].
  - injection H as <- <-. split; [reflexivity|].
    exists name. split; [now left|exact E].
Qed.

Lemma createMetaEntryDiffs_error os root1 root2 names e : forall entries,
  createMetaEntryDiffs os root1 root2 names = (entries, Some e) ->
  entries = [] /\
  exists name, In name names /\
    (Lstat os (Join os root1 name) = Err e \/
     Lstat os (Join os root2 name) = Err e).
Proof.
  induction names as [|name rest IH]; intros entries H; simpl in H;
    [discriminate|].
  destruct (Lstat os (Join os root1 name)) as [s1|e1] eqn:E1.
  - destruct (Lstat os (Join os root2 name)) as [s2|e2] eqn:E2.
    + destruct (createMetaEntryDiffs os root1 root2 rest) as [es [e3|]] eqn:Er;
        [|discriminate].
      injection H as <- <-. split; [reflexivity|].
      destruct (IH es eq_refl) as (_ & n & Hin & Hn).
      exists n. split; [now right|exact Hn].
    + injection H as <- <-. split; [reflexivity|].
      exists name. split; [now left|now right].
  - injection H as <- <-. split; [reflexivity|].
    exists name. split; [now left|now left].
Qed.

(** X25: where the errors of the metadata diff come from.  An error of
    [DiffDirectoryMetadata] is always the error of an [Lstat] on the joined
    path of an added entry in the second tree, of a deleted entry in the
    first, or of a modified entry in one of the two.  When [filepath.Join]
    of a root and a matched name is their concatenation the last case cannot
    occur (a modified entry was stat'ed on both sides before), so a
    comparison without added and deleted entries has no error. *)
Theorem meta_diff_errors_are_stat_errors (os : OS) (d1 d2 : Directory)
  (diff : MetaDirDiff) (same : bool) (e : error) :
  DiffDirectoryMetadata os d1 d2 = (diff, same, Some e) ->
  ((exists name, In name (GetAddedEntries d1 d2) /\
                 Lstat os (Join os (Root d2) name) = Err e) \/
   (exists name, In name (GetDeletedEntries d1 d2) /\
                 Lstat os (Join os (Root d1) name) = Err e) \/
   (exists name, In name (GetModifiedMetaEntries os d1 d2) /\
                 (Lstat os (Join os (Root d1) name) = Err e \/
                  Lstat os (Join os (Root d2) name) = Err e))) /\
  ((forall f, In f (Content d1) ->
      Join os (Root d1) f = String.append (Root d1) f /\
      Join os (Root d2) f = String.append (Root d2) f) ->
   GetAddedEntries d1 d2 <> [] \/ GetDeletedEntries d1 d2 <> []).
Proof.
  intros H.
  assert (Hsrc :
    (exists name, In name (GetAddedEntries d1 d2) /\
                  Lstat os (Join os (Root d2) name) = Err e) \/
    (exists name, In name (GetDeletedEntries d1 d2) /\
                  Lstat os (Join os (Root d1) name) = Err e) \/
    (exists name, In name (GetModifiedMetaEntries os d1 d2) /\
                  (Lstat os (Join os (Root d1) name) = Err e \/
                   Lstat os (Join os (Root d2) name) = Err e))).
  { unfold DiffDirectoryMetadata in H.
    destruct (CreateDirectoryMetaEntries os (Root d2) _) as [adds [e1|]] eqn:Ea.
    - injection H as _ _ <-.
      destruct (CreateDirectoryMetaEntries_error _ _ _ _ _ Ea) as (_ & n & Hin & Hn).
      left. exists n. split; [|exact Hn]. now apply (proj1 (sortStrings_In _ _)).
    - destruct (CreateDirectoryMetaEntries os (Root d1) _) as [dels [e2|]] eqn:Ed.
      + injection H as _ _ <-.
        destruct (CreateDirectoryMetaEntries_error _ _ _ _ _ Ed)
          as (_ & n & Hin & Hn).
        right. left. exists n. split; [|exact Hn].
        now apply (proj1 (sortStrings_In _ _)).
      + destruct (createMetaEntryDiffs os (Root d1) (Root d2) _)
          as [mods [e3|]] eqn:Em; [|discriminate].
        injection H as _ _ <-.
        destruct (createMetaEntryDiffs_error _ _ _ _ _ _ Em)
          as (_ & n & Hin & Hn).
        right. right. exists n. split; [|exact Hn].
        now apply (proj1 (sortStrings_In _ _)). }
  split; [exact Hsrc|].
  intros HJ.
  destruct Hsrc as [(n & Hin & _)|[(n & Hin & _)|(n & Hin & Hn)]].
  - left. intros E. rewrite E in Hin. contradiction.
  - right. intros E. rewrite E in Hin. contradiction.
  - exfalso. apply (proj1 (GetModifiedMetaEntries_In _ _ _ _)) in Hin.
    destruct Hin as [Hm Hmeta].
    destruct (GetMatches_both _ _ _ Hm) as [Hc1 _].
    destruct (HJ n Hc1) as [J1 J2]. rewrite J1, J2 in Hn.
    unfold metaModified in Hmeta.
    destruct Hn as [Hn|Hn]; rewrite Hn in Hmeta; [discriminate|].
    destruct (Lstat os (String.append (Root d1) n)); discriminate.
Qed.

(** [/gone] is listed in the second tree and cannot be stat'ed. *)
Lemma meta_diff_errors_are_stat_errors_witness :
  DiffDirectoryMetadata exampleOS (dT1 ["/a"]) (dT2 ["/a"; "/gone"]) =
    (emptyMetaDirDiff, false, Some ENOENT) /\
  GetAddedEntries (dT1 ["/a"]) (dT2 ["/a"; "/gone"]) = ["/gone"] /\
  Lstat exampleOS (Join exampleOS "/t2" "/gone") = Err ENOENT /\
  (GetAddedEntries (dT1 ["/a"]) (dT2 ["/a"; "/gone"]) <> [] \/
   GetDeletedEntries (dT1 ["/a"]) (dT2 ["/a"; "/gone"]) <> []).
Proof.
  split; [reflexivity|]. split; [reflexivity|]. split; [reflexivity|].
  apply (proj2 (meta_diff_errors_are_stat_errors exampleOS
                  (dT1 ["/a"]) (dT2 ["/a"; "/gone"]) _ _ ENOENT eq_refl)).
  intros f [<-|[]]. split; reflexivity.
Defined.

(** ** Rendering metadata loses nothing *)

Lemma split_at_space s : forall s' t t',
  spaceFree s -> spaceFree s' ->
  String.append s (String " " t) = String.append s' (String " " t') ->
  s = s' /\ t = t'.
Proof.
  unfold spaceFree.
  induction s as [|c s IH]; intros [|c' s'] t t' Hs Hs' H; simpl in *.
  - injection H as <-. now split.
  - injection H as <- _. tauto.
  - injection H as -> _. tauto.
  - injection H as <- H. destruct (IH s' t t') as [<- <-]; tauto.
Qed.

Lemma spaceFree_decimal d : spaceFree (NilEmpty.string_of_uint d).
Proof.
  unfold spaceFree. induction d; simpl; intros H; try contradiction;
    destruct H as [H|H]; try discriminate; contradiction.
Qed.

Lemma spaceFree_fmtDecimal n : spaceFree (fmtDecimal n).
Proof.
  unfold fmtDecimal, NilZero.string_of_uint.
  destruct (N.to_uint n) eqn:E; try (rewrite <- E; clear E);
    try apply spaceFree_decimal.
  unfold spaceFree. simpl. intros [H|[]]. discriminate.
Qed.

Ltac octal_digit H :=
  simpl in H; destruct H as [H|H]; [discriminate H|].

Lemma spaceFree_octal n : forall p rest,
  Pos.size_nat p <= n -> spaceFree rest -> spaceFree (OctalString.Raw.of_pos p rest).
Proof.
  unfold spaceFree.
  induction n as [|n IH]; intros p rest Hn Hr; [destruct p; simpl in Hn; lia|].
  destruct p as [[[p|p|]|[p|p|]|]|[[p|p|]|[p|p|]|]|]; cbn [OctalString.Raw.of_pos];
    try (apply IH; [simpl in Hn; lia|intros H; octal_digit H; contradiction]);
    intros H; octal_digit H; contradiction.
Qed.

Lemma spaceFree_fmtSharpOctal n : spaceFree (fmtSharpOctal n).
Proof.
  unfold fmtSharpOctal. destruct n as [|p].
  - unfold spaceFree. simpl. intros [H|[]]. discriminate.
  - unfold spaceFree. simpl. intros [H|H]; [discriminate|].
    revert H. apply (spaceFree_octal (Pos.size_nat p) p "" (Nat.le_refl _)).
    unfold spaceFree. simpl. tauto.
Qed.

Lemma fmtDecimal_inj n n' : fmtDecimal n = fmtDecimal n' -> n = n'.
Proof.
  unfold fmtDecimal. intros H.
  assert (Hnn : forall m, N.to_uint m <> Decimal.Nil).
  { intros [|p]; [discriminate|apply DecimalPos.Unsigned.to_uint_nonnil]. }
  apply DecimalN.Unsigned.to_uint_inj.
  pose proof (NilZero.usu _ (Hnn n)) as H1.
  pose proof (NilZero.usu _ (Hnn n')) as H2.
  rewrite H in H1. congruence.
Qed.

Lemma octal_of_pos_inj p p' :
  OctalString.Raw.of_pos p "" = OctalString.Raw.of_pos p' "" -> p = p'.
Proof.
  intros H.
  pose proof (OctalString.Raw.to_N_of_pos p "" 0%N) as H1.
  pose proof (OctalString.Raw.to_N_of_pos p' "" 0%N) as H2.
  rewrite H in H1. simpl in H1, H2. congruence.
Qed.

Lemma fmtSharpOctal_inj n n' : fmtSharpOctal n = fmtSharpOctal n' -> n = n'.
Proof.
  unfold fmtSharpOctal.
  assert (Hne : forall p, OctalString.Raw.of_pos p "" <> "").
  { intros p H. pose proof (OctalString.Raw.to_N_of_pos p "" 0%N) as H1.
    rewrite H in H1. simpl in H1. discriminate. }
  destruct n as [|p], n' as [|p']; simpl; intros H.
  - reflexivity.
  - injection H as H. symmetry in H. now apply Hne in H.
  - injection H as H. now apply Hne in H.
  - injection H as H. now rewrite (octal_of_pos_inj p p' H).
Qed.

Lemma stringifyMeta_inj mode uid gid mode' uid' gid' :
  stringifyMeta mode uid gid = stringifyMeta mode' uid' gid' ->
  mode = mode' /\ uid = uid' /\ gid = gid'.
Proof.
  unfold stringifyMeta. intros H. cbn [String.append] in H.
  injection H as H.
  apply split_at_space in H; try apply spaceFree_fmtSharpOctal.
  destruct H as [Hm H]. injection H as H.
  apply split_at_space in H; try apply spaceFree_fmtDecimal.
  destruct H as [Hu H]. injection H as H.
  split; [now apply fmtSharpOctal_inj|].
  split; now apply fmtDecimal_inj.
Qed.

(** X26: rendering metadata loses nothing.  [stringifyMeta] gives the same
    text for two triples only when mode, uid and gid are the same; so two
    lists of entries with the same rendering by
    [stringifyDirectoryMetaEntries] are the same list. *)
Theorem meta_rendering_is_injective (entries entries' : list DirectoryMetaEntry) :
  (forall mode uid gid mode' uid' gid',
     stringifyMeta mode uid gid = stringifyMeta mode' uid' gid' <->
     mode = mode' /\ uid = uid' /\ gid = gid') /\
  (stringifyDirectoryMetaEntries entries = stringifyDirectoryMetaEntries entries'
   <-> entries = entries').
Proof.
  split.
  - intros mode uid gid mode' uid' gid'. split; [apply stringifyMeta_inj|].
    now intros (-> & -> & ->).
  - split; [|now intros ->].
    revert entries'. induction entries as [|[n m u g] es IH];
      intros [|[n' m' u' g'] es'] H; try discriminate H; [reflexivity|].
    unfold stringifyDirectoryMetaEntries in H.
    pose proof (f_equal (fun l => match l with x :: _ => sdmName x | [] => "" end) H)
      as Hn.
    pose proof (f_equal (fun l => match l with x :: _ => sdmMeta x | [] => "" end) H)
      as Hm.
    pose proof (f_equal (@tl _) H) as Ht.
    cbn [map tl sdmName sdmMeta dmName dmMode dmUID dmGID] in Hn, Hm, Ht.
    apply stringifyMeta_inj in Hm. destruct Hm as (-> & -> & ->).
    now rewrite Hn, (IH es' Ht).
Qed.

(** ** The order of the deep listing *)

Lemma string_app_nil_r s : String.append s "" = s.
Proof. induction s as [|c s IH]; simpl; [reflexivity|]. now rewrite IH. Qed.

Lemma map_flat_map {X Y Z} (f : Y -> Z) (g : X -> list Y) l :
  map f (flat_map g l) = flat_map (fun x => map f (g x)) l.
Proof.
  induction l as [|x l IH]; simpl; [reflexivity|]. now rewrite map_app, IH.
Qed.

Lemma flat_map_ext_In {X Y} (f g : X -> list Y) l :
  (forall x, In x l -> f x = g x) -> flat_map f l = flat_map g l.
Proof.
  induction l as [|x l IH]; intros H; simpl; [reflexivity|].
  rewrite (H x (or_introl eq_refl)), IH; [reflexivity|].
  intros y Hy. apply H. now right.
Qed.

Lemma plainName_cons c name :
  plainName (String c name) = true ->
  c <> "/"%char /\ c <> Ascii.zero /\ plainName name = true.
Proof.
  unfold plainName. cbn [bytes forallb]. intros H.
  apply andb_true_iff in H. destruct H as [H1 H2].
  apply andb_true_iff in H1. destruct H1 as [Ha Hb].
  apply negb_true_iff in Ha, Hb. apply Ascii.eqb_neq in Ha, Hb. tauto.
Qed.

Lemma joinClean_plain path name :
  plainName name = true ->
  joinClean path name = String.append path (String.append "/" name).
Proof.
  intros H. unfold joinClean.
  destruct name as [|c name]; [reflexivity|].
  apply plainName_cons in H. destruct H as (H & _).
  cbn [String.prefix]. destruct (ascii_dec "/" c) as [E|E]; [|reflexivity].
  congruence.
Qed.

Lemma wellListed_children st rdErr children :
  wellListed (WNode st rdErr children) = true ->
  increasing (map fst children) = true /\
  Forall (fun nc => plainName (fst nc) = true /\ wellListed (snd nc) = true)
    children.
Proof.
  cbn [wellListed]. intros H.
  apply andb_true_iff in H. destruct H as [H H3].
  apply andb_true_iff in H. destruct H as [H1 H2].
  split; [exact H1|]. apply Forall_forall. intros [name c] Hin.
  rewrite forallb_forall in H2, H3. split.
  - apply H2. apply in_map_iff. now exists (name, c).
  - exact (H3 _ Hin).
Qed.

Lemma visited_relNames (join : string -> string -> string) :
  (forall p n, join p n = joinClean p n) ->
  forall n path info, wellListed n = true ->
    visited join path info n = map (String.append path) (relNames info n).
Proof.
  intros HJ. induction n as [st rdErr children IH] using wnode_induction.
  intros path info Hw. cbn [visited relNames].
  destruct (negb (IsDir info)); [cbn [map]; now rewrite string_app_nil_r|].
  cbn [map]. rewrite string_app_nil_r. f_equal.
  destruct rdErr as [e|]; [reflexivity|].
  rewrite map_flat_map.
  destruct (wellListed_children _ _ _ Hw) as [_ Hc].
  rewrite Forall_forall in IH, Hc.
  apply flat_map_ext_In.
  intros [name c] Hin. destruct (Hc _ Hin) as [Hp Hwc]. cbn [fst snd] in *.
  rewrite map_map, HJ, (joinClean_plain _ _ Hp).
  destruct c as [[fileInfo|e] rd cs'].
  - rewrite (IH _ Hin _ _ Hwc). cbn [snd]. apply map_ext. intros r.
    now rewrite !string_app_assoc.
  - cbn [map]. now rewrite string_app_nil_r.
Qed.

Lemma listedNames_relNames path rs :
  listedNames path (map (String.append path) rs) =
  filter (fun f => negb (String.eqb f "")) rs.
Proof.
  unfold listedNames. rewrite map_map. f_equal.
  rewrite <- (map_id rs) at 2. apply map_ext. intros r.
  apply TrimPrefix_append.
Qed.

Lemma relNames_shape info n r :
  In r (relNames info n) -> r = "" \/ exists r', r = String "/" r'.
Proof.
  destruct n as [st rdErr children]. cbn [relNames].
  destruct (negb (IsDir info)); [intros [<-|[]]; now left|].
  intros [<-|H]; [now left|]. right.
  destruct rdErr as [e|]; [contradiction|].
  apply in_flat_map in H. destruct H as ([name c] & _ & H).
  apply in_map_iff in H. destruct H as (r0 & <- & _).
  now exists (String.append name r0).
Qed.

Lemma GetDirectory_relNames os path info :
  (forall p n, Join os p n = joinClean p n) ->
  Lstat os path = Ok info -> wellListed (Tree os path) = true ->
  listedNames path (visitedPaths os path) =
  filter (fun f => negb (String.eqb f "")) (relNames info (Tree os path)).
Proof.
  intros HJ HL Hw. unfold visitedPaths. rewrite HL.
  rewrite (visited_relNames (Join os) HJ _ _ _ Hw).
  apply listedNames_relNames.
Qed.

(** X27: the names of a deep listing lead back to the walked paths.  When
    [filepath.Join] of a path and a file name puts one separator between
    them and the directories list file names, every name of the deep listing
    of [path] starts with the separator, and [path] followed by the name is
    a path the walk visited: the one that [GetModifiedEntries] and
    [GetModifiedMetaEntries] stat for it. *)
Theorem listed_names_lead_back_to_walked_paths (os : OS) (path : string)
  (content : list string) (err : option error) (f : string) :
  (forall p n, Join os p n = joinClean p n) ->
  wellListed (Tree os path) = true ->
  GetDirectory os path true = Ret (mkDirectory path content, err) ->
  In f content ->
  String.prefix "/" f = true /\
  In (String.append path f) (visitedPaths os path).
Proof.
  intros HJ Hw H Hf. rewrite GetDirectory_deep_listing in H.
  injection H as <- _.
  destruct (Lstat os path) as [info|e] eqn:HL.
  - rewrite (GetDirectory_relNames os path info HJ HL Hw) in Hf.
    apply filter_In in Hf. destruct Hf as [Hf Hne].
    split.
    + destruct (relNames_shape _ _ _ Hf) as [->|[r' ->]]; [discriminate|].
      apply (prefix_append "/" r').
    + unfold visitedPaths. rewrite HL.
      rewrite (visited_relNames (Join os) HJ _ _ _ Hw).
      now apply in_map.
  - unfold visitedPaths, listedNames in Hf. rewrite HL in Hf.
    cbn [map filter] in Hf. rewrite TrimPrefix_self in Hf. contradiction.
Qed.

(** The image [/img2] holds one file, [f]. *)
Lemma listed_names_lead_back_to_walked_paths_witness :
  wellListed (Tree exampleOS "/img2") = true /\
  GetDirectory exampleOS "/img2" true = Ret (mkDirectory "/img2" ["/f"], None) /\
  visitedPaths exampleOS "/img2" = ["/img2"; "/img2/f"] /\
  String.prefix "/" "/f" = true /\
  In "/img2/f" (visitedPaths exampleOS "/img2").
Proof.
  split; [reflexivity|]. split; [reflexivity|]. split; [reflexivity|].
  apply (listed_names_lead_back_to_walked_paths exampleOS
           "/img2" ["/f"] None "/f").
  - reflexivity.
  - reflexivity.
  - reflexivity.
  - now left.
Defined.

(** *** Byte order with the separator first *)

Lemma sepToZero_app s t :
  sepToZero (String.append s t) = String.append (sepToZero s) (sepToZero t).
Proof.
  unfold sepToZero. induction s as [|c s IH]; simpl; [reflexivity|].
  now rewrite IH.
Qed.

Lemma sepToZero_plain name : plainName name = true -> sepToZero name = name.
Proof.
  unfold sepToZero. induction name as [|c name IH]; intros H; [reflexivity|].
  apply plainName_cons in H. destruct H as (H1 & _ & H3).
  cbn [Replace replaceByte]. rewrite (IH H3).
  assert (E : Ascii.eqb "/" c = false) by (apply Ascii.eqb_neq; congruence).
  now rewrite E.
Qed.

Lemma lt_append_l s x y :
  String_as_OT.lt x y -> String_as_OT.lt (String.append s x) (String.append s y).
Proof.
  intros H. induction s as [|c s IH]; simpl; [exact H|].
  now apply String_as_OT.lts_tail.
Qed.

(** A name below a smaller file name is listed before a name below a larger
    one. *)
Lemma lt_across name name' x y :
  String_as_OT.lt name name' -> plainName name' = true ->
  x = "" \/ (exists x', x = String Ascii.zero x') ->
  String_as_OT.lt (String.append name x) (String.append name' y).
Proof.
  intros H. revert x y. induction H as [c s|c s1 s2 H IH|a b s1 s2 H];
    intros x y Hp Hx.
  - apply plainName_cons in Hp. destruct Hp as (_ & Hz & _).
    destruct Hx as [->|[x' ->]]; simpl.
    + apply String_as_OT.lts_empty.
    + apply String_as_OT.lts_head.
      assert (nat_of_ascii c <> 0).
      { intros E. apply Hz.
        apply String_as_OT.nat_of_ascii_inverse. exact E. }
      change (nat_of_ascii Ascii.zero) with 0. lia.
  - apply plainName_cons in Hp. destruct Hp as (_ & _ & Hp).
    simpl. apply String_as_OT.lts_tail. now apply IH.
  - simpl. now apply String_as_OT.lts_head.
Qed.

Lemma sorted_app {T} (R : T -> T -> Prop) l1 l2 :
  StronglySorted R l1 -> StronglySorted R l2 ->
  (forall x y, In x l1 -> In y l2 -> R x y) ->
  StronglySorted R (l1 ++ l2).
Proof.
  intros H1 H2 H. induction H1 as [|a l1 Hs IH Ha]; simpl; [exact H2|].
  constructor.
  - apply IH. intros x y Hx Hy. apply H; [now right|exact Hy].
  - apply Forall_app. split; [exact Ha|].
    apply Forall_forall. intros y Hy. apply H; [now left|exact Hy].
Qed.

Lemma sorted_map {X Y} (R : Y -> Y -> Prop) (f : X -> Y) l :
  StronglySorted R (map f l) <-> StronglySorted (fun a b => R (f a) (f b)) l.
Proof.
  induction l as [|a l IH]; simpl; split; intros H; try constructor;
    apply StronglySorted_inv in H; destruct H as [H1 H2].
  - now apply IH.
  - rewrite Forall_map in H2. exact H2.
  - now apply IH.
  - rewrite Forall_map. exact H2.
Qed.

Lemma sorted_filter {T} (R : T -> T -> Prop) (f : T -> bool) l :
  StronglySorted R l -> StronglySorted R (filter f l).
Proof.
  induction 1 as [|a l Hs IH Ha]; simpl; [constructor|].
  destruct (f a); [|exact IH]. constructor; [exact IH|].
  rewrite Forall_forall in *. intros x Hx. apply Ha.
  apply filter_In in Hx. tauto.
Qed.

Lemma increasing_sorted names :
  increasing names = true -> StronglySorted String_as_OT.lt names.
Proof.
  intros H. apply Sorted_StronglySorted.
  - intros x y z. apply String_as_OT.lt_trans.
  - induction names as [|x rest IH]; [constructor|].
    cbn [increasing] in H. destruct rest as [|y rest'].
    + repeat constructor.
    + apply andb_true_iff in H. destruct H as [H1 H2].
      constructor; [now apply IH|]. constructor.
      apply String_as_OT.cmp_lt. unfold String.ltb in H1.
      unfold String_as_OT.cmp. now destruct (String.compare x y).
Qed.

Lemma sorted_map_mono {X Y} (R : X -> X -> Prop) (R' : Y -> Y -> Prop)
  (f : X -> Y) l :
  (forall x y, R x y -> R' (f x) (f y)) ->
  StronglySorted R l -> StronglySorted R' (map f l).
Proof.
  intros Hf. induction 1 as [|a l Hs IH Ha]; simpl; constructor;
    [exact IH|].
  rewrite Forall_map. eapply Forall_impl; [|exact Ha]. intros x. apply Hf.
Qed.

Lemma sepToZero_below name r :
  plainName name = true ->
  sepToZero (String.append "/" (String.append name r)) =
  String Ascii.zero (String.append name (sepToZero r)).
Proof.
  intros Hp.
  change (String.append "/" (String.append name r))
    with (String "/" (String.append name r)).
  unfold sepToZero at 1. cbn [Replace replaceByte]. rewrite Ascii.eqb_refl.
  fold (sepToZero (String.append name r)).
  now rewrite sepToZero_app, (sepToZero_plain _ Hp).
Qed.

(** The names below one child, and those the child contributes itself. *)
Local Abbreviation inside :=
  (fun c : wnode =>
     match c with
     | WNode (Ok fileInfo) _ _ => relNames fileInfo c
     | WNode (Err _) _ _ => [""]
     end).

Local Abbreviation below :=
  (fun nc : string * wnode =>
     match nc with
     | (name, c) =>
         map (fun r => String.append "/" (String.append name r)) (inside c)
     end).

Lemma inside_zero c r :
  In r (inside c) ->
  sepToZero r = "" \/ exists x', sepToZero r = String Ascii.zero x'.
Proof.
  destruct c as [[fileInfo|e] rd cs']; intros H.
  - destruct (relNames_shape _ _ _ H) as [->|[r' ->]]; [now left|].
    right. exists (sepToZero r'). unfold sepToZero. cbn [Replace replaceByte].
    now rewrite Ascii.eqb_refl.
  - destruct H as [<-|[]]. now left.
Qed.

Lemma below_zero name c x :
  plainName name = true ->
  In x (map sepToZero (below (name, c))) ->
  exists sx,
    x = String Ascii.zero (String.append name sx) /\
    (sx = "" \/ exists x', sx = String Ascii.zero x').
Proof.
  intros Hp H. cbv beta iota in H.
  apply in_map_iff in H. destruct H as (r & <- & H).
  apply in_map_iff in H. destruct H as (r0 & <- & H0).
  exists (sepToZero r0). split; [now apply sepToZero_below|].
  exact (inside_zero _ _ H0).
Qed.

Lemma block_sorted name c :
  plainName name = true ->
  StronglySorted String_as_OT.lt (map sepToZero (inside c)) ->
  StronglySorted String_as_OT.lt (map sepToZero (below (name, c))).
Proof.
  intros Hp Hs. cbv beta iota. rewrite map_map.
  rewrite (map_ext _ (fun r => String Ascii.zero
                                 (String.append name (sepToZero r))))
    by (intros r; now apply sepToZero_below).
  rewrite <- (map_map sepToZero
                (fun x => String Ascii.zero (String.append name x))).
  eapply sorted_map_mono; [|exact Hs].
  intros x y H. apply String_as_OT.lts_tail. now apply lt_append_l.
Qed.

Lemma blocks_sorted children :
  StronglySorted String_as_OT.lt (map fst children) ->
  Forall (fun nc => plainName (fst nc) = true /\
                    StronglySorted String_as_OT.lt
                      (map sepToZero (inside (snd nc)))) children ->
  StronglySorted String_as_OT.lt (map sepToZero (flat_map below children)).
Proof.
  induction children as [|[name c] rest IH]; intros Hn Hc; [constructor|].
  cbn [flat_map]. rewrite map_app.
  apply Forall_cons_iff in Hc. destruct Hc as [[Hp Hs] Hcr].
  cbn [map fst] in Hn. apply StronglySorted_inv in Hn.
  destruct Hn as [Hnr Hlt]. cbn [fst snd] in *.
  apply sorted_app.
  - now apply block_sorted.
  - now apply IH.
  - intros x y Hx Hy.
    destruct (below_zero _ _ _ Hp Hx) as (sx & -> & Hsx).
    rewrite map_flat_map in Hy. apply in_flat_map in Hy.
    destruct Hy as ([name' c'] & Hin & Hy).
    rewrite Forall_forall in Hcr. destruct (Hcr _ Hin) as [Hp' _].
    cbn [fst] in Hp'.
    destruct (below_zero _ _ _ Hp' Hy) as (sy & -> & _).
    apply String_as_OT.lts_tail. apply lt_across; try assumption.
    rewrite Forall_forall in Hlt. apply Hlt.
    apply in_map_iff. now exists (name', c').
Qed.

Lemma relNames_sorted :
  forall n info, wellListed n = true ->
    StronglySorted String_as_OT.lt (map sepToZero (relNames info n)).
Proof.
  induction n as [st rdErr children IH] using wnode_induction.
  intros info Hw. cbn [relNames].
  destruct (negb (IsDir info)); [repeat constructor|].
  destruct (wellListed_children _ _ _ Hw) as [Hinc Hc].
  apply increasing_sorted in Hinc.
  destruct rdErr as [e|]; [repeat constructor|].
  cbn [map]. constructor.
  - apply blocks_sorted; [exact Hinc|].
    rewrite Forall_forall in *. intros [name c] Hin.
    destruct (Hc _ Hin) as [Hp Hwc]. split; [exact Hp|]. cbn [fst snd] in *.
    destruct c as [[fileInfo|e] rd cs'].
    + exact (IH _ Hin fileInfo Hwc).
    + repeat constructor.
  - apply Forall_forall. intros x Hx.
    rewrite map_flat_map in Hx. apply in_flat_map in Hx.
    destruct Hx as ([name c] & Hin & Hx).
    rewrite Forall_forall in Hc. destruct (Hc _ Hin) as [Hp _].
    destruct (below_zero _ _ _ Hp Hx) as (sx & -> & _).
    apply String_as_OT.lts_empty.
Qed.

Lemma walkOrder_strict : StrictOrder walkOrder.
Proof.
  split.
  - intros x H. apply (String_as_OT.lt_not_eq _ _ H). reflexivity.
  - intros x y z. apply String_as_OT.lt_trans.
Qed.

Lemma deep_listing_sorted os path :
  (forall p n, Join os p n = joinClean p n) ->
  wellListed (Tree os path) = true ->
  StronglySorted walkOrder (listedNames path (visitedPaths os path)).
Proof.
  intros HJ Hw. destruct (Lstat os path) as [info|e] eqn:HL.
  - rewrite (GetDirectory_relNames os path info HJ HL Hw).
    apply sorted_filter.
    apply (proj1 (sorted_map String_as_OT.lt sepToZero _)).
    now apply relNames_sorted.
  - unfold visitedPaths, listedNames. rewrite HL. cbn [map filter].
    rewrite TrimPrefix_self. constructor.
Qed.

(** X28: the deep listing is in walk order.  When [filepath.Join] of a path
    and a file name puts one separator between them, and every directory
    below [path] lists file names in ascending byte order (as
    [readDirNames] returns them), the content of [GetDirectory(path, true)]
    is strictly increasing in one order that does not depend on the tree:
    the byte order of the paths with the separator taken as the smallest
    byte.  So no path is listed twice. *)
Theorem deep_listing_is_strictly_increasing (os : OS) (path : string) :
  (forall p n, Join os p n = joinClean p n) ->
  wellListed (Tree os path) = true ->
  exists content,
    GetDirectory os path true = Ret (mkDirectory path content, None) /\
    StronglySorted walkOrder content /\ NoDup content.
Proof.
  intros HJ Hw. exists (listedNames path (visitedPaths os path)).
  split; [apply GetDirectory_deep_listing|].
  pose proof (deep_listing_sorted os path HJ Hw) as Hs.
  split; [exact Hs|].
  exact (@sorted_NoDup walkOrder walkOrder_strict _ Hs).
Qed.

(** The listing of [/data]: [/sub] comes before [/sub/b]. *)
Lemma deep_listing_is_strictly_increasing_witness :
  wellListed (Tree storageOS "/data") = true /\
  GetDirectory storageOS "/data" true =
    Ret (mkDirectory "/data" ["/a"; "/c"; "/sub"; "/sub/b"; "/sub/l"], None) /\
  StronglySorted walkOrder ["/a"; "/c"; "/sub"; "/sub/b"; "/sub/l"].
Proof.
  split; [reflexivity|]. split; [reflexivity|].
  destruct (deep_listing_is_strictly_increasing storageOS "/data")
    as (content & Hg & Hs & _).
  - reflexivity.
  - reflexivity.
  - assert (E : content = ["/a"; "/c"; "/sub"; "/sub/b"; "/sub/l"]).
    { assert (Hc : GetDirectory storageOS "/data" true =
                   Ret (mkDirectory "/data"
                          ["/a"; "/c"; "/sub"; "/sub/b"; "/sub/l"], None))
        by reflexivity.
      rewrite Hg in Hc. now injection Hc. }
    rewrite <- E. exact Hs.
Defined.

(** X29: the metadata diff of two walked trees is their set difference.
    For two roots whose directories list file names in ascending order, a
    diff that [diffImageFileMetadata] returns without an error has as names
    of [Adds] exactly the paths listed below the second root and not below
    the first, as names of [Dels] exactly the paths listed below the first
    and not below the second, and as names of [Mods] exactly the paths
    listed below both whose mode, uid or gid differ. *)
Theorem walked_trees_meta_diff_is_set_difference (os : OS) (img1 img2 : string)
  (diff : MetaDirDiff) :
  (forall p n, Join os p n = joinClean p n) ->
  wellListed (Tree os img1) = true -> wellListed (Tree os img2) = true ->
  diffImageFileMetadata os img1 img2 = Ret (diff, None) ->
  exists c1 c2,
    GetDirectory os img1 true = Ret (mkDirectory img1 c1, None) /\
    GetDirectory os img2 true = Ret (mkDirectory img2 c2, None) /\
    (forall x, In x (map dmName (MetaAdds diff)) <-> In x c2 /\ ~ In x c1) /\
    (forall x, In x (map dmName (MetaDels diff)) <-> In x c1 /\ ~ In x c2) /\
    (forall x, In x (map mdName (MetaMods diff)) <->
               In x c1 /\ In x c2 /\
               metaModified os (mkDirectory img1 c1) (mkDirectory img2 c2) x
               = true).
Proof.
  intros HJ Hw1 Hw2 H.
  exists (listedNames img1 (visitedPaths os img1)),
         (listedNames img2 (visitedPaths os img2)).
  pose proof (deep_listing_sorted os img1 HJ Hw1) as S1.
  pose proof (deep_listing_sorted os img2 HJ Hw2) as S2.
  split; [apply GetDirectory_deep_listing|].
  split; [apply GetDirectory_deep_listing|].
  unfold diffImageFileMetadata in H.
  rewrite !GetDirectory_deep_listing in H. cbn [bind fst snd] in H.
  destruct (DiffDirectoryMetadata os _ _) as [[d same] [e|]] eqn:E;
    [discriminate|].
  injection H as <-.
  apply DiffDirectoryMetadata_inv in E. destruct E as (Ha & Hd & Hm & _).
  rewrite Ha, Hd, Hm.
  unfold GetAddedEntries, GetDeletedEntries. cbn [Content].
  split; [|split].
  - intros x. rewrite sortStrings_In.
    exact (@GetAdditions_set walkOrder walkOrder_strict _ _ S1 S2 x).
  - intros x. rewrite sortStrings_In.
    exact (@GetDeletions_set walkOrder walkOrder_strict _ _ S1 S2 x).
  - intros x. rewrite sortStrings_In, GetModifiedMetaEntries_In. cbn [Content].
    rewrite (@GetMatches_set walkOrder walkOrder_strict _ _ S1 S2 x). tauto.
Qed.

(** The layer [/layer1] holds [f], the layer [/layer2] holds [g]. *)
Lemma walked_trees_meta_diff_is_set_difference_witness :
  wellListed (Tree exampleOS "/layer1") = true /\
  wellListed (Tree exampleOS "/layer2") = true /\
  diffImageFileMetadata exampleOS "/layer1" "/layer2" =
    Ret (mkMetaDirDiff [mkDirectoryMetaEntry "/g" 420 0 0]
           [mkDirectoryMetaEntry "/f" 420 0 0] [], None) /\
  (forall x, In x ["/g"] <-> In x ["/g"] /\ ~ In x ["/f"]) /\
  (forall x, In x ["/f"] <-> In x ["/f"] /\ ~ In x ["/g"]).
Proof.
  split; [reflexivity|]. split; [reflexivity|]. split; [reflexivity|].
  destruct (walked_trees_meta_diff_is_set_difference exampleOS
              "/layer1" "/layer2"
              (mkMetaDirDiff [mkDirectoryMetaEntry "/g" 420 0 0]
                 [mkDirectoryMetaEntry "/f" 420 0 0] []))
    as (c1 & c2 & H1 & H2 & Ha & Hd & _).
  - reflexivity.
  - reflexivity.
  - reflexivity.
  - reflexivity.
  - assert (E1 : c1 = ["/f"]).
    { assert (Hc : GetDirectory exampleOS "/layer1" true =
                   Ret (mkDirectory "/layer1" ["/f"], None)) by reflexivity.
      rewrite H1 in Hc. now injection Hc. }
    assert (E2 : c2 = ["/g"]).
    { assert (Hc : GetDirectory exampleOS "/layer2" true =
                   Ret (mkDirectory "/layer2" ["/g"], None)) by reflexivity.
      rewrite H2 in Hc. now injection Hc. }
    subst c1 c2. split; [exact Ha|exact Hd].
Defined.
